(** * Constraint validator: authority model, constraint extractor, Z3 validator

    A shallow embedding of [authority_model.py], [constraint_extractor.py]
    and [z3_validator.py] of the constraint-validator MCP server, and the
    properties of the specification that concern them.

    Conventions.
    - Python [str] values are Rocq [string]s; the character classes, the case
      mapping and the ordering are the ones Python has on ASCII text
      (characters above 127 are in no class and have no case).
    - A method that can raise returns a [result]; a method that mutates its
      object takes the object's state and returns the new one.
    - The patterns are kept as the source writes them and compiled by a
      small backtracking matcher with Python's priorities (leftmost match,
      greedy repetition, alternatives from left to right).
    - The SMT solver and Python's [eval] are not part of the repository:
      they are parameters of the validator, with their contracts stated
      apart and reference instances that meet them.  The completion service
      is the list of the replies it will give. *)

From Stdlib Require Import Strings.String Strings.Ascii ZArith QArith.QArith_base
  Lists.List Sorting.Sorted Sorting.Permutation Numbers.DecimalString
  Numbers.DecimalNat Bool.Bool Lia.
From stdpp Require Import base option list gmap strings.

Local Open Scope string_scope.
Local Open Scope list_scope.

(* ===================================================================== *)
(** * Exceptions *)
(* ===================================================================== *)

(** The exception classes that reach a caller of the modelled methods. *)
Inductive exn : Type :=
| AttributeError      (* [None.lower()] *)
| Z3Exception.        (* raised by the z3 bindings *)

Inductive result (A : Type) : Type :=
| Ok (a : A)
| Raise (e : exn).
Arguments Ok {A} a.
Arguments Raise {A} e.

(* ===================================================================== *)
(** * Text *)
(* ===================================================================== *)

Module Text.

Definition code (c : ascii) : nat := nat_of_ascii c.

Definition between (lo hi : nat) (c : ascii) : bool :=
  (lo <=? code c)%nat && (code c <=? hi)%nat.

Definition is_upper (c : ascii) : bool := between 65 90 c.
Definition is_lower (c : ascii) : bool := between 97 122 c.
Definition is_alpha (c : ascii) : bool := is_upper c || is_lower c.

(** [\d] *)
Definition is_digit (c : ascii) : bool := between 48 57 c.

(** [\s]: tab, newline, vertical tab, form feed, carriage return, the four
    separators 28..31 and the space. *)
Definition is_space (c : ascii) : bool :=
  between 9 13 c || between 28 32 c.

(** [\w] *)
Definition is_word (c : ascii) : bool :=
  is_alpha c || is_digit c || (code c =? 95)%nat.

Definition lower_char (c : ascii) : ascii :=
  if is_upper c then ascii_of_nat (code c + 32) else c.

Definition upper_char (c : ascii) : ascii :=
  if is_lower c then ascii_of_nat (code c - 32) else c.

(** [str.lower()] *)
Fixpoint lower (s : string) : string :=
  match s with
  | EmptyString => EmptyString
  | String c s' => String (lower_char c) (lower s')
  end.

(** [str.title()]: a letter that follows a letter is lowered, any other
    letter is raised. *)
Fixpoint title_from (prev_cased : bool) (s : string) : string :=
  match s with
  | EmptyString => EmptyString
  | String c s' =>
      String (if prev_cased then lower_char c else upper_char c)
             (title_from (is_alpha c) s')
  end.

Definition title (s : string) : string := title_from false s.

(** [needle in hay] *)
Fixpoint contains (needle hay : string) : bool :=
  if String.prefix needle hay then true
  else match hay with
       | EmptyString => false
       | String _ hay' => contains needle hay'
       end.

(** [s[:n]] *)
Definition take (n : nat) (s : string) : string := String.substring 0 n s.

(** [str(n)] for a non-negative integer. *)
Definition str_of_nat (n : nat) : string :=
  NilEmpty.string_of_uint (Nat.to_uint n).

(** [bool(s)] for a string: non-empty. *)
Definition truthy (s : string) : bool :=
  match s with EmptyString => false | _ => true end.

(** [a or b] on strings. *)
Definition str_or (a b : string) : string := if truthy a then a else b.

End Text.

(* ===================================================================== *)
(** * Regular expressions (the part of [re] the patterns use) *)
(* ===================================================================== *)

Module Re.

Inductive cclass : Type := Digit | Space | Word.

Definition in_class (k : cclass) (c : ascii) : bool :=
  match k with
  | Digit => Text.is_digit c
  | Space => Text.is_space c
  | Word => Text.is_word c
  end.

Inductive regex : Type :=
| Void                          (* matches nothing *)
| Eps
| Lit (c : ascii)
| Cls (k : cclass)
| Seq (r1 r2 : regex)
| Alt (r1 r2 : regex)           (* [r1|r2], [r1] tried first *)
| Star (r : regex)              (* greedy [r*] *)
| Grp (i : nat) (r : regex).    (* capturing group number [i] *)

Definition plus (r : regex) : regex := Seq r (Star r).
Definition opt (r : regex) : regex := Alt r Eps.

(** ** Compiling a pattern string *)

(** A postfix operator after an atom. *)
Fixpoint postfix (fuel : nat) (r : regex) (p : string) : regex * string :=
  match fuel, p with
  | S f, String "+" p' => postfix f (plus r) p'
  | S f, String "*" p' => postfix f (Star r) p'
  | S f, String "?" p' => postfix f (opt r) p'
  | _, _ => (r, p)
  end.

(** An escape: one of the three classes, or an escaped punctuation
    character, which stands for itself; the other escapes are refused. *)
Definition escape (c : ascii) : option regex :=
  match c with
  | "d"%char => Some (Cls Digit)
  | "s"%char => Some (Cls Space)
  | "w"%char => Some (Cls Word)
  | _ => if Text.is_word c then None else Some (Lit c)
  end.

(** [parse_alt fuel p n]: an alternation read from [p], the next group
    number being [n]; returns the expression, what is left of the pattern
    and the next free group number.  Metacharacters the patterns of this
    program do not use ([.], brackets, braces, anchors) are refused. *)
Fixpoint parse_alt (fuel : nat) (p : string) (n : nat)
  : option (regex * string * nat) :=
  match fuel with
  | O => None
  | S f =>
      match parse_seq f p n with
      | Some (r1, String "|" p', n') =>
          match parse_alt f p' n' with
          | Some (r2, p'', n'') => Some (Alt r1 r2, p'', n'')
          | None => None
          end
      | other => other
      end
  end
with parse_seq (fuel : nat) (p : string) (n : nat)
  : option (regex * string * nat) :=
  match fuel with
  | O => None
  | S f =>
      match p with
      | EmptyString | String ")" _ | String "|" _ => Some (Eps, p, n)
      | _ =>
          match parse_atom f p n with
          | Some (a, p', n') =>
              let '(a', p'') := postfix (String.length p') a p' in
              match parse_seq f p'' n' with
              | Some (Eps, p3, n3) => Some (a', p3, n3)
              | Some (r, p3, n3) => Some (Seq a' r, p3, n3)
              | None => None
              end
          | None => None
          end
      end
  end
with parse_atom (fuel : nat) (p : string) (n : nat)
  : option (regex * string * nat) :=
  match fuel with
  | O => None
  | S f =>
      match p with
      | String "(" p' =>
          match parse_alt f p' (S n) with
          | Some (r, String ")" p'', n') => Some (Grp n r, p'', n')
          | _ => None
          end
      | String "\" (String c p') =>
          match escape c with
          | Some r => Some (r, p', n)
          | None => None
          end
      | String "." _ | String "[" _ | String "]" _ | String "{" _
      | String "}" _ | String "^" _ | String "$" _ | String "+" _
      | String "*" _ | String "?" _ | String "\" EmptyString
      | EmptyString => None
      | String c p' => Some (Lit c, p', n)
      end
  end.

(** [re.compile(p)]; groups are numbered from 1. *)
Definition compile (p : string) : option regex :=
  match parse_alt (3 * String.length p + 3) p 1 with
  | Some (r, EmptyString, _) => Some r
  | _ => None
  end.

(** The compiled pattern; a pattern outside the supported syntax becomes
    [Void] (no pattern of the program does, see [patterns_compile]). *)
Definition pat (p : string) : regex :=
  match compile p with Some r => r | None => Void end.

(** ** Matching *)

(** Captured groups, most recent first. *)
Definition caps : Type := list (nat * string).

Fixpoint group (i : nat) (g : caps) : option string :=
  match g with
  | [] => None
  | (j, s) :: g' => if (i =? j)%nat then Some s else group i g'
  end.

(** What was consumed between [s] and its suffix [s']. *)
Definition consumed (s s' : string) : string :=
  String.substring 0 (String.length s - String.length s') s.

Definition char_eq (ic : bool) (c c' : ascii) : bool :=
  if ic then Ascii.eqb (Text.lower_char c) (Text.lower_char c')
  else Ascii.eqb c c'.

Section Matcher.
Context {A : Type}.

(** A matcher takes the text, the groups so far and what to do with the
    rest of the text; [None] makes it backtrack. *)
Definition cont : Type := string -> caps -> option A.

(** Greedy iteration: one more round of [body] first, stopping second.
    A round that consumes nothing is not repeated. *)
Fixpoint star_loop (body : string -> caps -> cont -> option A) (k : cont)
    (n : nat) (s : string) (g : caps) : option A :=
  match n with
  | O => k s g
  | S n' =>
      match body s g (fun s' g' =>
              if (String.length s' <? String.length s)%nat
              then star_loop body k n' s' g' else None) with
      | Some x => Some x
      | None => k s g
      end
  end.

Fixpoint rmatch (ic : bool) (r : regex) (s : string) (g : caps) (k : cont)
  : option A :=
  match r with
  | Void => None
  | Eps => k s g
  | Lit c =>
      match s with
      | String c' s' => if char_eq ic c c' then k s' g else None
      | EmptyString => None
      end
  | Cls cl =>
      match s with
      | String c' s' => if in_class cl c' then k s' g else None
      | EmptyString => None
      end
  | Seq r1 r2 => rmatch ic r1 s g (fun s' g' => rmatch ic r2 s' g' k)
  | Alt r1 r2 =>
      match rmatch ic r1 s g k with
      | Some x => Some x
      | None => rmatch ic r2 s g k
      end
  | Star r1 =>
      star_loop (fun s0 g0 k0 => rmatch ic r1 s0 g0 k0) k
                (String.length s) s g
  | Grp i r1 =>
      rmatch ic r1 s g (fun s' g' => k s' ((i, consumed s s') :: g'))
  end.
End Matcher.

(** A match object: group 0 and the numbered groups. *)
Record match_obj : Type := { group0 : string; groups : caps }.

(** [re.match(r, s)]: a match at the start of [s]. *)
Definition re_match (ic : bool) (r : regex) (s : string) : option match_obj :=
  rmatch ic r s [] (fun s' g => Some {| group0 := consumed s s'; groups := g |}).

(** [re.search(r, s)]: the leftmost match. *)
Fixpoint re_search (ic : bool) (r : regex) (s : string) : option match_obj :=
  match re_match ic r s with
  | Some m => Some m
  | None =>
      match s with
      | EmptyString => None
      | String _ s' => re_search ic r s'
      end
  end.

Definition grp (i : nat) (m : match_obj) : string :=
  match group i (groups m) with Some s => s | None => "" end.

End Re.

(* ===================================================================== *)
(** * State and exceptions *)
(* ===================================================================== *)

(** A method of an object with state [S]: it returns or raises, and leaves
    the object in a new state. *)
Definition M (S A : Type) : Type := S -> result A * S.

Definition ret {S A} (a : A) : M S A := fun st => (Ok a, st).

Definition raise {S A} (e : exn) : M S A := fun st => (Raise e, st).

Definition bind {S A B} (m : M S A) (f : A -> M S B) : M S B :=
  fun st =>
    match m st with
    | (Ok a, st') => f a st'
    | (Raise e, st') => (Raise e, st')
    end.

Definition lift {S A} (r : result A) : M S A := fun st => (r, st).

Declare Scope method_scope.
Delimit Scope method_scope with method.
Notation "'do' x <- m ; k" := (bind m (fun x => k))
  (at level 10, x name, m at level 100, k at level 200) : method_scope.

(** A [for] loop that collects one value per element. *)
Fixpoint for_each {S A B} (f : A -> M S B) (l : list A) : M S (list B) :=
  match l with
  | [] => ret []
  | x :: l' =>
      (do y <- f x; do ys <- for_each f l'; ret (y :: ys))%method
  end.

(* ===================================================================== *)
(** * authority_model.py *)
(* ===================================================================== *)

Module Authority.

(** ** class AuthorityLevel(IntEnum)

    The class body binds eleven names to eight values.  In a Python [Enum]
    a name bound to a value that an earlier member already has is an alias
    of that member: the same object, with the earlier member's [name].
    The members are therefore the eight below and the three remaining
    names are aliases. *)
Inductive AuthorityLevel : Type :=
| SUPREME_COURT
| CIRCUIT_COURT
| DISTRICT_COURT
| TRIAL_COURT
| ADMINISTRATIVE
| SECONDARY_SOURCE
| WITNESS_STATEMENT
| UNKNOWN.

Definition value (l : AuthorityLevel) : Z :=
  match l with
  | SUPREME_COURT => 1
  | CIRCUIT_COURT => 2
  | DISTRICT_COURT => 3
  | TRIAL_COURT => 4
  | ADMINISTRATIVE => 5
  | SECONDARY_SOURCE => 6
  | WITNESS_STATEMENT => 7
  | UNKNOWN => 10
  end.

Definition name (l : AuthorityLevel) : string :=
  match l with
  | SUPREME_COURT => "SUPREME_COURT"
  | CIRCUIT_COURT => "CIRCUIT_COURT"
  | DISTRICT_COURT => "DISTRICT_COURT"
  | TRIAL_COURT => "TRIAL_COURT"
  | ADMINISTRATIVE => "ADMINISTRATIVE"
  | SECONDARY_SOURCE => "SECONDARY_SOURCE"
  | WITNESS_STATEMENT => "WITNESS_STATEMENT"
  | UNKNOWN => "UNKNOWN"
  end.

(** The class body, in source order. *)
Definition class_body : list (string * Z) :=
  [ ("SUPREME_COURT", 1); ("CIRCUIT_COURT", 2); ("STATE_SUPREME", 2);
    ("DISTRICT_COURT", 3); ("STATE_APPEALS", 3); ("TRIAL_COURT", 4);
    ("ADMINISTRATIVE", 5); ("SECONDARY_SOURCE", 6);
    ("WITNESS_STATEMENT", 7); ("DOCUMENT_EVIDENCE", 7); ("UNKNOWN", 10) ]%Z.

Definition members : list AuthorityLevel :=
  [ SUPREME_COURT; CIRCUIT_COURT; DISTRICT_COURT; TRIAL_COURT;
    ADMINISTRATIVE; SECONDARY_SOURCE; WITNESS_STATEMENT; UNKNOWN ].

(** [AuthorityLevel(v)] *)
Definition of_value (v : Z) : option AuthorityLevel :=
  List.find (fun l => (value l =? v)%Z) members.

(** [AuthorityLevel.<n>]: the member that has the value the class body
    binds [n] to. *)
Definition attr (n : string) : option AuthorityLevel :=
  match List.find (fun e => String.eqb (fst e) n) class_body with
  | Some (_, v) => of_value v
  | None => None
  end.

Definition STATE_SUPREME : AuthorityLevel := CIRCUIT_COURT.
Definition STATE_APPEALS : AuthorityLevel := DISTRICT_COURT.
Definition DOCUMENT_EVIDENCE : AuthorityLevel := WITNESS_STATEMENT.

(** [==] and [hash] of an [IntEnum] member are those of its value. *)
Definition level_eqb (a b : AuthorityLevel) : bool := (value a =? value b)%Z.

(** ** class AuthorityInfo *)
Record AuthorityInfo : Type := {
  level : AuthorityLevel;
  court_name : string;
  jurisdiction : option string;
  date : option string;
  binding : bool;
  overruled : bool
}.

(** ** COURT_PATTERNS *)

(** A dict display [{k1: v1, ..., kn: vn}] stores the pairs from left to
    right: a key that is already there keeps its place and takes the new
    value. *)
Fixpoint dict_store {V} (k : AuthorityLevel) (v : V)
    (d : list (AuthorityLevel * V)) : list (AuthorityLevel * V) :=
  match d with
  | [] => [(k, v)]
  | (k', v') :: d' =>
      if level_eqb k k' then (k', v) :: d' else (k', v') :: dict_store k v d'
  end.

Definition dict_display {V} (entries : list (AuthorityLevel * V))
  : list (AuthorityLevel * V) :=
  fold_left (fun d e => dict_store (fst e) (snd e) d) entries [].

(** The display as the source writes it. *)
Definition COURT_PATTERNS_display : list (AuthorityLevel * list string) :=
  [ (SUPREME_COURT,
      [ "supreme\s+court\s+of\s+the\s+united\s+states";
        "u\.?\s*s\.?\s+supreme\s+court";
        "scotus";
        "\d+\s+u\.?\s*s\.?\s+\d+" ]);
    (CIRCUIT_COURT,
      [ "(\d+)(st|nd|rd|th)\s+circuit";
        "court\s+of\s+appeals?\s+for\s+the\s+(\d+)(st|nd|rd|th)\s+circuit";
        "\d+\s+f\.\s*\d*d?\s+\d+" ]);
    (DISTRICT_COURT,
      [ "district\s+court";
        "u\.?\s*s\.?\s*d\.?\s*c\.?";
        "\d+\s+f\.\s*supp" ]);
    (STATE_SUPREME,
      [ "supreme\s+court\s+of\s+\w+";
        "\w+\s+supreme\s+court" ]);
    (TRIAL_COURT,
      [ "trial\s+court";
        "superior\s+court";
        "county\s+court" ]) ].

(** The dict the module holds; [.items()] lists it in this order. *)
Definition COURT_PATTERNS : list (AuthorityLevel * list string) :=
  dict_display COURT_PATTERNS_display.

(** ** A source document *)

(** An entry of a dict read with [.get(key, default)]: absent, [None], or a
    string. *)
Inductive pyfield : Type :=
| Missing
| PyNone
| Str (s : string).

(** The [source] dict.  A [date], when present, is a string. *)
Record source : Type := {
  doc_title : pyfield;
  court : pyfield;
  quote : pyfield;
  doc_type : pyfield;
  src_date : option string
}.

(** [{}] *)
Definition empty_source : source :=
  {| doc_title := Missing; court := Missing; quote := Missing;
     doc_type := Missing; src_date := None |}.

(** [source.get(key, '').lower()] *)
Definition get_lower (f : pyfield) : result string :=
  match f with
  | Missing => Ok ""
  | PyNone => Raise AttributeError
  | Str s => Ok (Text.lower s)
  end.

(** ** class AuthorityRanker *)

(** [self.court_cache] *)
Abbreviation cache := (gmap string AuthorityInfo).

Definition searches (ic : bool) (p text : string) : bool :=
  match Re.re_search ic (Re.pat p) text with Some _ => true | None => false end.

Fixpoint first_level (items : list (AuthorityLevel * list string))
    (text : string) : AuthorityLevel :=
  match items with
  | [] => UNKNOWN
  | (lvl, patterns) :: items' =>
      if existsb (fun p => searches true p text) patterns then lvl
      else first_level items' text
  end.

Definition _detect_from_text (text : string) : AuthorityLevel :=
  let text := Text.lower text in
  first_level COURT_PATTERNS text.

Definition states : list string :=
  [ "alabama"; "alaska"; "arizona"; "arkansas"; "california";
    "colorado"; "connecticut"; "delaware"; "florida"; "georgia";
    "hawaii"; "idaho"; "illinois"; "indiana"; "iowa"; "kansas";
    "kentucky"; "louisiana"; "maine"; "maryland"; "massachusetts";
    "michigan"; "minnesota"; "mississippi"; "missouri"; "montana";
    "nebraska"; "nevada"; "new hampshire"; "new jersey"; "new mexico";
    "new york"; "north carolina"; "north dakota"; "ohio"; "oklahoma";
    "oregon"; "pennsylvania"; "rhode island"; "south carolina";
    "south dakota"; "tennessee"; "texas"; "utah"; "vermont";
    "virginia"; "washington"; "west virginia"; "wisconsin"; "wyoming" ].

Definition _detect_jurisdiction (text : string) : option string :=
  match Re.re_search true (Re.pat "(\d+)(st|nd|rd|th)\s+circuit") text with
  | Some circuit_match => Some (Re.grp 1 circuit_match +:+ "th Circuit")
  | None =>
      let text_lower := Text.lower text in
      match List.find (fun state => Text.contains state text_lower) states with
      | Some state => Some (Text.title state)
      | None => None
      end
  end.

Definition any_in (keywords : list string) (text : string) : bool :=
  existsb (fun x => Text.contains x text) keywords.

(** The body of [detect_authority] below its cache lookup: from "Detect
    from court field first" to the construction of the [AuthorityInfo]. *)
Definition detect_uncached (doc_title court quote doc_type : string)
  : AuthorityInfo :=
  let level := _detect_from_text court in
  let level :=
    if level_eqb level UNKNOWN then _detect_from_text doc_title
    else level in
  let level :=
    if level_eqb level UNKNOWN then _detect_from_text quote
    else level in
  let level :=
    if level_eqb level UNKNOWN then
      if any_in ["fd-302"; "fbi"; "interview"; "statement"] doc_type
      then WITNESS_STATEMENT
      else if any_in ["indictment"; "motion"; "filing"] doc_type
      then TRIAL_COURT
      else if any_in ["email"; "memo"; "document"] doc_type
      then DOCUMENT_EVIDENCE
      else level
    else level in
  let level :=
    if level_eqb level UNKNOWN then DOCUMENT_EVIDENCE else level in
  {| level := level;
     court_name := Text.str_or court doc_title;
     jurisdiction := _detect_jurisdiction (Text.str_or court doc_title);
     date := None;
     binding := (value level <=? value DISTRICT_COURT)%Z;
     overruled := false |}.

Definition detect_authority (src : source) : M cache AuthorityInfo :=
  (do doc_title <- lift (get_lower (doc_title src));
   do court <- lift (get_lower (court src));
   do quote <- lift (get_lower (quote src));
   do doc_type <- lift (get_lower (doc_type src));
   fun court_cache =>
     let cache_key := doc_title +:+ ":" +:+ court in
     match court_cache !! cache_key with
     | Some info => (Ok info, court_cache)
     | None =>
         let info := detect_uncached doc_title court quote doc_type in
         (Ok info, <[cache_key := info]> court_cache)
     end)%method.

(** A constraint as the ranker sees it: a dict whose ['source'] entry, if
    any, is a source dict; the ranker reads nothing else of it. *)
Record cdict : Type := {
  cd_source : option source;
  cd_fields : list (string * string)
}.

(** [constraint.get('source', {})] *)
Definition get_source (c : cdict) : source :=
  match cd_source c with Some s => s | None => empty_source end.

(** The sort key: [(auth.level, not auth.binding, source.get('date', '9999'))]. *)
Definition sort_key : Type := Z * bool * string.

Definition get_authority_key (c : cdict) : M cache sort_key :=
  (let source := get_source c in
   do auth <- detect_authority source;
   ret (value (level auth), negb (binding auth),
        match src_date source with Some d => d | None => "9999" end))%method.

(** [<] on [bool]: [False < True]. *)
Definition bool_lt (a b : bool) : bool := negb a && b.

(** [<] on the key tuples: the first component that differs decides. *)
Definition key_lt (a b : sort_key) : bool :=
  let '(la, na, da) := a in
  let '(lb, nb, db) := b in
  if (la <? lb)%Z then true
  else if (lb <? la)%Z then false
  else if bool_lt na nb then true
  else if bool_lt nb na then false
  else String.ltb da db.

(** [sorted(l, key=f)] computes the keys of the elements from left to
    right and then sorts stably: the outcome is the one below, each element
    going behind those already there whose key is not greater. *)
Fixpoint insert_by_key {A} (x : sort_key * A) (l : list (sort_key * A))
  : list (sort_key * A) :=
  match l with
  | [] => [x]
  | y :: l' =>
      if key_lt (fst x) (fst y) then x :: y :: l'
      else y :: insert_by_key x l'
  end.

Definition sort_by_key {A} (l : list (sort_key * A)) : list (sort_key * A) :=
  fold_left (fun acc x => insert_by_key x acc) l [].

(** An element with its key, as [sorted] pairs them. *)
Definition keyed_constraint (c : cdict) : M cache (sort_key * cdict) :=
  (do k <- get_authority_key c; ret (k, c))%method.

Definition rank_constraints (constraints : list cdict) : M cache (list cdict) :=
  (do keyed <- for_each keyed_constraint constraints;
   ret (map snd (sort_by_key keyed)))%method.

(** An entry of the ['authority_hierarchy'] list. *)
Definition named_level (c : cdict) : M cache (cdict * string) :=
  (do a <- detect_authority (get_source c); ret (c, name (level a)))%method.

(** The dict [resolve_conflict] returns; an entry it does not set is
    [None]. *)
Record resolution : Type := {
  resolved : bool;
  reason : string;
  winner : option cdict;
  loser : option cdict;
  constraints : option (list cdict);
  recommendation : option string;
  authority_hierarchy : option (list (cdict * string))
}.

Definition resolve_conflict (conflicting_constraints : list cdict)
  : M cache resolution :=
  match conflicting_constraints with
  | [] =>
      ret {| resolved := false; reason := "No constraints provided";
             winner := None; loser := None; constraints := None;
             recommendation := None; authority_hierarchy := None |}
  | [c] =>
      ret {| resolved := true; reason := "Only one constraint";
             winner := Some c; loser := None; constraints := None;
             recommendation := None; authority_hierarchy := None |}
  | c0 :: _ =>
      (do ranked <- rank_constraints conflicting_constraints;
       (* ranked[0] and ranked[-1]; [ranked] is as long as the input *)
       let winner := List.hd c0 ranked in
       let loser := List.last ranked c0 in
       do winner_auth <- detect_authority (get_source winner);
       do loser_auth <- detect_authority (get_source loser);
       if level_eqb (level winner_auth) (level loser_auth) then
         ret {| resolved := false;
                reason := "Same authority level (" +:+ name (level winner_auth) +:+ ")";
                winner := None; loser := None;
                constraints := Some ranked;
                recommendation :=
                  Some "Manual review required - same authority level";
                authority_hierarchy := None |}
       else
         do hierarchy <- for_each named_level ranked;
         ret {| resolved := true;
                reason := name (level winner_auth) +:+ " ("
                          +:+ court_name winner_auth +:+ ") overrides "
                          +:+ name (level loser_auth) +:+ " ("
                          +:+ court_name loser_auth +:+ ")";
                winner := Some winner; loser := Some loser;
                constraints := None; recommendation := None;
                authority_hierarchy := Some hierarchy |})%method
  end.

(** ** explain_authority *)

(** The dict display [level_explanations], as the source writes it. *)
Definition level_explanations_display : list (AuthorityLevel * string) :=
  [ (SUPREME_COURT, "Supreme Court decisions are binding on all lower courts");
    (CIRCUIT_COURT, "Circuit Court decisions are binding within their circuit");
    (STATE_SUPREME,
      "State Supreme Court decisions are authoritative for state law");
    (DISTRICT_COURT,
      "District Court decisions may be persuasive but not binding");
    (STATE_APPEALS,
      "State Appeals Court decisions are persuasive within the state");
    (TRIAL_COURT, "Trial court filings are evidence, not precedent");
    (ADMINISTRATIVE, "Administrative rulings may guide but don't bind courts");
    (SECONDARY_SOURCE, "Secondary sources inform but don't create law");
    (WITNESS_STATEMENT,
      "Witness statements are factual claims, not legal authority");
    (DOCUMENT_EVIDENCE, "Documentary evidence is factual, not legal authority");
    (UNKNOWN, "Authority level could not be determined") ].

(** [d.get(k, dflt)] *)
Fixpoint dict_get {V} (d : list (AuthorityLevel * V)) (k : AuthorityLevel)
    (dflt : V) : V :=
  match d with
  | [] => dflt
  | (k', v) :: d' => if level_eqb k k' then v else dict_get d' k dflt
  end.

Definition explain_authority (src : source) : M cache string :=
  (do auth <- detect_authority src;
   let level_explanations := dict_display level_explanations_display in
   let base_explanation :=
     dict_get level_explanations (level auth) "Unknown authority level" in
   if Text.truthy (court_name auth)
   then ret (base_explanation +:+ ". Source: " +:+ court_name auth)
   else ret base_explanation)%method.

End Authority.

(* ===================================================================== *)
(** * constraint_extractor.py *)
(* ===================================================================== *)

Module Extractor.

(** ** class ConstraintType(str, Enum) *)
Inductive ConstraintType : Type :=
| ASSERTION | NEGATION | IMPLICATION | TEMPORAL | EQUIVALENCE | EXCLUSION.

Definition type_value (t : ConstraintType) : string :=
  match t with
  | ASSERTION => "assertion"
  | NEGATION => "negation"
  | IMPLICATION => "implication"
  | TEMPORAL => "temporal"
  | EQUIVALENCE => "equivalence"
  | EXCLUSION => "exclusion"
  end.

(** [ConstraintType(s)]; [None] stands for the [ValueError]. *)
Definition type_of_value (s : string) : option ConstraintType :=
  List.find (fun t => String.eqb (type_value t) s)
    [ASSERTION; NEGATION; IMPLICATION; TEMPORAL; EQUIVALENCE; EXCLUSION].

Definition type_eqb (a b : ConstraintType) : bool :=
  String.eqb (type_value a) (type_value b).

(** ** class Provenance *)
Record Provenance : Type := {
  doc_id : string;
  doc_title : string;
  paragraph : option Z;
  page : option Z;
  quote : string;
  court : option string;
  date : option string;
  doc_type : option string
}.

(** ** class Constraint *)
Record Constraint : Type := {
  id : string;
  constraint_type : ConstraintType;
  subject : string;
  predicate : option string;
  variables : list string;
  logic_form : string;
  natural_language : string;
  confidence : Q;
  provenance : option Provenance;
  is_hard : bool
}.

(** [Constraint.to_dict()]: [asdict] with the type replaced by its value. *)
Record constraint_dict : Type := {
  d_id : string;
  d_constraint_type : string;
  d_subject : string;
  d_predicate : option string;
  d_variables : list string;
  d_logic_form : string;
  d_natural_language : string;
  d_confidence : Q;
  d_provenance : option Provenance;
  d_is_hard : bool
}.

Definition to_dict (c : Constraint) : constraint_dict :=
  {| d_id := id c;
     d_constraint_type := type_value (constraint_type c);
     d_subject := subject c;
     d_predicate := predicate c;
     d_variables := variables c;
     d_logic_form := logic_form c;
     d_natural_language := natural_language c;
     d_confidence := confidence c;
     d_provenance := provenance c;
     d_is_hard := is_hard c |}.

(** ** A finding

    The entries [_extract_from_finding] reads; [None] is an absent key.
    Where the method tries two spellings of a key both are kept. *)
Record finding : Type := {
  f_quote : option string;
  f_Quote : option string;
  f_document : option string;
  f_Document : option string;
  f_significance : option string;
  f_Significance : option string;
  f_entities : option (list string);
  f_Entities : option (list string);
  f_type : option string;
  f_doc_id : option string;
  f_paragraph : option Z;
  f_page : option Z;
  f_court : option string;
  f_date : option string;
  f_doc_type : option string
}.

(** [d.get(k, d.get(K, dflt))] *)
Definition get2 {A} (k K : option A) (dflt : A) : A :=
  match k with
  | Some v => v
  | None => match K with Some v => v | None => dflt end
  end.

Definition get1 {A} (k : option A) (dflt : A) : A :=
  match k with Some v => v | None => dflt end.

(** ** The completion service

    What one request to the service comes to, as [_llm_extract] sees it. *)

(** An element of the JSON array of the reply: an object whose entries,
    when present, have the types the prompt asks for, or anything else. *)
Record reply_object : Type := {
  r_type : option string;
  r_subject : option string;
  r_predicate : option string;
  r_variables : option (list string);
  r_logic_form : option string;
  r_natural_language : option string;
  r_confidence : option Q;
  r_is_hard : option bool
}.

Inductive reply_item : Type :=
| Obj (o : reply_object)
| NotAnObject.

Inductive llm_reply : Type :=
| Failed                              (* the request or the parsing raised *)
| Items (items : list reply_item).    (* the parsed array *)

(** ** class ConstraintExtractor

    The extractor's counter, and the replies the completion service gives
    to the requests still to come (none left: the request fails). *)
Record world : Type := {
  constraint_counter : nat;
  service : list llm_reply
}.

Definition next_reply (w : world) : llm_reply * world :=
  match service w with
  | [] => (Failed, w)
  | r :: rs => (r, {| constraint_counter := constraint_counter w; service := rs |})
  end.

(** The loop over the parsed array.  The counter moves before each
    constraint is built; an element that makes the construction raise sends
    the method to its [except] clause, which returns [[]]. *)
Fixpoint llm_loop (items : list reply_item) (provenance : Provenance)
    (counter : nat) (constraints : list Constraint) : list Constraint * nat :=
  match items with
  | [] => (constraints, counter)
  | cd :: items' =>
      let counter := S counter in
      match cd with
      | NotAnObject => ([], counter)
      | Obj cd =>
          match type_of_value (get1 (r_type cd) "assertion") with
          | None => ([], counter)
          | Some ty =>
              let c :=
                {| id := "c_" +:+ Text.str_of_nat counter;
                   constraint_type := ty;
                   subject := get1 (r_subject cd) "";
                   predicate := r_predicate cd;
                   variables := get1 (r_variables cd) [];
                   logic_form := get1 (r_logic_form cd) "";
                   natural_language := get1 (r_natural_language cd) "";
                   confidence := get1 (r_confidence cd) (8 # 10);
                   provenance := Some provenance;
                   is_hard := get1 (r_is_hard cd) true |} in
              llm_loop items' provenance counter (constraints ++ [c])
          end
      end
  end.

Definition _llm_extract (quote significance : string) (entities : list string)
    (provenance : Provenance) (w : world) : list Constraint * world :=
  let '(reply, w) := next_reply w in
  match reply with
  | Failed => ([], w)
  | Items constraint_dicts =>
      let '(constraints, counter) :=
        llm_loop constraint_dicts provenance (constraint_counter w) [] in
      (constraints, {| constraint_counter := counter; service := service w |})
  end.

Definition negation_patterns : list string :=
  [ "did not (\w+)"; "never (\w+)"; "didn't (\w+)"; "was not (\w+)";
    "no (\w+) was" ].

Definition assertion_patterns : list string :=
  [ "(\w+) confirmed that"; "(\w+) stated that"; "(\w+) was (\w+)";
    "(\w+) met (\w+)" ].

(** One of the two loops of [_pattern_extract]: [ctype], [truth] and
    [conf] are what the loop writes into each constraint. *)
Fixpoint pattern_loop (ctype : ConstraintType) (truth : string) (conf : Q)
    (patterns : list string) (quote_lower : string) (provenance : Provenance)
    (counter : nat) (constraints : list Constraint) : list Constraint * nat :=
  match patterns with
  | [] => (constraints, counter)
  | pattern :: patterns' =>
      match Re.re_search false (Re.pat pattern) quote_lower with
      | Some m =>
          let counter := S counter in
          let var_name := "fact_" +:+ Text.str_of_nat counter in
          let c :=
            {| id := "c_" +:+ Text.str_of_nat counter;
               constraint_type := ctype;
               subject := Re.group0 m;
               predicate := None;
               variables := [var_name];
               logic_form := var_name +:+ " == " +:+ truth;
               natural_language := Re.group0 m;
               confidence := conf;
               provenance := Some provenance;
               is_hard := true |} in
          pattern_loop ctype truth conf patterns' quote_lower provenance
                       counter (constraints ++ [c])
      | None =>
          pattern_loop ctype truth conf patterns' quote_lower provenance
                       counter constraints
      end
  end.

Definition _pattern_extract (quote : string) (entities : list string)
    (provenance : Provenance) (w : world) : list Constraint * world :=
  let quote_lower := Text.lower quote in
  let '(constraints, counter) :=
    pattern_loop NEGATION "False" (6 # 10) negation_patterns quote_lower
                 provenance (constraint_counter w) [] in
  let '(constraints, counter) :=
    pattern_loop ASSERTION "True" (5 # 10) assertion_patterns quote_lower
                 provenance counter constraints in
  (constraints, {| constraint_counter := counter; service := service w |}).

Definition _extract_from_finding (f : finding) (w : world)
  : list Constraint * world :=
  let quote := get2 (f_quote f) (f_Quote f) "" in
  let document := get2 (f_document f) (f_Document f) "Unknown" in
  let significance := get2 (f_significance f) (f_Significance f) "" in
  let entities := get2 (f_entities f) (f_Entities f) [] in
  if negb (Text.truthy quote) then ([], w)
  else
    let provenance :=
      {| doc_id := get1 (f_doc_id f) "";
         doc_title := document;
         paragraph := f_paragraph f;
         page := f_page f;
         quote := Text.take 500 quote;
         court := f_court f;
         date := f_date f;
         doc_type := f_doc_type f |} in
    let '(constraints, w) :=
      _llm_extract quote significance entities provenance w in
    match constraints with
    | [] => _pattern_extract quote entities provenance w
    | _ => (constraints, w)
    end.

(** The first loop of [extract_constraints]. *)
Fixpoint extract_all (findings : list finding) (constraints : list Constraint)
    (w : world) : list Constraint * world :=
  match findings with
  | [] => (constraints, w)
  | f :: findings' =>
      let '(finding_constraints, w) := _extract_from_finding f w in
      extract_all findings' (constraints ++ finding_constraints) w
  end.

(** The second loop: deduplication by logic form. *)
Fixpoint dedup (constraints : list Constraint) (seen_logic : gset string)
    (unique_constraints : list Constraint) : list Constraint :=
  match constraints with
  | [] => unique_constraints
  | c :: constraints' =>
      if decide (logic_form c ∈ seen_logic)
      then dedup constraints' seen_logic unique_constraints
      else dedup constraints' ({[logic_form c]} ∪ seen_logic)
                 (unique_constraints ++ [c])
  end.

Definition extract_constraints (findings : list finding) (w : world)
  : list Constraint * world :=
  let '(constraints, w) := extract_all findings [] w in
  (dedup constraints ∅ [], w).

End Extractor.

(* ===================================================================== *)
(** * z3_validator.py *)
(* ===================================================================== *)

Module Validator.
Import Authority Extractor.

(** ** Z3 Boolean expressions *)
Inductive z3expr : Type :=
| ZConst (b : bool)
| ZVar (x : string)                 (* [Bool(x)] *)
| ZNot (a : z3expr)
| ZAnd (a b : z3expr)
| ZOr (a b : z3expr)
| ZImplies (a b : z3expr)
| ZIff (a b : z3expr).

Fixpoint interp (m : string -> bool) (e : z3expr) : bool :=
  match e with
  | ZConst b => b
  | ZVar x => m x
  | ZNot a => negb (interp m a)
  | ZAnd a b => interp m a && interp m b
  | ZOr a b => interp m a || interp m b
  | ZImplies a b => implb (interp m a) (interp m b)
  | ZIff a b => Bool.eqb (interp m a) (interp m b)
  end.

Fixpoint vars_of (e : z3expr) : list string :=
  match e with
  | ZConst _ => []
  | ZVar x => [x]
  | ZNot a => vars_of a
  | ZAnd a b | ZOr a b | ZImplies a b | ZIff a b => vars_of a ++ vars_of b
  end.

(** ** What the solver, [eval] and the parser hand back *)

(** The outcome of [solver.check()] on a list of tracked assertions
    [assert_and_track(e, Bool(p))]: a model (read with model completion), an
    unsat core (the names of its tracking constants), no answer, or an
    exception of the bindings. *)
Inductive check_result : Type :=
| Sat (m : string -> bool)
| Unsat (core : list string)
| Unknown
| SolverError.

(** A Python value as far as the validator tells values apart. *)
Inductive pyvalue : Type :=
| VNone
| VExpr (e : z3expr)      (* a Z3 Boolean expression *)
| VOther.                 (* anything else: a [bool], an [int], a function ... *)

Inductive eval_outcome : Type :=
| EvalRaises
| EvalReturns (v : pyvalue).

(** ** Results *)

Inductive status_t : Type := sat | unsat | unknown.

Record ConflictExplanation : Type := {
  constraint_a : constraint_dict;
  constraint_b : constraint_dict;
  conflict_type : string;
  explanation : string;
  authority_resolution : option string;
  resolution_available : bool
}.

Record ValidationResult : Type := {
  satisfiable : bool;
  status : status_t;
  model : option (list (string * bool));
  unsat_core : option (list string);
  v_explanation : string;
  conflicts : option (list ConflictExplanation)
}.

(** The state of a [Z3Validator]: [self.constraint_db] and the cache of
    [self.authority_ranker]. *)
Record vstate : Type := {
  constraint_db : gmap string Constraint;
  court_cache : gmap string AuthorityInfo
}.

Definition with_ranker {A} (m : M (gmap string AuthorityInfo) A) : M vstate A :=
  fun st =>
    let '(r, c) := m (court_cache st) in
    (r, {| constraint_db := constraint_db st; court_cache := c |}).

Definition quote_mark : string := String (ascii_of_nat 34) EmptyString.
Definition newline : string := String (ascii_of_nat 10) EmptyString.

(** ** Explaining conflicts *)

(** An optional attribute of a [Provenance] as a dict entry. *)
Definition entry (o : option string) : pyfield :=
  match o with Some s => Str s | None => PyNone end.

Definition source_of (p : Provenance) : source :=
  {| Authority.doc_title := Str (doc_title p);
     Authority.court := entry (court p);
     Authority.quote := Str (quote p);
     Authority.doc_type := entry (doc_type p);
     src_date := None |}.

Definition title_or_unknown (c : Constraint) : string :=
  match provenance c with Some p => doc_title p | None => "Unknown" end.

Definition classify (c_a c_b : Constraint) : string :=
  if type_eqb (constraint_type c_a) ASSERTION
     && type_eqb (constraint_type c_b) NEGATION
  then "direct_contradiction"
  else if type_eqb (constraint_type c_a) NEGATION
          && type_eqb (constraint_type c_b) ASSERTION
  then "direct_contradiction"
  else if type_eqb (constraint_type c_a) TEMPORAL
          || type_eqb (constraint_type c_b) TEMPORAL
  then "temporal_conflict"
  else "logical_impossibility".

Definition _explain_pair_conflict (c_a c_b : Constraint)
  : M (gmap string AuthorityInfo) ConflictExplanation :=
  (let conflict_type := classify c_a c_b in
   do resolution <-
     match provenance c_a, provenance c_b with
     | Some p_a, Some p_b =>
         do auth_a <- detect_authority (source_of p_a);
         do auth_b <- detect_authority (source_of p_b);
         if negb (level_eqb (level auth_a) (level auth_b)) then
           let a_wins := (value (level auth_a) <? value (level auth_b))%Z in
           let winner := if a_wins then p_a else p_b in
           let loser := if a_wins then p_b else p_a in
           let winner_auth := if a_wins then auth_a else auth_b in
           let loser_auth := if a_wins then auth_b else auth_a in
           ret (Some (name (level winner_auth) +:+ " (" +:+ doc_title winner
                      +:+ ") overrides " +:+ name (level loser_auth)
                      +:+ " (" +:+ doc_title loser +:+ ")"),
                true)
         else ret (None, false)
     | _, _ => ret (None, false)
     end;
   ret {| constraint_a := to_dict c_a;
          constraint_b := to_dict c_b;
          conflict_type := conflict_type;
          explanation :=
            "Conflict between:" +:+ newline
            +:+ "1. " +:+ quote_mark +:+ natural_language c_a +:+ quote_mark
            +:+ " (from " +:+ title_or_unknown c_a +:+ ")" +:+ newline
            +:+ "2. " +:+ quote_mark +:+ natural_language c_b +:+ quote_mark
            +:+ " (from " +:+ title_or_unknown c_b +:+ ")" +:+ newline
            +:+ newline
            +:+ "These statements cannot both be true simultaneously.";
          authority_resolution := fst resolution;
          resolution_available := snd resolution |})%method.

(** The pairs [(l[i], l[j])], [i < j], in the order of the two loops. *)
Fixpoint pairs {A} (l : list A) : list (A * A) :=
  match l with
  | [] => []
  | x :: l' => map (pair x) l' ++ pairs l'
  end.

Definition _explain_conflicts (core_ids : list string)
  : M vstate (list ConflictExplanation) :=
  fun st =>
    let core_constraints :=
      omap (fun cid => constraint_db st !! cid) core_ids in
    match core_constraints with
    | [] => (Ok [], st)
    | [c] =>
        (Ok [ {| constraint_a := to_dict c;
                 constraint_b := to_dict c;
                 conflict_type := "self_contradiction";
                 explanation :=
                   "Constraint " +:+ quote_mark +:+ natural_language c
                   +:+ quote_mark +:+ " is self-contradictory";
                 authority_resolution := None;
                 resolution_available := false |} ], st)
    | _ =>
        with_ranker
          (for_each (fun ab => _explain_pair_conflict (fst ab) (snd ab))
                    (pairs core_constraints)) st
    end.

(** [for c in constraints: self.constraint_db[c.id] = c] *)
Definition store_all (cs : list Constraint) (db : gmap string Constraint)
  : gmap string Constraint :=
  fold_left (fun db c => <[id c := c]> db) cs db.

Definition explain_conflict (unsat_core : list string)
    (constraints : list Constraint) : M vstate (list ConflictExplanation) :=
  fun st =>
    _explain_conflicts unsat_core
      {| constraint_db := store_all constraints (constraint_db st);
         court_cache := court_cache st |}.

(** ** Validation *)

(** [if x not in z3_vars: z3_vars[x] = Bool(x)]; the dict is kept as the
    list of its keys in insertion order. *)
Definition declare (x : string) (z3_vars : list string) : list string :=
  if bool_decide (x ∈ z3_vars) then z3_vars else z3_vars ++ [x].

Definition declare_all (active : list Constraint) : list string :=
  fold_left (fun z3_vars c => fold_left (fun vs x => declare x vs) (variables c) z3_vars)
            active [].

Section Solving.

(** [eval(logic_form, {"__builtins__": {}}, safe_ns)], [safe_ns] being the
    four connectives, [True], [False] and the variables of the given
    table. *)
Variable py_eval : string -> list string -> eval_outcome.

(** [solver.check()] after the given tracked assertions. *)
Variable z3_check : list (string * z3expr) -> check_result.

Definition _parse_logic_to_z3 (logic_form : string) (z3_vars : list string)
  : pyvalue * list string :=
  if negb (Text.truthy logic_form) then (VNone, z3_vars) else
  match Re.re_match false (Re.pat "(\w+)\s*==\s*(True|False)") logic_form with
  | Some eq_match =>
      let var_name := Re.grp 1 eq_match in
      let value := String.eqb (Re.grp 2 eq_match) "True" in
      let z3_vars := declare var_name z3_vars in
      (VExpr (if value then ZVar var_name else ZNot (ZVar var_name)), z3_vars)
  | None =>
  match Re.re_match false (Re.pat "(\w+)\s*!=\s*(True|False)") logic_form with
  | Some neq_match =>
      let var_name := Re.grp 1 neq_match in
      let value := String.eqb (Re.grp 2 neq_match) "True" in
      let z3_vars := declare var_name z3_vars in
      (VExpr (if value then ZNot (ZVar var_name) else ZVar var_name), z3_vars)
  | None =>
  match Re.re_match false (Re.pat "Not\((\w+)\)") logic_form with
  | Some not_match =>
      let var_name := Re.grp 1 not_match in
      let z3_vars := declare var_name z3_vars in
      (VExpr (ZNot (ZVar var_name)), z3_vars)
  | None =>
  match Re.re_match false (Re.pat "And\((\w+),\s*(\w+)\)") logic_form with
  | Some and_match =>
      let var_a := Re.grp 1 and_match in
      let var_b := Re.grp 2 and_match in
      let z3_vars := declare var_b (declare var_a z3_vars) in
      (VExpr (ZAnd (ZVar var_a) (ZVar var_b)), z3_vars)
  | None =>
  match Re.re_match false (Re.pat "Or\((\w+),\s*(\w+)\)") logic_form with
  | Some or_match =>
      let var_a := Re.grp 1 or_match in
      let var_b := Re.grp 2 or_match in
      let z3_vars := declare var_b (declare var_a z3_vars) in
      (VExpr (ZOr (ZVar var_a) (ZVar var_b)), z3_vars)
  | None =>
  match Re.re_match false (Re.pat "Implies\((\w+),\s*(\w+)\)") logic_form with
  | Some implies_match =>
      let var_a := Re.grp 1 implies_match in
      let var_b := Re.grp 2 implies_match in
      let z3_vars := declare var_b (declare var_a z3_vars) in
      (VExpr (ZImplies (ZVar var_a) (ZVar var_b)), z3_vars)
  | None =>
      match py_eval logic_form z3_vars with
      | EvalReturns v => (v, z3_vars)
      | EvalRaises => (VNone, z3_vars)      (* [except Exception] *)
      end
  end end end end end end.

(** The loop that parses and asserts.  [assert_and_track] takes a Z3
    Boolean expression and raises on anything else. *)
Fixpoint assert_all (active : list Constraint) (z3_vars : list string)
    (tracked : list (string * z3expr))
  : result (list (string * z3expr) * list string) :=
  match active with
  | [] => Ok (tracked, z3_vars)
  | c :: active' =>
      let '(z3_expr, z3_vars) := _parse_logic_to_z3 (logic_form c) z3_vars in
      match z3_expr with
      | VNone => assert_all active' z3_vars tracked
      | VExpr e => assert_all active' z3_vars (tracked ++ [(id c, e)])
      | VOther => Raise Z3Exception
      end
  end.

(** [validate_consistency] from "Store constraints for provenance
    lookup" on. *)
Definition validate_active (active_constraints : list Constraint)
  : M vstate ValidationResult :=
  fun st =>
    let st :=
      {| constraint_db := store_all active_constraints (constraint_db st);
         court_cache := court_cache st |} in
    let z3_vars := declare_all active_constraints in
    match assert_all active_constraints z3_vars [] with
    | Raise e => (Raise e, st)
    | Ok (tracked, z3_vars) =>
        match z3_check tracked with
        | Sat m =>
            let var_values := map (fun x => (x, m x)) z3_vars in
            (Ok {| satisfiable := true; status := sat;
                   model := Some var_values;
                   unsat_core := None;
                   v_explanation :=
                     "All constraints are logically consistent";
                   conflicts := None |}, st)
        | Unsat core_ids =>
            (do conflicts <- _explain_conflicts core_ids;
             ret {| satisfiable := false; status := unsat;
                    model := None;
                    unsat_core := Some core_ids;
                    v_explanation :=
                      "Found " +:+ Text.str_of_nat (length core_ids)
                      +:+ " conflicting constraints";
                    conflicts := Some conflicts |})%method st
        | Unknown =>
            (Ok {| satisfiable := false; status := unknown;
                   model := None; unsat_core := None;
                   v_explanation :=
                     "Z3 could not determine satisfiability (timeout or complexity)";
                   conflicts := None |}, st)
        | SolverError => (Raise Z3Exception, st)
        end
    end.

Definition validate_consistency (constraints : list Constraint)
    (include_soft : bool) : M vstate ValidationResult :=
  match constraints with
  | [] =>
      ret {| satisfiable := true; status := sat; model := None;
             unsat_core := None;
             v_explanation := "No constraints to validate";
             conflicts := None |}
  | _ =>
      let active_constraints :=
        List.filter (fun c => include_soft || is_hard c) constraints in
      match active_constraints with
      | [] =>
          ret {| satisfiable := true; status := sat; model := None;
                 unsat_core := None;
                 v_explanation := "No hard constraints to validate";
                 conflicts := None |}
      | _ => validate_active active_constraints
      end
  end.

End Solving.

End Validator.

(* ===================================================================== *)
(** * Contracts of the solver and of [eval], and reference instances *)
(* ===================================================================== *)

Module Contract.
Import Extractor Validator.

(** A model of tracked assertions under the assumptions [core]: the
    assumed tracking constants are true and every assertion holds if its
    tracking constant does.  Tracking constants and variables are Boolean
    constants of one name space. *)
Definition satisfies (core : list string) (ts : list (string * z3expr))
    (m : string -> bool) : bool :=
  forallb m core
  && forallb (fun t => implb (m (fst t)) (interp m (snd t))) ts.

(** What is assumed of the solver. *)
Record solver_contract (z3_check : list (string * z3expr) -> check_result)
  : Prop := {
  (** a model makes every tracking constant and every assertion true *)
  sat_sound : forall ts m,
    z3_check ts = Sat m -> satisfies (map fst ts) ts m = true;
  (** a core is made of tracking constants and has no model *)
  unsat_sound : forall ts core,
    z3_check ts = Unsat core ->
    (forall p, In p core -> In p (map fst ts))
    /\ forall m, satisfies core ts m = false;
  (** propositional problems with distinct tracking constants are decided *)
  decides : forall ts,
    List.NoDup (map fst ts) ->
    (exists m, z3_check ts = Sat m) \/ (exists core, z3_check ts = Unsat core)
}.


(** ** A reference solver: truth tables *)

Definition names_of (ts : list (string * z3expr)) : list string :=
  flat_map (fun t => fst t :: vars_of (snd t)) ts.

Fixpoint assignments (xs : list string) : list (list (string * bool)) :=
  match xs with
  | [] => [[]]
  | x :: xs' =>
      flat_map (fun a => [(x, true) :: a; (x, false) :: a]) (assignments xs')
  end.

Definition as_model (a : list (string * bool)) : string -> bool :=
  fun x =>
    match List.find (fun e => String.eqb (fst e) x) a with
    | Some (_, b) => b
    | None => false
    end.

Definition find_model (core : list string) (ts : list (string * z3expr))
  : option (string -> bool) :=
  option_map as_model
    (List.find (fun a => satisfies core ts (as_model a))
               (assignments (names_of ts))).

(** Core minimisation by deletion: an assumption is dropped when the
    others are still inconsistent. *)
Fixpoint shrink (todo kept : list string) (ts : list (string * z3expr))
  : list string :=
  match todo with
  | [] => kept
  | p :: todo' =>
      match find_model (todo' ++ kept) ts with
      | None => shrink todo' kept ts
      | Some _ => shrink todo' (kept ++ [p]) ts
      end
  end.

Fixpoint distinct (l : list string) : bool :=
  match l with
  | [] => true
  | x :: l' => negb (existsb (String.eqb x) l') && distinct l'
  end.

Definition ref_check (ts : list (string * z3expr)) : check_result :=
  if distinct (map fst ts) then
    match find_model (map fst ts) ts with
    | Some m => Sat m
    | None => Unsat (shrink (map fst ts) [] ts)
    end
  else SolverError.

(** ** A reference [eval]: literals and names

    The expressions made of one literal or one name; every other source
    text is taken to raise. *)
Definition is_identifier (s : string) : bool :=
  match s with
  | EmptyString => false
  | String c s' =>
      negb (Text.is_digit c)
      && forallb Text.is_word (list_ascii_of_string s)
  end.

Definition is_decimal (s : string) : bool :=
  match s with
  | EmptyString => false
  | String c s' =>
      forallb Text.is_digit (list_ascii_of_string s)
      && (negb (Ascii.eqb c "0")
          || forallb (Ascii.eqb "0") (list_ascii_of_string s'))
  end.

Definition keywords : list string :=
  [ "and"; "as"; "assert"; "async"; "await"; "break"; "class"; "continue";
    "def"; "del"; "elif"; "else"; "except"; "finally"; "for"; "from";
    "global"; "if"; "import"; "in"; "is"; "lambda"; "nonlocal"; "not";
    "or"; "pass"; "raise"; "return"; "try"; "while"; "with"; "yield" ].

Definition mem (x : string) (l : list string) : bool :=
  existsb (String.eqb x) l.

Definition ref_eval (src : string) (z3_vars : list string) : eval_outcome :=
  if mem src ["True"; "False"; "__debug__"] then EvalReturns VOther
  else if String.eqb src "None" then EvalReturns VNone
  else if is_decimal src then EvalReturns VOther
  else if is_identifier src && negb (mem src keywords) then
    if mem src z3_vars then EvalReturns (VExpr (ZVar src))
    else if mem src ["And"; "Or"; "Not"; "Implies"] then EvalReturns VOther
    else EvalRaises
  else EvalRaises.

(** The assignment that gives the names [xs] the values [m] gives them. *)
Definition restrict (m : string -> bool) (xs : list string)
  : list (string * bool) := map (fun x => (x, m x)) xs.

End Contract.

(* ===================================================================== *)
(** * Notions used to state the properties *)
(* ===================================================================== *)

Module Spec.
Import Authority Extractor Validator.

(** A source whose four text entries, where present, are strings. *)
Definition well_typed (s : source) : Prop :=
  Authority.doc_title s <> PyNone /\ Authority.court s <> PyNone
  /\ Authority.quote s <> PyNone /\ Authority.doc_type s <> PyNone.

(** The key under which [detect_authority] caches a source. *)
Definition cache_key (s : source) : result string :=
  match get_lower (Authority.doc_title s), get_lower (Authority.court s) with
  | Ok t, Ok c => Ok (t +:+ ":" +:+ c)
  | _, _ => Raise AttributeError
  end.

(** A state of the cache that later calls of [detect_authority] (the only
    writer of the cache) lead to. *)
Inductive later : gmap string AuthorityInfo -> gmap string AuthorityInfo -> Prop :=
| later_now c : later c c
| later_call c c' src : later c c' -> later c (snd (detect_authority src c')).

(** What the cache holds for the source of a constraint. *)
Definition cached_info (c : gmap string AuthorityInfo) (x : cdict)
  : option AuthorityInfo :=
  match cache_key (get_source x) with
  | Ok k => c !! k
  | Raise _ => None
  end.

Definition cached_level (c : gmap string AuthorityInfo) (x : cdict) : Z :=
  match cached_info c x with Some i => value (level i) | None => 0%Z end.

(** Ranked by authority: levels, as cached, never decrease along the list. *)
Definition ranked_by_level (c : gmap string AuthorityInfo) (l : list cdict)
  : Prop :=
  StronglySorted (fun a b => (cached_level c a <= cached_level c b)%Z) l.

(** The level component of a sort key. *)
Definition key_level (k : sort_key) : Z := fst (fst k).

Definition by_level {A} (a b : sort_key * A) : Prop :=
  (key_level (fst a) <= key_level (fst b))%Z.

Definition court_only (court : string) : source :=
  {| Authority.doc_title := Missing; Authority.court := Str court;
     Authority.quote := Missing; Authority.doc_type := Missing; src_date := None |}.

Definition matches_some (patterns : list string) (text : string) : bool :=
  existsb (fun p => Authority.searches true p text) patterns.

Definition supreme_patterns : list string :=
  [ "supreme\s+court\s+of\s+the\s+united\s+states";
    "u\.?\s*s\.?\s+supreme\s+court"; "scotus"; "\d+\s+u\.?\s*s\.?\s+\d+" ].

Definition circuit_patterns : list string :=
  [ "(\d+)(st|nd|rd|th)\s+circuit";
    "court\s+of\s+appeals?\s+for\s+the\s+(\d+)(st|nd|rd|th)\s+circuit";
    "\d+\s+f\.\s*\d*d?\s+\d+" ].

Definition smith_v_jones : source :=
  {| Authority.doc_title := Str "Smith v. Jones"; Authority.court := Str "District Court";
     Authority.quote := Str "the motion is denied"; Authority.doc_type := Str "opinion";
     src_date := None |}.

Definition smith_v_jones_again : source :=
  {| Authority.doc_title := Str "SMITH V. JONES"; Authority.court := Str "district court";
     Authority.quote := Str "scotus held otherwise"; Authority.doc_type := Str "fbi memo";
     src_date := Some "2020" |}.

Definition with_source (title court doc_type : string) : cdict :=
  {| cd_source :=
       Some {| Authority.doc_title := Str title;
               Authority.court := Str court;
               Authority.quote := Missing;
               Authority.doc_type := Str doc_type;
               src_date := None |};
     cd_fields := [("id", title)] |}.

Definition trial_filing : cdict :=
  with_source "Motion to dismiss" "Superior Court of Fulton County" "motion".
Definition supreme_ruling : cdict :=
  with_source "Doe v. Roe" "Supreme Court of the United States" "opinion".
Definition fbi_interview : cdict :=
  with_source "Interview notes" "" "FD-302".

(** Every character of [s] is in the class [p]. *)
Fixpoint all_chars (p : ascii -> bool) (s : string) : bool :=
  match s with
  | EmptyString => true
  | String c s' => p c && all_chars p s'
  end.

(** [s] starts with a character of the class [p]. *)
Definition starts_with (p : ascii -> bool) (s : string) : bool :=
  match s with
  | EmptyString => false
  | String c _ => p c
  end.

(** A non-empty run of word characters. *)
Definition is_word_run (w : string) : bool :=
  Text.truthy w && all_chars Text.is_word w.

(** ** Constraints handed to the validator *)

(** A constraint whose provenance, if it has one, names its court and its
    document type. *)
Definition sourced (c : Extractor.Constraint) : Prop :=
  match Extractor.provenance c with
  | None => True
  | Some p => Extractor.court p <> None /\ Extractor.doc_type p <> None
  end.

(** A constraint with the given id, variables and logic form and nothing
    else: no provenance, and the defaults of the class where it has any. *)
Definition bare (id : string) (variables : list string) (logic_form : string)
  : Extractor.Constraint :=
  {| Extractor.id := id;
     Extractor.constraint_type := Extractor.ASSERTION;
     Extractor.subject := "";
     Extractor.predicate := None;
     Extractor.variables := variables;
     Extractor.logic_form := logic_form;
     Extractor.natural_language := "";
     Extractor.confidence := 8 # 10;
     Extractor.provenance := None;
     Extractor.is_hard := true |}.

(** A validator that has not been used. *)
Definition fresh : Validator.vstate :=
  {| Validator.constraint_db := ∅; Validator.court_cache := ∅ |}.



(** The constraints [validate_consistency] works on. *)
Definition active_of (include_soft : bool) (cs : list Extractor.Constraint)
  : list Extractor.Constraint :=
  List.filter (fun c => include_soft || Extractor.is_hard c) cs.

(** What the parser returns for each constraint in turn, and the variable
    table it leaves. *)
Fixpoint parses (py_eval : string -> list string -> Validator.eval_outcome)
    (active : list Extractor.Constraint) (z3_vars : list string)
  : list (Extractor.Constraint * Validator.pyvalue) * list string :=
  match active with
  | [] => ([], z3_vars)
  | c :: active' =>
      let '(v, z3_vars) :=
        Validator._parse_logic_to_z3 py_eval (Extractor.logic_form c) z3_vars in
      let '(l, z3_vars) := parses py_eval active' z3_vars in
      ((c, v) :: l, z3_vars)
  end.

(** Three constraints: an implication, an equality whose variable is not
    listed, and a bare variable name (which goes through [eval]). *)
Definition three_constraints : list Extractor.Constraint :=
  [ bare "a" ["P"] "Implies(P, Q)"; bare "b" [] "P == True";
    bare "c" ["R"] "R" ].

(** A finding with three cues of the pattern fallback. *)
Definition interview_finding : Extractor.finding :=
  {| Extractor.f_quote :=
       Some "John did not attend. Mary was there and Mary met Bob";
     Extractor.f_Quote := None;
     Extractor.f_document := Some "Interview notes";
     Extractor.f_Document := None;
     Extractor.f_significance := None; Extractor.f_Significance := None;
     Extractor.f_entities := None; Extractor.f_Entities := None;
     Extractor.f_type := None; Extractor.f_doc_id := None;
     Extractor.f_paragraph := None; Extractor.f_page := None;
     Extractor.f_court := None; Extractor.f_date := None;
     Extractor.f_doc_type := Some "FD-302" |}.

(** An extractor whose completion service fails once and then replies
    with an array that holds no object. *)
Definition failing_service : Extractor.world :=
  {| Extractor.constraint_counter := 0;
     Extractor.service :=
       [Extractor.Failed; Extractor.Items [Extractor.NotAnObject]] |}.

(** ** Constraints of the pattern fallback *)

Definition fallback_id (n : nat) : string := "c_" +:+ Text.str_of_nat n.
Definition fallback_var (n : nat) : string := "fact_" +:+ Text.str_of_nat n.
Definition truth_text (b : bool) : string := if b then "True" else "False".

(** The constraint number [n] of the fallback, asserting ([b]) or denying
    its fact. *)
Definition fallback_shape (n : nat) (b : bool) (c : Extractor.Constraint)
  : Prop :=
  Extractor.id c = fallback_id n
  /\ Extractor.variables c = [fallback_var n]
  /\ Extractor.logic_form c = fallback_var n +:+ " == " +:+ truth_text b
  /\ Extractor.is_hard c = true.

(** Constraints of the fallback with strictly increasing numbers, all
    above [lo] and none above [hi]. *)
Inductive fallback_run
  : nat -> list (nat * bool) -> list Extractor.Constraint -> nat -> Prop :=
| run_nil lo hi : lo <= hi -> fallback_run lo [] [] hi
| run_cons lo k b c ks cs hi :
    lo < k -> fallback_shape k b c -> fallback_run k ks cs hi ->
    fallback_run lo ((k, b) :: ks) (c :: cs) hi.

(** A reply of the completion service from which [_llm_extract] gets no
    constraint. *)
Definition barren (r : Extractor.llm_reply) : Prop :=
  match r with
  | Extractor.Failed => True
  | Extractor.Items items =>
      forall prov n, fst (Extractor.llm_loop items prov n []) = []
  end.

(** What the validator asserts for the fallback constraint [(k, b)]. *)
Definition fallback_tracked (kb : nat * bool) : string * Validator.z3expr :=
  (fallback_id (fst kb),
   if snd kb then Validator.ZVar (fallback_var (fst kb))
   else Validator.ZNot (Validator.ZVar (fallback_var (fst kb)))).

(** The assignment that makes the tracking constants and the asserted
    facts of the fallback constraints [ks] true and everything else false. *)
Definition fallback_model (ks : list (nat * bool)) : string -> bool :=
  fun x =>
    existsb (fun kb => String.eqb x (fallback_id (fst kb))) ks
    || existsb (fun kb => snd kb && String.eqb x (fallback_var (fst kb))) ks.

(** The first constraint of a list that has the given logic form. *)
Definition first_with (lf : string) (cs : list Constraint) : option Constraint :=
  List.find (fun d => String.eqb (logic_form d) lf) cs.

(** ** Notions for the further properties of the authority model *)

(** What [detect_authority] builds: never the level UNKNOWN, binding exactly
    up to the district courts, nothing overruled and no date. *)
Definition sound_info (i : AuthorityInfo) : Prop :=
  level i <> UNKNOWN
  /\ binding i = (value (level i) <=? 3)%Z
  /\ overruled i = false
  /\ Authority.date i = None.

(** The sort key of a constraint, from what the cache holds for its source. *)
Definition final_key (c : gmap string AuthorityInfo) (x : cdict) : sort_key :=
  match cached_info c x with
  | Some i =>
      (value (level i), negb (binding i),
       match src_date (get_source x) with Some d => d | None => "9999" end)
  | None => (0%Z, false, "")
  end.

(** [a <= b] on sort keys: not [b < a]. *)
Definition key_le (a b : sort_key) : Prop := key_lt b a = false.

Definition key_eqb (a b : sort_key) : bool :=
  (fst (fst a) =? fst (fst b))%Z
  && Bool.eqb (snd (fst a)) (snd (fst b))
  && String.eqb (snd a) (snd b).

Definition by_key {A} (a b : sort_key * A) : Prop := key_le (fst a) (fst b).

(** The elements of a keyed list whose key is [k], in order. *)
Definition keyed_with {A} (k : sort_key) (l : list (sort_key * A))
  : list (sort_key * A) :=
  List.filter (fun x => key_eqb (fst x) k) l.

(** The elements of a list of constraints whose key is [k], in order. *)
Definition with_key (c : gmap string AuthorityInfo) (k : sort_key)
    (l : list cdict) : list cdict :=
  List.filter (fun x => key_eqb (final_key c x) k) l.

(** A source given by its four texts. *)
Definition source_of_texts (title court quote doc_type : string) : source :=
  {| Authority.doc_title := Str title; Authority.court := Str court;
     Authority.quote := Str quote; Authority.doc_type := Str doc_type;
     src_date := None |}.

(** The sentences [explain_authority] can start with. *)
Definition explanations : list string :=
  [ "Supreme Court decisions are binding on all lower courts";
    "State Supreme Court decisions are authoritative for state law";
    "State Appeals Court decisions are persuasive within the state";
    "Trial court filings are evidence, not precedent";
    "Administrative rulings may guide but don't bind courts";
    "Secondary sources inform but don't create law";
    "Documentary evidence is factual, not legal authority";
    "Authority level could not be determined" ].

End Spec.

(* ===================================================================== *)
(** * Notions for the further properties of the extractor *)
(* ===================================================================== *)

Module ExtractorSpec.
Import Extractor Spec.

(** The quote of a finding, as [_extract_from_finding] reads it. *)
Definition quote_of (f : finding) : string :=
  get2 (f_quote f) (f_Quote f) "".

(** The findings [_extract_from_finding] does not return early on. *)
Definition has_quote (f : finding) : bool := Text.truthy (quote_of f).

(** Constraints numbered [c_k] with strictly increasing [k], all above [lo]
    and none above [hi]. *)
Inductive numbered : nat -> list nat -> list Constraint -> nat -> Prop :=
| numbered_nil lo hi : lo <= hi -> numbered lo [] [] hi
| numbered_cons lo k c ks cs hi :
    lo < k -> id c = fallback_id k -> numbered k ks cs hi ->
    numbered lo (k :: ks) (c :: cs) hi.

(** The provenance [_extract_from_finding] builds. *)
Definition provenance_of (f : finding) : Provenance :=
  {| doc_id := get1 (f_doc_id f) "";
     doc_title := get2 (f_document f) (f_Document f) "Unknown";
     paragraph := f_paragraph f;
     page := f_page f;
     quote := Text.take 500 (quote_of f);
     court := f_court f;
     date := f_date f;
     doc_type := f_doc_type f |}.

(** [piece] occurs in [text]. *)
Definition occurs_in (piece text : string) : Prop :=
  exists before after, text = before +:+ piece +:+ after.

(** An element of a reply from which [_llm_extract] builds a constraint. *)
Definition usable (cd : reply_item) : bool :=
  match cd with
  | NotAnObject => false
  | Obj o =>
      match type_of_value (get1 (r_type o) "assertion") with
      | Some _ => true
      | None => false
      end
  end.

(** The number of elements of a reply before the first that is not usable. *)
Fixpoint usable_prefix (items : list reply_item) : nat :=
  match items with
  | [] => 0
  | cd :: items' => if usable cd then S (usable_prefix items') else 0
  end.

(** The constraint built from an element of a reply: the entries of the
    element, and the defaults of [_llm_extract] for the absent ones. *)
Definition built_from (cd : reply_item) (c : Constraint) : Prop :=
  exists o,
    cd = Obj o
    /\ type_of_value (get1 (r_type o) "assertion") = Some (constraint_type c)
    /\ subject c = get1 (r_subject o) ""
    /\ predicate c = r_predicate o
    /\ variables c = get1 (r_variables o) []
    /\ logic_form c = get1 (r_logic_form o) ""
    /\ natural_language c = get1 (r_natural_language o) ""
    /\ confidence c = get1 (r_confidence o) (8 # 10)
    /\ is_hard c = get1 (r_is_hard o) true.

(** A finding that has only a quote and a document. *)
Definition plain_finding (quote document : string) : finding :=
  {| f_quote := Some quote; f_Quote := None;
     f_document := Some document; f_Document := None;
     f_significance := None; f_Significance := None;
     f_entities := None; f_Entities := None;
     f_type := None; f_doc_id := None;
     f_paragraph := None; f_page := None;
     f_court := None; f_date := None; f_doc_type := None |}.

End ExtractorSpec.

(* ===================================================================== *)
(** * Notions for the further properties of the validator *)
(* ===================================================================== *)

Module ValidatorSpec.
Import Authority Extractor Validator Contract Spec.

(** What [validate_consistency] asserts, from what the parser returned for
    each constraint: the expressions, each tracked by its constraint's id. *)
Definition asserted (parsed : list (Constraint * pyvalue))
  : list (string * z3expr) :=
  omap (fun cv =>
          match snd cv with
          | VExpr e => Some (id (fst cv), e)
          | _ => None
          end) parsed.

(** The parser returned something that cannot be asserted. *)
Definition unassertable (cv : Constraint * pyvalue) : bool :=
  match snd cv with VOther => true | _ => false end.

(** The last constraint of a list that has the given id. *)
Definition stored_as (x : string) (cs : list Constraint) : option Constraint :=
  List.find (fun c => String.eqb (id c) x) (rev cs).

(** The constraints of the database a core names, in the order of the
    core. *)
Definition known (core : list string) (db : gmap string Constraint)
  : list Constraint :=
  omap (fun cid => db !! cid) core.

(** The two sides of an explanation. *)
Definition sides (ce : ConflictExplanation) : constraint_dict * constraint_dict :=
  (constraint_a ce, constraint_b ce).

(** A pair of constraints whose explanation does not need the authority
    model, or whose provenances name court and document type. *)
Definition explainable (a b : Constraint) : Prop :=
  provenance a = None \/ provenance b = None \/ (sourced a /\ sourced b).

End ValidatorSpec.

(* ===================================================================== *)
(** * The logic forms the parser reads without [eval] *)
(* ===================================================================== *)

Module Grammar.
Import Extractor Validator Spec.

(** The six forms of the docstring of [_parse_logic_to_z3] and the
    inequality. *)
Inductive form : Type :=
| Equals (w : string) (b : bool)        (* [w == True], [w == False] *)
| Differs (w : string) (b : bool)       (* [w != True], [w != False] *)
| Negated (w : string)                  (* [Not(w)] *)
| Both (a b : string)                   (* [And(a, b)] *)
| Either (a b : string)                 (* [Or(a, b)] *)
| Entails (a b : string).               (* [Implies(a, b)] *)

(** A form as text, with the white space [sp1] and [sp2] where the patterns
    allow some, followed by [rest]. *)
Definition text_of (f : form) (sp1 sp2 rest : string) : string :=
  match f with
  | Equals w b => w +:+ sp1 +:+ "==" +:+ sp2 +:+ truth_text b +:+ rest
  | Differs w b => w +:+ sp1 +:+ "!=" +:+ sp2 +:+ truth_text b +:+ rest
  | Negated w => "Not(" +:+ w +:+ ")" +:+ rest
  | Both a b => "And(" +:+ a +:+ "," +:+ sp1 +:+ b +:+ ")" +:+ rest
  | Either a b => "Or(" +:+ a +:+ "," +:+ sp1 +:+ b +:+ ")" +:+ rest
  | Entails a b => "Implies(" +:+ a +:+ "," +:+ sp1 +:+ b +:+ ")" +:+ rest
  end.

(** The names of a form, in the order the parser declares them. *)
Definition names (f : form) : list string :=
  match f with
  | Equals w _ | Differs w _ | Negated w => [w]
  | Both a b | Either a b | Entails a b => [a; b]
  end.

(** What a form means. *)
Definition expr_of (f : form) : z3expr :=
  match f with
  | Equals w b => if b then ZVar w else ZNot (ZVar w)
  | Differs w b => if b then ZNot (ZVar w) else ZVar w
  | Negated w => ZNot (ZVar w)
  | Both a b => ZAnd (ZVar a) (ZVar b)
  | Either a b => ZOr (ZVar a) (ZVar b)
  | Entails a b => ZImplies (ZVar a) (ZVar b)
  end.

(** The forms that are not comparisons: the name of a connective and its
    arguments in parentheses. *)
Definition call (f : form) : bool :=
  match f with
  | Equals _ _ | Differs _ _ => false
  | _ => true
  end.

(** The names of the form are non-empty runs of word characters. *)
Definition well_named (f : form) : Prop :=
  Forall (fun w => is_word_run w = true) (names f).

End Grammar.

(* ===================================================================== *)
(** * Notions for the levels the authority model assigns *)
(* ===================================================================== *)

Module AuthoritySpec.
Import Authority.

(** The levels [detect_authority] can compute: the keys of
    [COURT_PATTERNS] and the levels of the document types. *)
Definition assigned : list AuthorityLevel :=
  [SUPREME_COURT; CIRCUIT_COURT; DISTRICT_COURT; TRIAL_COURT;
   WITNESS_STATEMENT].

(** An ASCII text: on these, and only on these, [str.lower()] is the
    character by character [Text.lower]. *)
Definition ascii_text (s : string) : bool :=
  Spec.all_chars (fun c => (Text.code c <? 128)%nat) s.

End AuthoritySpec.

(* ===================================================================== *)
(** * z3_validator.py: the model as facts *)
(* ===================================================================== *)

Module Report.
Import Extractor Validator.

(** An element of the ['sources'] list of a fact. *)
Record fact_source : Type := {
  fs_doc_title : string;
  fs_quote : string;
  fs_constraint : string
}.

(** A fact: the dict [get_model_as_facts] builds for a variable. *)
Record fact : Type := {
  fact_variable : string;
  fact_value : bool;
  fact_natural_language : string;
  fact_sources : list fact_source
}.

(** [str(b)] *)
Definition str_of_bool (b : bool) : string := if b then "True" else "False".

(** [var_name in c.variables] *)
Definition uses (var_name : string) (c : Constraint) : bool :=
  existsb (String.eqb var_name) (variables c).

(** [Z3Validator.get_model_as_facts]; the model is the dict as the list of
    its items. *)
Definition get_model_as_facts (model : list (string * bool))
    (constraints : list Constraint) : list fact :=
  map (fun item =>
         let var_name := fst item in
         let value := snd item in
         let using_constraints := List.filter (uses var_name) constraints in
         {| fact_variable := var_name;
            fact_value := value;
            fact_natural_language := var_name +:+ " is " +:+ str_of_bool value;
            fact_sources :=
              omap (fun c =>
                      match provenance c with
                      | Some p =>
                          Some {| fs_doc_title := doc_title p;
                                  fs_quote := Text.take 200 (quote p);
                                  fs_constraint := natural_language c |}
                      | None => None
                      end) using_constraints |})
      model.

(** The source a constraint with provenance gives a fact. *)
Definition source_from (c : Constraint) (s : fact_source) : Prop :=
  exists p,
    provenance c = Some p
    /\ fs_doc_title s = doc_title p
    /\ fs_quote s = Text.take 200 (quote p)
    /\ fs_constraint s = natural_language c.

End Report.

(* ===================================================================== *)
(** * server.py: constraint dicts back to constraints *)
(* ===================================================================== *)

Module Server.
Import Extractor.

(** An entry of a dict received as JSON: absent, [null], or a value of the
    type [to_dict] gives the entry. *)
Inductive json_entry (A : Type) : Type :=
| Absent
| Null
| Val (a : A).
Arguments Absent {A}.
Arguments Null {A}.
Arguments Val {A} a.

(** [d.get(k)] on an entry whose attribute is [Optional]. *)
Definition get_optional {A} (e : json_entry A) : option A :=
  match e with Val a => Some a | _ => None end.

(** A provenance dict.  The entries that [Provenance] types [str] are
    absent or strings. *)
Record provenance_dict : Type := {
  p_doc_id : option string;
  p_doc_title : option string;
  p_paragraph : json_entry Z;
  p_page : json_entry Z;
  p_quote : option string;
  p_court : json_entry string;
  p_date : json_entry string;
  p_doc_type : json_entry string
}.

Definition present {A} (e : json_entry A) : bool :=
  match e with Absent => false | _ => true end.

Definition is_some {A} (o : option A) : bool :=
  match o with Some _ => true | None => false end.

(** [bool(p)] for a dict: it has a key. *)
Definition nonempty (p : provenance_dict) : bool :=
  is_some (p_doc_id p) || is_some (p_doc_title p) || present (p_paragraph p)
  || present (p_page p) || is_some (p_quote p) || present (p_court p)
  || present (p_date p) || present (p_doc_type p).

(** A constraint dict. *)
Record wire_constraint : Type := {
  w_id : option string;
  w_constraint_type : option string;
  w_subject : option string;
  w_predicate : json_entry string;
  w_variables : option (list string);
  w_logic_form : option string;
  w_natural_language : option string;
  w_confidence : option Q;
  w_provenance : json_entry provenance_dict;
  w_is_hard : option bool
}.

(** The body of the conversion loop of [validate_consistency_tool] and of
    [explain_conflict_tool], which differ in the default id only; [None]
    stands for the [ValueError] of [ConstraintType]. *)
Definition rehydrate (default_id : string) (cd : wire_constraint)
  : option Constraint :=
  let prov :=
    match w_provenance cd with
    | Val p =>
        if nonempty p then
          Some {| doc_id := get1 (p_doc_id p) "";
                  doc_title := get1 (p_doc_title p) "";
                  paragraph := get_optional (p_paragraph p);
                  page := get_optional (p_page p);
                  quote := get1 (p_quote p) "";
                  court := get_optional (p_court p);
                  date := get_optional (p_date p);
                  doc_type := get_optional (p_doc_type p) |}
        else None
    | _ => None
    end in
  match type_of_value (get1 (w_constraint_type cd) "assertion") with
  | None => None
  | Some ty =>
      Some {| id := get1 (w_id cd) default_id;
              constraint_type := ty;
              subject := get1 (w_subject cd) "";
              predicate := get_optional (w_predicate cd);
              variables := get1 (w_variables cd) [];
              logic_form := get1 (w_logic_form cd) "";
              natural_language := get1 (w_natural_language cd) "";
              confidence := get1 (w_confidence cd) (8 # 10);
              provenance := prov;
              is_hard := get1 (w_is_hard cd) true |}
  end.

(** The conversion loop of [validate_consistency_tool]: the default id is
    [c_] and the number of constraints converted so far. *)
Fixpoint convert_numbered (constraints : list wire_constraint)
    (constraint_objects : list Constraint) : option (list Constraint) :=
  match constraints with
  | [] => Some constraint_objects
  | cd :: constraints' =>
      match rehydrate ("c_" +:+ Text.str_of_nat (length constraint_objects)) cd with
      | Some c => convert_numbered constraints' (constraint_objects ++ [c])
      | None => None
      end
  end.

(** The conversion loop of [explain_conflict_tool]: the default id is the
    empty string. *)
Fixpoint convert_plain (constraints : list wire_constraint)
    (constraint_objects : list Constraint) : option (list Constraint) :=
  match constraints with
  | [] => Some constraint_objects
  | cd :: constraints' =>
      match rehydrate "" cd with
      | Some c => convert_plain constraints' (constraint_objects ++ [c])
      | None => None
      end
  end.

(** A dict as [json.dumps] of [to_dict()] writes it and [json.loads] reads
    it back: every key present, [null] for [None]. *)
Definition to_entry {A} (o : option A) : json_entry A :=
  match o with Some a => Val a | None => Null end.

Definition provenance_to_wire (p : Provenance) : provenance_dict :=
  {| p_doc_id := Some (doc_id p);
     p_doc_title := Some (doc_title p);
     p_paragraph := to_entry (paragraph p);
     p_page := to_entry (page p);
     p_quote := Some (quote p);
     p_court := to_entry (court p);
     p_date := to_entry (date p);
     p_doc_type := to_entry (doc_type p) |}.

Definition to_wire (d : constraint_dict) : wire_constraint :=
  {| w_id := Some (d_id d);
     w_constraint_type := Some (d_constraint_type d);
     w_subject := Some (d_subject d);
     w_predicate := to_entry (d_predicate d);
     w_variables := Some (d_variables d);
     w_logic_form := Some (d_logic_form d);
     w_natural_language := Some (d_natural_language d);
     w_confidence := Some (d_confidence d);
     w_provenance := to_entry (option_map provenance_to_wire (d_provenance d));
     w_is_hard := Some (d_is_hard d) |}.

(** A dict whose type, if it has one, is the value of a [ConstraintType]. *)
Definition typed (cd : wire_constraint) : bool :=
  is_some (type_of_value (get1 (w_constraint_type cd) "assertion")).

(** A dict with no entry at all. *)
Definition empty_dict : wire_constraint :=
  {| w_id := None; w_constraint_type := None; w_subject := None;
     w_predicate := Absent; w_variables := None; w_logic_form := None;
     w_natural_language := None; w_confidence := None;
     w_provenance := Absent; w_is_hard := None |}.

End Server.

(* ===================================================================== *)
(** * constraint_extractor.py: the constraints as a Z3 script *)
(* ===================================================================== *)

Module Formatter.
Import Extractor.

(** [s[n:]] *)
Fixpoint after (n : nat) (s : string) : string :=
  match n, s with
  | S k, String _ s' => after k s'
  | _, _ => s
  end.

(** Substitution from left to right of the occurrences of [old] that do
    not overlap: where [occurs prev s] says that an occurrence starts at [s]
    ([prev]: the character before is a word character), [new] is written
    and the occurrence is skipped. *)
Fixpoint substitute (occurs : bool -> string -> bool) (old new : string)
    (prev : bool) (skip : nat) (s : string) : string :=
  match s with
  | EmptyString => EmptyString
  | String c s' =>
      match skip with
      | S k => substitute occurs old new (Text.is_word c) k s'
      | O =>
          if occurs prev s
          then new +:+ substitute occurs old new (Text.is_word c)
                                  (String.length old - 1) s'
          else String c (substitute occurs old new (Text.is_word c) 0 s')
      end
  end.

(** [s.replace(old, new)] for a non-empty [old]. *)
Definition replace (old new s : string) : string :=
  substitute (fun _ t => String.prefix old t) old new false 0 s.

Definition starts_with_word (s : string) : bool :=
  match s with
  | EmptyString => false
  | String c _ => Text.is_word c
  end.

(** [re.sub(r'\bW\b', new, s)] for a word [W] of word characters: an
    occurrence has no word character before it and none after it. *)
Definition sub_word (word new s : string) : string :=
  substitute
    (fun prev t =>
       negb prev && String.prefix word t
       && negb (starts_with_word (after (String.length word) t)))
    word new false 0 s.

Definition _to_z3_expression (logic_form : string) : string :=
  let expr := replace "!=" "!=" (replace "==" "==" logic_form) in
  let expr := sub_word "True" "True" expr in
  let expr := sub_word "False" "False" expr in
  expr.

(** [sorted(all_vars)] is the list of the distinct variables in increasing
    order: the set is kept as that list, a variable being put at its
    place when it is new. *)
Fixpoint add_var (x : string) (l : list string) : list string :=
  match l with
  | [] => [x]
  | y :: l' =>
      match String.compare x y with
      | Lt => x :: l
      | Eq => l
      | Gt => y :: add_var x l'
      end
  end.

Definition sorted_vars (constraints : list Constraint) : list string :=
  fold_left (fun all_vars c => fold_left (fun vs x => add_var x vs)
                                         (variables c) all_vars)
            constraints [].

Definition line_feed : string := String (ascii_of_nat 10) EmptyString.

Definition declaration (var : string) : string :=
  var +:+ " = Bool('" +:+ var +:+ "')".

(** The second loop: two lines for each constraint. *)
Fixpoint constraint_lines (constraints : list Constraint) (lines : list string)
  : result (list string) :=
  match constraints with
  | [] => Ok lines
  | c :: constraints' =>
      let comment :=
        "# " +:+ id c +:+ ": " +:+ Text.take 60 (natural_language c)
        +:+ "..." in
      let lines := lines ++ [comment] in
      let z3_expr := _to_z3_expression (logic_form c) in
      match provenance c with
      | None => Raise AttributeError          (* [c.provenance.doc_title] *)
      | Some p =>
          constraint_lines constraints'
            (lines ++ ["solver.add(" +:+ z3_expr +:+ ")  # From: "
                       +:+ doc_title p])
      end
  end.

Definition format_lines (constraints : list Constraint)
  : result (list string) :=
  let lines := ["from z3 import *"; ""; "# Variable declarations"] in
  let lines := lines ++ map declaration (sorted_vars constraints) in
  let lines := lines ++ [""; "# Constraints"; "solver = Solver()"] in
  match constraint_lines constraints lines with
  | Raise e => Raise e
  | Ok lines =>
      Ok (lines ++ [""; "# Check satisfiability"; "result = solver.check()";
                    "print(f'Result: {result}')"])
  end.

Definition format_for_z3 (constraints : list Constraint) : result string :=
  match format_lines constraints with
  | Raise e => Raise e
  | Ok lines => Ok (String.concat line_feed lines)
  end.

(** The line [format_for_z3] writes for the logic form of a constraint. *)
Definition add_line (c : Constraint) (title : string) : string :=
  "solver.add(" +:+ logic_form c +:+ ")  # From: " +:+ title.

(** Strictly increasing, in the order of [str]. *)
Definition increasing (l : list string) : Prop :=
  StronglySorted (fun a b => String.compare a b = Lt) l.

End Formatter.

(* ===================================================================== *)
(** * Inputs with a None entry, and a validator that has been used *)
(* ===================================================================== *)

Module Cases.
Import Authority Extractor Validator Spec.

(** A constraint whose source has the court [None]: what
    [{'court': p.court, ...}] gives for a provenance without a court. *)
Definition court_none : cdict :=
  {| cd_source :=
       Some {| Authority.doc_title := Str "Poe v. Moe";
               Authority.court := PyNone;
               Authority.quote := Str "the appeal is dismissed";
               Authority.doc_type := Str "opinion";
               src_date := None |};
     cd_fields := [("id", "Poe v. Moe")] |}.

(** Smith v. Jones again, from a provenance without a document type. *)
Definition smith_v_jones_untyped : source :=
  {| Authority.doc_title := Str "SMITH V. JONES";
     Authority.court := Str "district court";
     Authority.quote := Str "the motion is denied";
     Authority.doc_type := PyNone;
     src_date := None |}.

(** Smith v. Jones again, from a dict whose quote is [None]. *)
Definition smith_v_jones_unquoted : source :=
  {| Authority.doc_title := Str "Smith v. Jones";
     Authority.court := Str "District Court";
     Authority.quote := PyNone;
     Authority.doc_type := Str "opinion";
     src_date := None |}.




End Cases.

(* ===================================================================== *)
(** * The reference instances meet the contracts *)
(* ===================================================================== *)

Module ContractFacts.
Import Extractor Validator Contract.


Lemma interp_ext m m' e :
  (forall x, In x (vars_of e) -> m x = m' x) -> interp m e = interp m' e.
Proof.
  induction e; simpl; intros H; auto.
  - rewrite IHe; auto.
  - rewrite IHe1, IHe2; auto; intros; apply H, in_or_app; auto.
  - rewrite IHe1, IHe2; auto; intros; apply H, in_or_app; auto.
  - rewrite IHe1, IHe2; auto; intros; apply H, in_or_app; auto.
  - rewrite IHe1, IHe2; auto; intros; apply H, in_or_app; auto.
Qed.

Lemma forallb_ext_in {A} (f g : A -> bool) l :
  (forall x, In x l -> f x = g x) -> forallb f l = forallb g l.
Proof.
  induction l; simpl; intros H; auto.
  rewrite H, IHl; auto.
Qed.

Lemma in_names_label ts t : In t ts -> In (fst t) (names_of ts).
Proof.
  intros H. unfold names_of. apply in_flat_map. exists t. split; auto.
  left; reflexivity.
Qed.

Lemma in_names_var ts t x :
  In t ts -> In x (vars_of (snd t)) -> In x (names_of ts).
Proof.
  intros H Hx. unfold names_of. apply in_flat_map. exists t. split; auto.
  right; assumption.
Qed.

Lemma satisfies_ext core ts m m' :
  (forall p, In p core -> In p (map fst ts)) ->
  (forall x, In x (names_of ts) -> m x = m' x) ->
  satisfies core ts m = satisfies core ts m'.
Proof.
  intros Hc H. unfold satisfies. f_equal.
  - apply forallb_ext_in. intros p Hp. apply H.
    apply Hc in Hp. apply in_map_iff in Hp as [t [<- Ht]].
    now apply in_names_label.
  - apply forallb_ext_in. intros t Ht.
    rewrite (H (fst t)) by now apply in_names_label.
    f_equal. apply interp_ext. intros x Hx. apply H.
    eapply in_names_var; eauto.
Qed.

Lemma as_model_restrict m xs x :
  In x xs -> as_model (restrict m xs) x = m x.
Proof.
  unfold as_model. induction xs as [|y xs IH]; simpl; [tauto|].
  intros H. destruct (String.eqb_spec y x) as [->|Hne]; [reflexivity|].
  destruct H as [H|H]; [contradiction|]. now apply IH.
Qed.

Lemma restrict_in_assignments m xs : In (restrict m xs) (assignments xs).
Proof.
  induction xs as [|x xs IH]; simpl; [now left|].
  apply in_flat_map. exists (restrict m xs). split; [assumption|].
  simpl. destruct (m x); auto.
Qed.

Lemma find_model_none core ts :
  (forall p, In p core -> In p (map fst ts)) ->
  find_model core ts = None ->
  forall m, satisfies core ts m = false.
Proof.
  intros Hc Hf m. unfold find_model in Hf.
  destruct (List.find _ _) eqn:E; [discriminate|].
  pose proof (find_none _ _ E _ (restrict_in_assignments m (names_of ts))) as Hn.
  simpl in Hn. rewrite <- Hn. apply satisfies_ext; [assumption|].
  intros x Hx. symmetry. now apply as_model_restrict.
Qed.

Lemma find_model_some core ts m :
  find_model core ts = Some m -> satisfies core ts m = true.
Proof.
  unfold find_model. destruct (List.find _ _) eqn:E; simpl; [|discriminate].
  intros [= <-]. now apply find_some in E as [_ E].
Qed.

Lemma find_model_none_iff core ts :
  (forall p, In p core -> In p (map fst ts)) ->
  find_model core ts = None <-> forall m, satisfies core ts m = false.
Proof.
  intros Hc. split; [now apply find_model_none|].
  intros H. destruct (find_model core ts) as [m|] eqn:E; [|reflexivity].
  apply find_model_some in E. rewrite H in E. discriminate.
Qed.

Lemma satisfies_same_core core core' ts m :
  (forall p, In p core <-> In p core') ->
  satisfies core ts m = satisfies core' ts m.
Proof.
  intros H. unfold satisfies. f_equal.
  destruct (forallb m core) eqn:E1, (forallb m core') eqn:E2; auto.
  - rewrite forallb_forall in E1.
    assert (forallb m core' = true); [|congruence].
    apply forallb_forall. intros x Hx. apply E1, H, Hx.
  - rewrite forallb_forall in E2.
    assert (forallb m core = true); [|congruence].
    apply forallb_forall. intros x Hx. apply E2, H, Hx.
Qed.

Lemma shrink_sound ts todo kept :
  (forall p, In p (todo ++ kept) -> In p (map fst ts)) ->
  find_model (todo ++ kept) ts = None ->
  (forall p, In p (shrink todo kept ts) -> In p (map fst ts))
  /\ forall m, satisfies (shrink todo kept ts) ts m = false.
Proof.
  revert kept. induction todo as [|p todo IH]; simpl; intros kept Hc Hn.
  - split; [assumption|]. now apply find_model_none.
  - destruct (find_model (todo ++ kept) ts) eqn:E.
    + apply IH.
      * intros q Hq. apply Hc. rewrite !in_app_iff in Hq. simpl in Hq.
        rewrite in_app_iff. simpl. tauto.
      * apply find_model_none_iff.
        { intros q Hq. apply Hc. rewrite !in_app_iff in Hq. simpl in Hq.
          rewrite in_app_iff. simpl. tauto. }
        intros m'. rewrite <- (find_model_none (p :: todo ++ kept) ts Hc Hn m').
        apply satisfies_same_core. intros q.
        rewrite !in_app_iff. simpl. rewrite in_app_iff. tauto.
    + apply IH; [|assumption].
      intros q Hq. apply Hc. right. assumption.
Qed.

Lemma distinct_NoDup l : distinct l = true -> List.NoDup l.
Proof.
  induction l as [|x l IH]; simpl; intros H; constructor.
  - apply andb_true_iff in H as [H _]. intros Hin.
    apply negb_true_iff in H.
    assert (existsb (String.eqb x) l = true); [|congruence].
    apply existsb_exists. exists x. split; [assumption|apply String.eqb_refl].
  - apply IH. now apply andb_true_iff in H as [_ H].
Qed.

Lemma NoDup_distinct l : List.NoDup l -> distinct l = true.
Proof.
  induction 1 as [|x l Hx _ IH]; simpl; [reflexivity|].
  rewrite IH, andb_true_r. apply negb_true_iff.
  destruct (existsb (String.eqb x) l) eqn:E; [|reflexivity].
  apply existsb_exists in E as [y [Hy E]].
  apply String.eqb_eq in E. subst. contradiction.
Qed.

Lemma ref_check_contract : solver_contract ref_check.
Proof.
  split; unfold ref_check.
  - intros ts m. destruct (distinct _); [|discriminate].
    destruct (find_model _ ts) eqn:E; [|discriminate].
    intros [= <-]. now apply find_model_some.
  - intros ts core. destruct (distinct _); [|discriminate].
    destruct (find_model _ ts) eqn:E; [discriminate|].
    intros [= <-]. apply shrink_sound; rewrite app_nil_r; auto.
  - intros ts Hnd. rewrite (NoDup_distinct _ Hnd).
    destruct (find_model _ ts); eauto.
Qed.



End ContractFacts.

(* ===================================================================== *)
(** * Properties of the authority model *)
(* ===================================================================== *)

Module AuthorityFacts.
Import Authority Spec.

(** Every pattern of the program is in the supported syntax. *)
Lemma patterns_compile :
  forallb (fun p => match Re.compile p with Some _ => true | None => false end)
    (flat_map snd COURT_PATTERNS_display
     ++ Extractor.negation_patterns ++ Extractor.assertion_patterns
     ++ [ "(\w+)\s*==\s*(True|False)"; "(\w+)\s*!=\s*(True|False)";
          "Not\((\w+)\)"; "And\((\w+),\s*(\w+)\)"; "Or\((\w+),\s*(\w+)\)";
          "Implies\((\w+),\s*(\w+)\)" ]) = true.
Proof. vm_compute. reflexivity. Qed.

(** [STATE_SUPREME] is the member [CIRCUIT_COURT], and so on. *)
Lemma aliases :
  attr "STATE_SUPREME" = Some CIRCUIT_COURT
  /\ attr "STATE_APPEALS" = Some DISTRICT_COURT
  /\ attr "DOCUMENT_EVIDENCE" = Some WITNESS_STATEMENT.
Proof. vm_compute. auto. Qed.

(** The circuit-court patterns do not survive the dict display: the entry
    written for [STATE_SUPREME] takes their place. *)
Lemma COURT_PATTERNS_circuit_entry :
  COURT_PATTERNS =
    [ (SUPREME_COURT,
        [ "supreme\s+court\s+of\s+the\s+united\s+states";
          "u\.?\s*s\.?\s+supreme\s+court"; "scotus";
          "\d+\s+u\.?\s*s\.?\s+\d+" ]);
      (CIRCUIT_COURT,
        [ "supreme\s+court\s+of\s+\w+"; "\w+\s+supreme\s+court" ]);
      (DISTRICT_COURT,
        [ "district\s+court"; "u\.?\s*s\.?\s*d\.?\s*c\.?";
          "\d+\s+f\.\s*supp" ]);
      (TRIAL_COURT,
        [ "trial\s+court"; "superior\s+court"; "county\s+court" ]) ].
Proof. reflexivity. Qed.

(** C1, as the code behaves: a court field that matches a circuit-court
    pattern and no Supreme Court pattern ("9th circuit", "123 f.3d 456") is
    given the level of value 7 (WITNESS_STATEMENT, alias DOCUMENT_EVIDENCE),
    not CIRCUIT_COURT. *)
Theorem detect_authority_circuit_court_missed :
  Forall (fun court =>
    matches_some circuit_patterns (Text.lower court) = true
    /\ matches_some supreme_patterns (Text.lower court) = false
    /\ exists info c,
         detect_authority (court_only court) ∅ = (Ok info, c)
         /\ level info = DOCUMENT_EVIDENCE
         /\ value (level info) = 7%Z
         /\ level info <> CIRCUIT_COURT)
    ["9th circuit"; "123 f.3d 456"].
Proof.
  assert (E : forallb (fun court =>
               matches_some circuit_patterns (Text.lower court)
               && negb (matches_some supreme_patterns (Text.lower court))
               && match fst (detect_authority (court_only court) ∅) with
                  | Ok info => level_eqb (level info) DOCUMENT_EVIDENCE
                               && negb (level_eqb (level info) CIRCUIT_COURT)
                  | Raise _ => false
                  end) ["9th circuit"; "123 f.3d 456"] = true)
    by (vm_compute; reflexivity).
  apply List.Forall_forall. intros court Hin.
  rewrite forallb_forall in E. specialize (E court Hin).
  destruct (detect_authority (court_only court) ∅) as [[info|e] c] eqn:D;
    simpl in E; [|rewrite andb_false_r in E; discriminate].
  apply andb_true_iff in E as [E E3]. apply andb_true_iff in E as [E1 E2].
  apply andb_true_iff in E3 as [E3 E4].
  apply negb_true_iff in E2, E4.
  split; [assumption|]. split; [assumption|].
  exists info, c. split; [reflexivity|].
  unfold level_eqb in E3, E4.
  destruct (level info); try discriminate; repeat split; discriminate.
Qed.

(** ** The cache *)

Ltac fields s :=
  destruct s as [t ct q ty d]; destruct t, ct, q, ty;
  unfold detect_authority, cache_key, bind, lift;
  cbn -[detect_uncached String.append lookup insert].

Lemma detect_authority_outcome s c :
  (detect_authority s c = (Raise AttributeError, c) /\ ~ well_typed s)
  \/ (exists k, cache_key s = Ok k /\ well_typed s
        /\ match c !! k with
           | Some i => detect_authority s c = (Ok i, c)
           | None => exists i, detect_authority s c = (Ok i, <[k:=i]> c)
           end).
Proof.
  fields s;
    try (left; split; [reflexivity|]; unfold well_typed; simpl; tauto);
    right; eexists; (split; [reflexivity|]);
    (split; [unfold well_typed; simpl; repeat split; discriminate|]);
    match goal with |- context [c !! ?k] => destruct (c !! k) end;
    eauto.
Qed.

(** A successful call leaves its result in the cache, under the key of
    the source. *)
Lemma detect_authority_stores s c i c' :
  detect_authority s c = (Ok i, c') ->
  well_typed s /\ exists k, cache_key s = Ok k /\ c' !! k = Some i.
Proof.
  intros H. destruct (detect_authority_outcome s c) as [[E _]|[k [K [W E]]]].
  - rewrite E in H. discriminate.
  - split; [assumption|]. exists k. split; [assumption|].
    destruct (c !! k) eqn:L.
    + rewrite E in H. injection H as <- <-. assumption.
    + destruct E as [i' E]. rewrite E in H. injection H as <- <-.
      apply lookup_insert_eq.
Qed.

(** No call overwrites an entry of the cache. *)
Lemma detect_authority_keeps s c k i :
  c !! k = Some i -> snd (detect_authority s c) !! k = Some i.
Proof.
  intros H. destruct (detect_authority_outcome s c) as [[E _]|[k' [K [W E]]]].
  - rewrite E. assumption.
  - destruct (c !! k') eqn:L.
    + rewrite E. assumption.
    + destruct E as [i' E]. rewrite E. simpl.
      rewrite lookup_insert_ne; [assumption|]. congruence.
Qed.

Lemma later_keeps c c' k i : later c c' -> c !! k = Some i -> c' !! k = Some i.
Proof.
  induction 1; intros L; [assumption|].
  apply detect_authority_keeps. auto.
Qed.

(** A call whose key is in the cache returns the cached value. *)
Lemma detect_authority_hit s c k i :
  well_typed s -> cache_key s = Ok k -> c !! k = Some i ->
  detect_authority s c = (Ok i, c).
Proof.
  intros W K L. destruct (detect_authority_outcome s c) as [[_ N]|[k' [K' [_ E]]]].
  - contradiction.
  - rewrite K in K'. injection K' as <-. rewrite L in E. assumption.
Qed.

(** Once a call of detect_authority has returned, every later call on
    the same ranker with the same lower-cased doc_title and court, and with
    a quote and a doc_type that are not None, returns the same AuthorityInfo
    and leaves the cache as it is. *)
Theorem detect_authority_idempotent s1 s2 c0 c1 c2 i1 :
  detect_authority s1 c0 = (Ok i1, c1) ->
  later c1 c2 ->
  get_lower (doc_title s2) = get_lower (doc_title s1) ->
  get_lower (court s2) = get_lower (court s1) ->
  quote s2 <> PyNone -> doc_type s2 <> PyNone ->
  detect_authority s2 c2 = (Ok i1, c2).
Proof.
  intros D L Et Ec Hq Hty.
  apply detect_authority_stores in D as [W1 [k [K H]]].
  apply (later_keeps _ _ _ _ L) in H.
  apply (detect_authority_hit s2 c2 k); [| |assumption].
  - destruct W1 as [Wt [Wc _]]. repeat split; try assumption.
    + intros E. rewrite E in Et. destruct (doc_title s1); try discriminate.
      contradiction.
    + intros E. rewrite E in Ec. destruct (court s1); try discriminate.
      contradiction.
  - unfold cache_key in *. rewrite Et, Ec. assumption.
Qed.

Lemma detect_authority_idempotent_witness :
  exists i1 c1,
    let c2 := snd (detect_authority (court_only "9th circuit") c1) in
    detect_authority smith_v_jones ∅ = (Ok i1, c1)
    /\ later c1 c2
    /\ get_lower (doc_title smith_v_jones_again)
       = get_lower (doc_title smith_v_jones)
    /\ get_lower (court smith_v_jones_again) = get_lower (court smith_v_jones)
    /\ quote smith_v_jones_again <> PyNone
    /\ doc_type smith_v_jones_again <> PyNone
    /\ detect_authority smith_v_jones_again c2 = (Ok i1, c2).
Proof.
  destruct (detect_authority_outcome smith_v_jones ∅)
    as [[_ N]|[k [_ [_ E]]]].
  - exfalso. apply N. repeat split; discriminate.
  - rewrite lookup_empty in E. destruct E as [i1 E].
    exists i1, (<[k:=i1]> ∅). cbv zeta.
    assert (L : later (<[k:=i1]> ∅)
                  (snd (detect_authority (court_only "9th circuit")
                          (<[k:=i1]> ∅))))
      by apply later_call, later_now.
    assert (Hq : quote smith_v_jones_again <> PyNone) by discriminate.
    assert (Hd : doc_type smith_v_jones_again <> PyNone) by discriminate.
    repeat (split; [first [assumption | reflexivity]|]).
    exact (detect_authority_idempotent smith_v_jones smith_v_jones_again
             ∅ (<[k:=i1]> ∅) _ i1 E L eq_refl eq_refl Hq Hd).
Defined.

(** ** Ranking *)

Lemma key_lt_level a b : key_lt a b = true -> (key_level a <= key_level b)%Z.
Proof.
  destruct a as [[la na] da], b as [[lb nb] db]. unfold key_lt, key_level.
  simpl. destruct (Z.ltb_spec la lb); [lia|].
  destruct (Z.ltb_spec lb la); [discriminate|lia].
Qed.

Lemma key_nlt_level a b : key_lt a b = false -> (key_level b <= key_level a)%Z.
Proof.
  destruct a as [[la na] da], b as [[lb nb] db]. unfold key_lt, key_level.
  simpl. destruct (Z.ltb_spec la lb); [discriminate|]. lia.
Qed.

Section Sorting.
Context {A : Type}.

Lemma insert_by_key_perm (x : sort_key * A) l :
  Permutation (x :: l) (insert_by_key x l).
Proof.
  induction l as [|y l IH]; simpl; [reflexivity|].
  destruct (key_lt (fst x) (fst y)); [reflexivity|].
  rewrite perm_swap. now apply perm_skip.
Qed.

Lemma sort_from_perm (l acc : list (sort_key * A)) :
  Permutation (acc ++ l) (fold_left (fun acc x => insert_by_key x acc) l acc).
Proof.
  revert acc. induction l as [|x l IH]; intros acc; simpl.
  - now rewrite app_nil_r.
  - rewrite <- IH. rewrite <- insert_by_key_perm. simpl.
    symmetry. apply Permutation_middle.
Qed.

Lemma sort_by_key_perm (l : list (sort_key * A)) :
  Permutation l (sort_by_key l).
Proof. apply (sort_from_perm l []). Qed.

Lemma insert_by_key_sorted (x : sort_key * A) l :
  StronglySorted by_level l -> StronglySorted by_level (insert_by_key x l).
Proof.
  induction 1 as [|y l Hl IH Hy]; simpl.
  - constructor; constructor.
  - destruct (key_lt (fst x) (fst y)) eqn:E.
    + apply key_lt_level in E. constructor; [now constructor|].
      constructor; [assumption|].
      eapply List.Forall_impl; [|exact Hy].
      intros z Hz. unfold by_level in *. lia.
    + apply key_nlt_level in E. constructor; [assumption|].
      eapply Permutation_Forall; [apply insert_by_key_perm|].
      constructor; assumption.
Qed.

Lemma sort_from_sorted (l acc : list (sort_key * A)) :
  StronglySorted by_level acc ->
  StronglySorted by_level (fold_left (fun acc x => insert_by_key x acc) l acc).
Proof.
  revert acc. induction l as [|x l IH]; intros acc H; simpl; [assumption|].
  apply IH. now apply insert_by_key_sorted.
Qed.

Lemma sort_by_key_sorted (l : list (sort_key * A)) :
  StronglySorted by_level (sort_by_key l).
Proof. apply sort_from_sorted. constructor. Qed.
End Sorting.

Lemma sorted_first_last {A} (R : A -> A -> Prop) (l : list A) d :
  (forall a, R a a) -> StronglySorted R l -> l <> [] ->
  R (List.hd d l) (List.last l d).
Proof.
  intros Hr Hs Hne. destruct Hs as [|x l Hs Hx]; [contradiction|].
  simpl List.hd. destruct l as [|y l]; [apply Hr|].
  rewrite List.Forall_forall in Hx. apply Hx.
  change (In (List.last (y :: l) d) (y :: l)).
  clear. revert y. induction l as [|z l IH]; intros y; [now left|].
  right. apply IH.
Qed.

Lemma cached_info_later c c' x i :
  later c c' -> cached_info c x = Some i -> cached_info c' x = Some i.
Proof.
  unfold cached_info. intros L.
  destruct (cache_key (get_source x)); [|discriminate].
  now apply later_keeps.
Qed.

Lemma later_trans c1 c2 c3 : later c1 c2 -> later c2 c3 -> later c1 c3.
Proof. intros H12 H23. induction H23; [assumption|]. constructor; auto. Qed.

(** A call on a well-typed source returns, and what it returns is then in
    the cache. *)
Lemma detect_authority_returns s c :
  well_typed s ->
  exists i c1, detect_authority s c = (Ok i, c1) /\ later c c1
               /\ exists k, cache_key s = Ok k /\ c1 !! k = Some i.
Proof.
  intros W.
  destruct (detect_authority s c) as [r c1] eqn:D.
  pose proof (later_call c c s (later_now c)) as L. rewrite D in L.
  simpl in L. destruct r as [i|e].
  - exists i, c1. split; [reflexivity|]. split; [assumption|].
    now apply detect_authority_stores in D as [_ D].
  - destruct (detect_authority_outcome s c) as [[_ N]|[k [_ [_ E]]]];
      [contradiction|].
    destruct (c !! k); [|destruct E as [? E]]; rewrite E in D; discriminate.
Qed.

Lemma keyed_constraint_returns x c :
  well_typed (get_source x) ->
  exists key i c1,
    keyed_constraint x c = (Ok (key, x), c1) /\ later c c1
    /\ cached_info c1 x = Some i /\ key_level key = value (level i).
Proof.
  intros W. destruct (detect_authority_returns _ c W)
    as [i [c1 [D [L [k [K S]]]]]].
  eexists _, i, c1. unfold keyed_constraint, get_authority_key, bind, ret.
  rewrite D. split; [reflexivity|]. split; [assumption|].
  split; [|reflexivity]. unfold cached_info. rewrite K. assumption.
Qed.

(** The keys of well-typed constraints: every key is computed, and its
    level is the one the cache holds at the end. *)
Lemma keys_computed cs c :
  Forall (fun x => well_typed (get_source x)) cs ->
  exists keyed c',
    for_each keyed_constraint cs c = (Ok keyed, c')
    /\ map snd keyed = cs
    /\ later c c'
    /\ Forall (fun kx => exists i, cached_info c' (snd kx) = Some i
                         /\ key_level (fst kx) = value (level i)) keyed.
Proof.
  intros H. revert c. induction H as [|x cs Hx _ IH]; intros c.
  - exists [], c. repeat split; constructor.
  - destruct (keyed_constraint_returns x c Hx) as [key [i [c1 [E [L [Ci Kl]]]]]].
    destruct (IH c1) as [keyed [c' [F [Hm [L' Hk]]]]].
    exists ((key, x) :: keyed), c'. split; [|split; [|split]].
    + simpl. unfold bind at 1. rewrite E. unfold bind at 1. rewrite F.
      reflexivity.
    + simpl. now rewrite Hm.
    + eapply later_trans; eassumption.
    + constructor; [|assumption]. exists i. split; [|assumption].
      simpl. eapply cached_info_later; eassumption.
Qed.

Lemma sorted_by_cached_level c (l : list (sort_key * cdict)) :
  Forall (fun kx => exists i, cached_info c (snd kx) = Some i
                    /\ key_level (fst kx) = value (level i)) l ->
  StronglySorted by_level l -> ranked_by_level c (map snd l).
Proof.
  intros F S. unfold ranked_by_level. induction S as [|kx l S IH Hx]; simpl.
  - constructor.
  - inversion F as [|? ? [i [Ci Ki]] F']; subst.
    constructor; [now apply IH|].
    rewrite List.Forall_forall in *. intros y Hy.
    apply in_map_iff in Hy as [ky [<- Hy]].
    destruct (F' _ Hy) as [j [Cj Kj]]. specialize (Hx _ Hy).
    unfold cached_level, by_level in *. rewrite Ci, Cj. lia.
Qed.

(** [rank_constraints] on well-typed constraints: the outcome is a
    permutation of the input, ranked by level, and every source is cached. *)
Lemma rank_constraints_ranks cs c :
  Forall (fun x => well_typed (get_source x)) cs ->
  exists ranked c',
    rank_constraints cs c = (Ok ranked, c')
    /\ Permutation cs ranked
    /\ ranked_by_level c' ranked
    /\ Forall (fun x => well_typed (get_source x)
                        /\ exists i, cached_info c' x = Some i) ranked.
Proof.
  intros W. destruct (keys_computed cs c W) as [keyed [c' [E [Hm [L Hk]]]]].
  exists (map snd (sort_by_key keyed)), c'.
  pose proof (sort_by_key_perm keyed) as P.
  split; [|split; [|split]].
  - unfold rank_constraints, bind, ret. rewrite E. reflexivity.
  - rewrite <- Hm. now apply Permutation_map.
  - apply sorted_by_cached_level; [|apply sort_by_key_sorted].
    eapply Permutation_Forall; eassumption.
  - assert (Pm : Permutation cs (map snd (sort_by_key keyed)))
      by (rewrite <- Hm; now apply Permutation_map).
    rewrite List.Forall_forall in *. intros x Hx. split.
    + apply W. eapply Permutation_in; [symmetry; exact Pm|assumption].
    + apply in_map_iff in Hx as [kx [<- Hx]].
      destruct (Hk kx) as [i [Ci _]]; [|eauto].
      eapply Permutation_in; [symmetry; exact P|assumption].
Qed.

Lemma detect_authority_cached c x i :
  well_typed (get_source x) -> cached_info c x = Some i ->
  detect_authority (get_source x) c = (Ok i, c).
Proof.
  intros W Ci. unfold cached_info in Ci.
  destruct (cache_key (get_source x)) as [k|] eqn:K; [|discriminate].
  now apply (detect_authority_hit _ _ k).
Qed.

Lemma hierarchy_returns c l :
  Forall (fun x => well_typed (get_source x)
                   /\ exists i, cached_info c x = Some i) l ->
  exists h, for_each named_level l c = (Ok h, c).
Proof.
  induction 1 as [|x l [W [i Ci]] _ [h IH]].
  - exists []. reflexivity.
  - eexists. simpl. unfold bind at 1. unfold named_level at 1.
    unfold bind at 1. rewrite (detect_authority_cached c x i W Ci).
    unfold ret at 1. unfold bind at 1. rewrite IH. reflexivity.
Qed.

Lemma hd_in {A} (l : list A) d : l <> [] -> In (List.hd d l) l.
Proof. destruct l; [contradiction|]. intros _. now left. Qed.

Lemma last_in {A} (l : list A) d : l <> [] -> In (List.last l d) l.
Proof.
  destruct l as [|x l]; [contradiction|]. intros _. revert x.
  induction l as [|y l IH]; intros x; [now left|]. right. apply IH.
Qed.

(** Where no source has a None entry: resolve_conflict on no constraint
    is unresolved for want of constraints; on one constraint that
    constraint wins; on two or more the constraints are ranked by
    authority and the first and last of the ranking are compared: with
    different levels the first wins, its level is the higher authority
    (the smaller value) and the reason names both levels; with equal
    levels the conflict is unresolved for that reason and the whole
    ranking is handed back. *)
Theorem resolve_conflict_cases cs c :
  Forall (fun x => well_typed (get_source x)) cs ->
  match cs with
  | [] =>
      resolve_conflict cs c =
        (Ok {| resolved := false; reason := "No constraints provided";
               winner := None; loser := None; constraints := None;
               recommendation := None; authority_hierarchy := None |}, c)
  | [x] =>
      resolve_conflict cs c =
        (Ok {| resolved := true; reason := "Only one constraint";
               winner := Some x; loser := None; constraints := None;
               recommendation := None; authority_hierarchy := None |}, c)
  | x :: _ =>
      exists ranked c' wa la r,
        let top := List.hd x ranked in
        let bottom := List.last ranked x in
        rank_constraints cs c = (Ok ranked, c')
        /\ Permutation cs ranked
        /\ ranked_by_level c' ranked
        /\ cached_info c' top = Some wa
        /\ cached_info c' bottom = Some la
        /\ resolve_conflict cs c = (Ok r, c')
        /\ if level_eqb (level wa) (level la) then
             resolved r = false
             /\ reason r = "Same authority level (" +:+ name (level wa) +:+ ")"
             /\ recommendation r
                = Some "Manual review required - same authority level"
             /\ constraints r = Some ranked
             /\ winner r = None
           else
             resolved r = true
             /\ winner r = Some top
             /\ loser r = Some bottom
             /\ (value (level wa) < value (level la))%Z
             /\ reason r = name (level wa) +:+ " (" +:+ court_name wa
                           +:+ ") overrides " +:+ name (level la)
                           +:+ " (" +:+ court_name la +:+ ")"
  end.
Proof.
  intros W. destruct cs as [|x [|y cs]]; [reflexivity|reflexivity|].
  destruct (rank_constraints_ranks _ c W) as [ranked [c' [E [P [S F]]]]].
  assert (Hne : ranked <> []).
  { intros ->. apply Permutation_sym, Permutation_nil in P. discriminate. }
  rewrite List.Forall_forall in F.
  destruct (F _ (hd_in ranked x Hne)) as [Wt [wa Ct]].
  destruct (F _ (last_in ranked x Hne)) as [Wb [la Cb]].
  assert (Hle : (value (level wa) <= value (level la))%Z).
  { pose proof (sorted_first_last _ ranked x
                  (fun a => Z.le_refl (cached_level c' a)) S Hne) as H.
    unfold cached_level in H. now rewrite Ct, Cb in H. }
  pose proof (hierarchy_returns c' ranked) as [h Hh].
  { apply List.Forall_forall. exact F. }
  exists ranked, c', wa, la.
  destruct (level_eqb (level wa) (level la)) eqn:Q.
  - eexists. cbv zeta. repeat (split; [eassumption|]).
    split.
    + unfold resolve_conflict, bind at 1. rewrite E.
      unfold bind at 1.
      rewrite (detect_authority_cached c' _ wa Wt Ct).
      unfold bind at 1.
      rewrite (detect_authority_cached c' _ la Wb Cb).
      rewrite Q. reflexivity.
    + repeat split; reflexivity.
  - eexists. cbv zeta. repeat (split; [eassumption|]).
    split.
    + unfold resolve_conflict, bind at 1. rewrite E.
      unfold bind at 1.
      rewrite (detect_authority_cached c' _ wa Wt Ct).
      unfold bind at 1.
      rewrite (detect_authority_cached c' _ la Wb Cb).
      rewrite Q. unfold bind at 1. rewrite Hh. reflexivity.
    + unfold level_eqb in Q. apply Z.eqb_neq in Q.
      repeat split; try reflexivity. simpl. lia.
Qed.

Lemma resolve_conflict_cases_witness :
  Forall (fun x => well_typed (get_source x))
         [trial_filing; supreme_ruling; fbi_interview]
  /\ exists ranked c' wa la r,
    rank_constraints [trial_filing; supreme_ruling; fbi_interview] ∅
      = (Ok ranked, c')
    /\ Permutation [trial_filing; supreme_ruling; fbi_interview] ranked
    /\ ranked_by_level c' ranked
    /\ cached_info c' (List.hd trial_filing ranked) = Some wa
    /\ cached_info c' (List.last ranked trial_filing) = Some la
    /\ resolve_conflict [trial_filing; supreme_ruling; fbi_interview] ∅
       = (Ok r, c')
    /\ if level_eqb (level wa) (level la) then
         resolved r = false
         /\ reason r = "Same authority level (" +:+ name (level wa) +:+ ")"
         /\ recommendation r
            = Some "Manual review required - same authority level"
         /\ constraints r = Some ranked
         /\ winner r = None
       else
         resolved r = true
         /\ winner r = Some (List.hd trial_filing ranked)
         /\ loser r = Some (List.last ranked trial_filing)
         /\ (value (level wa) < value (level la))%Z
         /\ reason r = name (level wa) +:+ " (" +:+ court_name wa
                       +:+ ") overrides " +:+ name (level la)
                       +:+ " (" +:+ court_name la +:+ ")".
Proof.
  assert (W : Forall (fun x => well_typed (get_source x))
                     [trial_filing; supreme_ruling; fbi_interview])
    by (repeat constructor; discriminate).
  split; [exact W|].
  exact (resolve_conflict_cases
           [trial_filing; supreme_ruling; fbi_interview] ∅ W).
Defined.

End AuthorityFacts.

(* ===================================================================== *)
(** * Properties of texts and of matching *)
(* ===================================================================== *)

Module TextFacts.
Import Spec.

Lemma length_append a b :
  String.length (a +:+ b) = String.length a + String.length b.
Proof. induction a; simpl; [reflexivity|]. now rewrite IHa. Qed.

Lemma substring_prefix w rest :
  String.substring 0 (String.length w) (w +:+ rest) = w.
Proof.
  induction w as [|c w IH]; simpl.
  - destruct rest; reflexivity.
  - now rewrite IH.
Qed.

Lemma consumed_app w rest : Re.consumed (w +:+ rest) rest = w.
Proof.
  unfold Re.consumed. rewrite length_append.
  replace (String.length w + String.length rest - String.length rest)
    with (String.length w) by lia.
  apply substring_prefix.
Qed.

Lemma all_chars_app p a b :
  all_chars p (a +:+ b) = all_chars p a && all_chars p b.
Proof.
  induction a as [|c a IH]; simpl; [reflexivity|].
  now rewrite IH, andb_assoc.
Qed.

(** ** Decimal numerals *)

Lemma digits_of_uint d :
  all_chars Text.is_digit (NilEmpty.string_of_uint d) = true.
Proof. induction d; simpl; auto. Qed.

Lemma str_of_nat_digits n : all_chars Text.is_digit (Text.str_of_nat n) = true.
Proof. apply digits_of_uint. Qed.

Lemma str_of_nat_inj n m : Text.str_of_nat n = Text.str_of_nat m -> n = m.
Proof.
  unfold Text.str_of_nat. intros H.
  assert (E : Nat.to_uint n = Nat.to_uint m).
  { apply (f_equal NilEmpty.uint_of_string) in H.
    rewrite !NilEmpty.usu in H. now injection H. }
  apply (f_equal Nat.of_uint) in E.
  now rewrite !DecimalNat.Unsigned.of_to in E.
Qed.

Lemma digit_is_word c : Text.is_digit c = true -> Text.is_word c = true.
Proof.
  unfold Text.is_word. intros ->. now rewrite orb_true_r.
Qed.

Lemma all_chars_impl (p q : ascii -> bool) s :
  (forall c, p c = true -> q c = true) ->
  all_chars p s = true -> all_chars q s = true.
Proof.
  intros H. induction s as [|c s IH]; simpl; [reflexivity|].
  intros E. apply andb_true_iff in E as [E1 E2].
  now rewrite (H _ E1), IH.
Qed.

Lemma fallback_var_word n : is_word_run (fallback_var n) = true.
Proof.
  unfold is_word_run, fallback_var. simpl.
  apply (all_chars_impl Text.is_digit); [apply digit_is_word|].
  apply str_of_nat_digits.
Qed.

Lemma fallback_var_inj n m : fallback_var n = fallback_var m -> n = m.
Proof.
  unfold fallback_var. simpl. intros H. injection H as H.
  now apply str_of_nat_inj.
Qed.

Lemma fallback_id_inj n m : fallback_id n = fallback_id m -> n = m.
Proof.
  unfold fallback_id. simpl. intros H. injection H as H.
  now apply str_of_nat_inj.
Qed.

Lemma fallback_var_not_id n m : fallback_var n <> fallback_id m.
Proof. unfold fallback_var, fallback_id. simpl. discriminate. Qed.

(** ** Greedy runs of word characters *)

Section Runs.
Context {A : Type}.
Implicit Types (k : @Re.cont A) (g : Re.caps).

(** [\w*] in front of a run of word characters that something else
    follows takes the whole run first. *)
Lemma star_word_run ic w rest g k n x :
  all_chars Text.is_word w = true ->
  starts_with Text.is_word rest = false ->
  String.length w <= n ->
  k rest g = Some x ->
  Re.star_loop (fun s0 g0 k0 => Re.rmatch ic (Re.Cls Re.Word) s0 g0 k0)
               k n (w +:+ rest) g = Some x.
Proof.
  intros Hw Hr. revert n. induction w as [|c w IH]; intros n Hn Hk.
  - simpl. destruct n as [|n]; simpl; [assumption|].
    destruct rest as [|c r]; [assumption|].
    simpl in Hr. simpl. now rewrite Hr.
  - simpl in Hw. apply andb_true_iff in Hw as [Hc Hw].
    destruct n as [|n]; [simpl in Hn; lia|].
    simpl. rewrite Hc.
    assert (L : Nat.ltb (String.length (w +:+ rest))
                        (S (String.length (w +:+ rest))) = true)
      by (apply Nat.ltb_lt; lia).
    rewrite L. rewrite IH; [reflexivity|assumption|simpl in Hn; lia|assumption].
Qed.

(** A group [(\w+)] in front of such a run captures the run. *)
Lemma group_word_run ic i r w rest g k x :
  is_word_run w = true ->
  starts_with Text.is_word rest = false ->
  Re.rmatch ic r rest ((i, w) :: g) k = Some x ->
  Re.rmatch ic (Re.Seq (Re.Grp i (Re.plus (Re.Cls Re.Word))) r)
            (w +:+ rest) g k = Some x.
Proof.
  unfold is_word_run. intros Hw Hr Hk.
  destruct w as [|c w]; [discriminate|]. simpl in Hw.
  apply andb_true_iff in Hw as [Hc Hw].
  simpl. rewrite Hc.
  apply (star_word_run ic w rest g); try assumption; [rewrite length_append; lia|].
  change (String c (w +:+ rest)) with (String c w +:+ rest).
  now rewrite consumed_app.
Qed.
End Runs.

(** The first pattern of the parser on [w == True] and [w == False]. *)
Lemma eq_pattern_matches w b :
  is_word_run w = true ->
  exists g0,
    Re.re_match false (Re.pat "(\w+)\s*==\s*(True|False)")
                (w +:+ " == " +:+ truth_text b)
    = Some {| Re.group0 := g0; Re.groups := [(2, truth_text b); (1, w)] |}.
Proof.
  intros Hw. exists (Re.consumed (w +:+ " == " +:+ truth_text b) "").
  unfold Re.re_match.
  match goal with |- Re.rmatch _ ?r _ _ _ = _ =>
    let r' := eval vm_compute in r in change r with r' end.
  apply group_word_run; [assumption|destruct b; reflexivity|].
  destruct b; reflexivity.
Qed.

End TextFacts.

(* ===================================================================== *)
(** * Properties of the extractor *)
(* ===================================================================== *)

Module ExtractorFacts.
Import Extractor Spec.

Lemma dedup_app cs seen uniq :
  dedup cs seen uniq = uniq ++ dedup cs seen [].
Proof.
  revert seen uniq. induction cs as [|c cs IH]; intros seen uniq; simpl.
  - now rewrite app_nil_r.
  - destruct (decide (logic_form c ∈ seen)); [apply IH|].
    rewrite IH. rewrite (IH _ ([] ++ [c])). now rewrite app_assoc.
Qed.

Lemma dedup_cons c cs seen :
  dedup (c :: cs) seen [] =
    if decide (logic_form c ∈ seen) then dedup cs seen []
    else c :: dedup cs ({[logic_form c]} ∪ seen) [].
Proof.
  simpl. destruct (decide (logic_form c ∈ seen)); [reflexivity|].
  now rewrite dedup_app.
Qed.

Lemma dedup_unseen cs seen d :
  In d (dedup cs seen []) -> (logic_form d ∉ seen) /\ In d cs.
Proof.
  revert seen. induction cs as [|c cs IH]; intros seen; [intros []|].
  rewrite dedup_cons. destruct (decide (logic_form c ∈ seen)) as [Hs|Hs].
  - intros H. apply IH in H as [H1 H2]. split; [assumption|now right].
  - intros [<-|H]; [split; [assumption|now left]|].
    apply IH in H as [H1 H2]. split; [|now right].
    intros Hin. apply H1, elem_of_union. now right.
Qed.

Lemma dedup_NoDup cs seen : List.NoDup (map logic_form (dedup cs seen [])).
Proof.
  revert seen. induction cs as [|c cs IH]; intros seen; [constructor|].
  rewrite dedup_cons. destruct (decide (logic_form c ∈ seen)); [apply IH|].
  simpl. constructor; [|apply IH].
  intros H. apply in_map_iff in H as [d [E H]].
  apply dedup_unseen in H as [H _]. rewrite E in H.
  apply H, elem_of_union. left. now apply elem_of_singleton.
Qed.

Lemma dedup_sublist cs seen : dedup cs seen [] `sublist_of` cs.
Proof.
  revert seen. induction cs as [|c cs IH]; intros seen; [constructor|].
  rewrite dedup_cons. destruct (decide (logic_form c ∈ seen)).
  - apply sublist_cons, IH.
  - apply sublist_skip, IH.
Qed.

Lemma dedup_keeps_first cs seen c :
  In c cs -> logic_form c ∉ seen ->
  exists d, first_with (logic_form c) cs = Some d /\ In d (dedup cs seen []).
Proof.
  revert seen. induction cs as [|c0 cs IH]; intros seen; [intros []|].
  intros Hin Hs. rewrite dedup_cons. unfold first_with. simpl.
  destruct (String.eqb_spec (logic_form c0) (logic_form c)) as [E|E].
  - exists c0. split; [reflexivity|].
    destruct (decide (logic_form c0 ∈ seen)) as [H|H];
      [rewrite E in H; contradiction|now left].
  - destruct Hin as [->|Hin]; [contradiction|].
    destruct (decide (logic_form c0 ∈ seen)).
    + now apply IH.
    + destruct (IH ({[logic_form c0]} ∪ seen) Hin) as [d [F D]].
      { intros Hu. apply elem_of_union in Hu as [Hu|Hu]; [|contradiction].
        apply elem_of_singleton in Hu. congruence. }
      exists d. split; [assumption|now right].
Qed.

(** C7: the list extract_constraints returns has no two constraints with
    the same logic_form; it is the list of the constraints produced, in the
    order of the findings, from which the constraints after the first of
    each logic_form are dropped: the first produced with a given logic_form
    is always kept. *)
Theorem extract_constraints_deduplicated findings w :
  let produced := fst (extract_all findings [] w) in
  let unique := fst (extract_constraints findings w) in
  List.NoDup (map logic_form unique)
  /\ unique `sublist_of` produced
  /\ (forall c, In c produced ->
        exists d, first_with (logic_form c) produced = Some d /\ In d unique)
  /\ (forall d, In d unique -> first_with (logic_form d) produced = Some d).
Proof.
  unfold extract_constraints.
  destruct (extract_all findings [] w) as [produced w'] eqn:E. simpl.
  split; [apply dedup_NoDup|]. split; [apply dedup_sublist|].
  assert (K : forall c, In c produced ->
            exists d, first_with (logic_form c) produced = Some d
                      /\ In d (dedup produced ∅ [])).
  { intros c Hc. apply dedup_keeps_first; [assumption|].
    apply not_elem_of_empty. }
  split; [exact K|].
  intros d Hd. destruct (dedup_unseen _ _ _ Hd) as [_ Hp].
  destruct (K d Hp) as [d' [F Hd']]. rewrite F. f_equal.
  assert (El : logic_form d' = logic_form d).
  { unfold first_with in F. apply find_some in F as [_ F].
    now apply String.eqb_eq in F. }
  pose proof (dedup_NoDup produced ∅) as N.
  revert N Hd Hd' El. generalize (dedup produced ∅ []). intros l.
  induction l as [|a l IH]; [intros _ []|]. simpl.
  intros N. inversion N as [|? ? Hn N']; subst.
  intros [->|Hd] [->|Hd'] El; try reflexivity.
  - exfalso. apply Hn. rewrite <- El. now apply in_map.
  - exfalso. apply Hn. rewrite El. now apply in_map.
  - now apply IH.
Qed.

(** ** The pattern fallback *)

Lemma run_lower lo lo' ks cs hi :
  lo' <= lo -> fallback_run lo ks cs hi -> fallback_run lo' ks cs hi.
Proof.
  intros H R. destruct R; constructor; try assumption; lia.
Qed.

Lemma run_bounds lo ks cs hi : fallback_run lo ks cs hi -> lo <= hi.
Proof. induction 1; lia. Qed.

Lemma run_app lo ks1 cs1 mid ks2 cs2 hi :
  fallback_run lo ks1 cs1 mid -> fallback_run mid ks2 cs2 hi ->
  fallback_run lo (ks1 ++ ks2) (cs1 ++ cs2) hi.
Proof.
  induction 1 as [lo mid H|lo k b c ks cs mid Hk Hs R IH]; intros R2; simpl.
  - now apply (run_lower mid).
  - constructor; auto.
Qed.

Lemma run_upper lo ks cs hi hi' :
  hi <= hi' -> fallback_run lo ks cs hi -> fallback_run lo ks cs hi'.
Proof.
  intros H R. rewrite <- (app_nil_r ks), <- (app_nil_r cs).
  eapply run_app; [exact R|]. now constructor.
Qed.

Lemma run_sublist lo ks cs hi cs' :
  cs' `sublist_of` cs -> fallback_run lo ks cs hi ->
  exists ks', fallback_run lo ks' cs' hi.
Proof.
  intros S. revert lo ks. induction S as [|c cs' cs S IH|c cs' cs S IH];
    intros lo ks R.
  - exists []. constructor. now apply run_bounds in R.
  - inversion R; subst.
    destruct (IH _ _ ltac:(eassumption)) as [ks' R'].
    eexists (_ :: ks'). constructor; eassumption.
  - inversion R; subst.
    destruct (IH _ _ ltac:(eassumption)) as [ks' R'].
    exists ks'. eapply run_lower; [|exact R']. lia.
Qed.

(** Each loop of [_pattern_extract] continues a run. *)
Lemma pattern_loop_run ctype b conf patterns quote_lower prov lo ks acc n :
  fallback_run lo ks acc n ->
  exists ks' ,
    fallback_run lo ks'
      (fst (pattern_loop ctype (truth_text b) conf patterns quote_lower
                         prov n acc))
      (snd (pattern_loop ctype (truth_text b) conf patterns quote_lower
                         prov n acc)).
Proof.
  revert ks acc n. induction patterns as [|pattern patterns IH];
    intros ks acc n R; simpl.
  - eauto.
  - destruct (Re.re_search false (Re.pat pattern) quote_lower) as [m|].
    + eapply IH. eapply run_app; [exact R|].
      apply (run_cons n (S n) b); [lia| |constructor; lia].
      repeat split; reflexivity.
    + eapply IH. exact R.
Qed.

Lemma _pattern_extract_run quote entities prov w :
  exists ks,
    fallback_run (constraint_counter w) ks
      (fst (_pattern_extract quote entities prov w))
      (constraint_counter (snd (_pattern_extract quote entities prov w)))
    /\ service (snd (_pattern_extract quote entities prov w)) = service w.
Proof.
  unfold _pattern_extract.
  destruct (pattern_loop_run NEGATION false (6 # 10) negation_patterns
              (Text.lower quote) prov (constraint_counter w) [] []
              (constraint_counter w)) as [ks1 R1]; [constructor; lia|].
  simpl truth_text in R1.
  destruct (pattern_loop NEGATION "False" _ _ _ _ _ _) as [cs1 n1].
  simpl in R1.
  destruct (pattern_loop_run ASSERTION true (5 # 10) assertion_patterns
              (Text.lower quote) prov (constraint_counter w) ks1 cs1 n1 R1)
    as [ks2 R2].
  simpl truth_text in R2.
  destruct (pattern_loop ASSERTION "True" _ _ _ _ _ _) as [cs2 n2].
  simpl in *. eauto.
Qed.

Lemma llm_loop_counter items prov n acc :
  n <= snd (llm_loop items prov n acc).
Proof.
  revert n acc. induction items as [|cd items IH]; intros n acc; simpl.
  - lia.
  - destruct cd as [o|]; simpl; [|lia].
    destruct (type_of_value _); simpl; [|lia].
    match goal with |- _ <= snd (llm_loop _ _ _ ?a) =>
      specialize (IH (S n) a) end.
    eapply Nat.le_trans; [|exact IH]. lia.
Qed.

(** With a service that only gives barren replies, [_llm_extract] returns
    nothing, does not lower the counter and leaves such a service. *)
Lemma _llm_extract_barren quote significance entities prov w :
  Forall barren (service w) ->
  let out := _llm_extract quote significance entities prov w in
  fst out = []
  /\ constraint_counter w <= constraint_counter (snd out)
  /\ Forall barren (service (snd out)).
Proof.
  intros B. unfold _llm_extract, next_reply.
  destruct w as [n sv]. simpl in *. destruct sv as [|r rs]; simpl.
  - repeat split; auto.
  - inversion B as [|? ? Br Brs]; subst. destruct r as [|items]; simpl.
    + repeat split; auto.
    + pose proof (Br prov n) as E. pose proof (llm_loop_counter items prov n []) as L.
      destruct (llm_loop items prov n []) as [cs m]. simpl in *.
      subst. repeat split; auto.
Qed.

Lemma _extract_from_finding_run f w :
  Forall barren (service w) ->
  exists ks,
    fallback_run (constraint_counter w) ks (fst (_extract_from_finding f w))
                 (constraint_counter (snd (_extract_from_finding f w)))
    /\ Forall barren (service (snd (_extract_from_finding f w))).
Proof.
  intros B. unfold _extract_from_finding.
  destruct (negb (Text.truthy _)).
  - exists []. split; [constructor; simpl; lia|assumption].
  - match goal with |- context [_llm_extract ?q ?sg ?en ?pv w] =>
      destruct (_llm_extract_barren q sg en pv w B) as [E [L B']];
      destruct (_llm_extract q sg en pv w) as [cs w'];
      destruct (_pattern_extract_run q en pv w') as [ks [R Sv]]
    end.
    simpl in E, L, B'. subst cs. exists ks. split.
    + eapply run_lower; [exact L|exact R].
    + rewrite Sv. assumption.
Qed.

Lemma extract_all_run findings lo ks acc w :
  Forall barren (service w) ->
  fallback_run lo ks acc (constraint_counter w) ->
  exists ks',
    fallback_run lo ks' (fst (extract_all findings acc w))
                 (constraint_counter (snd (extract_all findings acc w))).
Proof.
  revert ks acc w. induction findings as [|f findings IH];
    intros ks acc w B R; simpl; [eauto|].
  destruct (_extract_from_finding_run f w B) as [ks1 [R1 B1]].
  destruct (_extract_from_finding f w) as [cs w']. simpl in *.
  eapply IH; [exact B1|]. eapply run_app; eassumption.
Qed.

(** A batch extracted with a completion service that yields nothing is a
    run of fallback constraints: fresh variables [fact_N], strictly
    increasing [N], each constraint [fact_N == True] or [fact_N == False]. *)
Lemma extract_constraints_fallback findings w :
  Forall barren (service w) ->
  exists ks,
    fallback_run (constraint_counter w) ks
                 (fst (extract_constraints findings w))
                 (constraint_counter (snd (extract_constraints findings w))).
Proof.
  intros B. unfold extract_constraints.
  destruct (extract_all_run findings (constraint_counter w) [] [] w B)
    as [ks R]; [constructor; lia|].
  destruct (extract_all findings [] w) as [cs w']. simpl in *.
  eapply run_sublist; [apply dedup_sublist|exact R].
Qed.

End ExtractorFacts.


(* ===================================================================== *)
(** * Properties of the validator *)
(* ===================================================================== *)

Module ValidatorFacts.
Import Authority Extractor Validator Contract Spec.
Import AuthorityFacts.

(** ** Explaining conflicts *)

(** C10: when one of the two constraints of a pair has no provenance, the
    explanation of the pair has no authority resolution and says that none
    is available; the authority model is not consulted. *)
Theorem pair_without_provenance_unresolved c_a c_b cache :
  provenance c_a = None \/ provenance c_b = None ->
  exists ce,
    _explain_pair_conflict c_a c_b cache = (Ok ce, cache)
    /\ authority_resolution ce = None
    /\ resolution_available ce = false
    /\ constraint_a ce = to_dict c_a
    /\ constraint_b ce = to_dict c_b.
Proof.
  intros H. unfold _explain_pair_conflict.
  destruct (provenance c_a) as [p_a|] eqn:Ea;
    destruct (provenance c_b) as [p_b|] eqn:Eb;
    try (destruct H; discriminate);
    eexists; (split; [reflexivity|]); repeat split; reflexivity.
Qed.

Lemma pair_without_provenance_unresolved_witness :
  let c_a := bare "c1" ["X"] "X == True" in
  let c_b := bare "c2" ["X"] "X == False" in
  (provenance c_a = None \/ provenance c_b = None)
  /\ exists ce,
       _explain_pair_conflict c_a c_b ∅ = (Ok ce, ∅)
       /\ authority_resolution ce = None
       /\ resolution_available ce = false
       /\ constraint_a ce = to_dict c_a
       /\ constraint_b ce = to_dict c_b.
Proof.
  intros c_a c_b.
  assert (H : provenance c_a = None \/ provenance c_b = None)
    by (left; reflexivity).
  split; [exact H|].
  exact (pair_without_provenance_unresolved c_a c_b ∅ H).
Defined.




(** On a validator that has not been used, the ids of the database are
    those of the supplied constraints. *)
Lemma store_all_ids cs db x :
  store_all cs db !! x = None <-> db !! x = None /\ ~ In x (map id cs).
Proof.
  unfold store_all. revert db. induction cs as [|c cs IH]; intros db; simpl.
  - tauto.
  - rewrite IH. destruct (decide (id c = x)) as [E|E].
    + subst. rewrite lookup_insert_eq.
      split; [intros [H _]; discriminate H|].
      intros [_ H]. exfalso. apply H. now left.
    + rewrite lookup_insert_ne by assumption. tauto.
Qed.

Lemma sourced_well_typed p :
  court p <> None -> doc_type p <> None -> well_typed (source_of p).
Proof.
  intros Hc Hd. unfold well_typed, source_of. simpl.
  destruct (court p), (doc_type p); try contradiction;
    repeat split; discriminate.
Qed.

(** A pair of sourced constraints is explained: the authority model does
    not raise. *)
Lemma _explain_pair_conflict_returns a b cache :
  sourced a -> sourced b ->
  exists ce cache', _explain_pair_conflict a b cache = (Ok ce, cache').
Proof.
  unfold sourced, _explain_pair_conflict. intros Ha Hb.
  destruct (provenance a) as [p_a|]; [|unfold bind, ret; eauto].
  destruct (provenance b) as [p_b|]; [|unfold bind, ret; eauto].
  destruct Ha as [Ha1 Ha2], Hb as [Hb1 Hb2].
  destruct (detect_authority_returns (source_of p_a) cache
              (sourced_well_typed _ Ha1 Ha2)) as [ia [c1 [Da _]]].
  destruct (detect_authority_returns (source_of p_b) c1
              (sourced_well_typed _ Hb1 Hb2)) as [ib [c2 [Db _]]].
  unfold bind at 1. unfold bind at 1. rewrite Da.
  unfold bind at 1. rewrite Db.
  destruct (negb (level_eqb (level ia) (level ib))); unfold ret; eauto.
Qed.

Lemma explain_pairs_return (l : list (Constraint * Constraint)) cache :
  Forall (fun ab => sourced (fst ab) /\ sourced (snd ab)) l ->
  exists ces cache',
    for_each (fun ab => _explain_pair_conflict (fst ab) (snd ab)) l cache
    = (Ok ces, cache').
Proof.
  intros H. revert cache. induction H as [|ab l [Ha Hb] _ IH]; intros cache.
  - exists [], cache. reflexivity.
  - destruct (_explain_pair_conflict_returns _ _ cache Ha Hb) as [ce [c1 E]].
    destruct (IH c1) as [ces [c2 F]].
    exists (ce :: ces), c2. simpl. unfold bind at 1. rewrite E.
    unfold bind at 1. rewrite F. reflexivity.
Qed.

Lemma pairs_in {A} (l : list A) a b : In (a, b) (pairs l) -> In a l /\ In b l.
Proof.
  induction l as [|x l IH]; simpl; [intros []|].
  rewrite in_app_iff. intros [H|H].
  - apply in_map_iff in H as [y [E Hy]]. injection E as <- <-. auto.
  - apply IH in H. tauto.
Qed.

(** The explainer returns on a core whose constraints are sourced, and
    leaves the constraint database as it is. *)
Lemma _explain_conflicts_returns core st :
  Forall sourced (omap (fun cid => constraint_db st !! cid) core) ->
  exists ces st',
    _explain_conflicts core st = (Ok ces, st')
    /\ constraint_db st' = constraint_db st.
Proof.
  intros H. unfold _explain_conflicts.
  destruct (omap _ core) as [|c [|c' l]] eqn:E.
  - eauto.
  - eauto.
  - destruct (explain_pairs_return (pairs (c :: c' :: l)) (court_cache st))
      as [ces [cache' F]].
    { apply List.Forall_forall. intros [a b] Hab.
      apply pairs_in in Hab as [Ha Hb].
      rewrite List.Forall_forall in H. split; apply H; assumption. }
    unfold with_ranker. rewrite F. eauto.
Qed.

(** ** The contradiction [X == True], [X == False] *)

Lemma parse_X_True py_eval lf vars :
  In lf ["X == True"; "X==True"] ->
  _parse_logic_to_z3 py_eval lf vars = (VExpr (ZVar "X"), declare "X" vars).
Proof. intros [<-|[<-|[]]]; reflexivity. Qed.

Lemma parse_X_False py_eval lf vars :
  In lf ["X == False"; "X==False"] ->
  _parse_logic_to_z3 py_eval lf vars
  = (VExpr (ZNot (ZVar "X")), declare "X" vars).
Proof. intros [<-|[<-|[]]]; reflexivity. Qed.

(** C2: for hard constraints c1, with variables [X] and logic form
    X == True, and c2, with variables [X] and logic form X == False (the
    logic forms written with or without the spaces), validate_consistency
    returns satisfiable = false, status unsat and an unsat core whose ids
    are exactly c1 and c2.  The solver is any that meets the contract; the
    other attributes of the two constraints are arbitrary, a provenance
    naming its court and document type. *)
Theorem validate_consistency_contradiction
    py_eval z3_check c1 c2 include_soft st :
  solver_contract z3_check ->
  id c1 = "c1" -> variables c1 = ["X"] ->
  In (logic_form c1) ["X == True"; "X==True"] -> is_hard c1 = true ->
  id c2 = "c2" -> variables c2 = ["X"] ->
  In (logic_form c2) ["X == False"; "X==False"] -> is_hard c2 = true ->
  sourced c1 -> sourced c2 ->
  exists r st' core,
    validate_consistency py_eval z3_check [c1; c2] include_soft st
    = (Ok r, st')
    /\ satisfiable r = false
    /\ status r = unsat
    /\ unsat_core r = Some core
    /\ forall x, In x core <-> x = "c1" \/ x = "c2".
Proof.
  intros Hs I1 V1 L1 H1 I2 V2 L2 H2 S1 S2.
  unfold validate_consistency, List.filter.
  rewrite H1, H2, !orb_true_r.
  unfold validate_active, declare_all. simpl fold_left at 1. rewrite V1, V2.
  unfold assert_all.
  rewrite (parse_X_True py_eval _ _ L1), (parse_X_False py_eval _ _ L2).
  rewrite I1, I2. simpl app.
  set (ts := [("c1", ZVar "X"); ("c2", ZNot (ZVar "X"))]).
  set (st1 := {| constraint_db := _; court_cache := _ |}).
  destruct (decides z3_check Hs ts) as [[m E]|[core E]].
  { repeat constructor; simpl; intuition discriminate. }
  - exfalso. apply (sat_sound z3_check Hs) in E.
    unfold satisfies in E. simpl in E.
    destruct (m "c1"), (m "c2"), (m "X"); discriminate.
  - rewrite E.
    destruct (unsat_sound z3_check Hs ts core E) as [Hsub Hun].
    assert (Hcore : forall x, In x core <-> x = "c1" \/ x = "c2").
    { intros x. split.
      - intros Hx. apply Hsub in Hx. simpl in Hx. intuition.
      - assert (K : forall y (m : string -> bool),
                    m y = false ->
                    (forall v, v = "c1" \/ v = "c2" -> v <> y -> m v = true) ->
                    satisfies [] ts m = true ->
                    In y core).
        { intros y m Hy Hm Hsat.
          destruct (in_dec string_dec y core) as [?|N]; [assumption|].
          exfalso. specialize (Hun m).
          assert (forallb m core = true) as Hall.
          { apply forallb_forall. intros v Hv. apply Hm.
            - apply Hsub in Hv. simpl in Hv. intuition.
            - intros ->. contradiction. }
          unfold satisfies in *. rewrite Hall in Hun. simpl in Hsat, Hun.
          congruence. }
        intros [-> | ->].
        + apply (K "c1" (fun v => String.eqb v "c2")); [reflexivity| |reflexivity].
          intros v [-> | ->] Hv; [contradiction|reflexivity].
        + apply (K "c2" (fun v => String.eqb v "c1" || String.eqb v "X"));
            [reflexivity| |reflexivity].
          intros v [-> | ->] Hv; [reflexivity|contradiction]. }
    destruct (_explain_conflicts_returns core st1) as [ces [st2 [F _]]].
    { apply List.Forall_forall. intros c Hc.
      apply list_elem_of_In, list_elem_of_omap in Hc as [x [Hx Hl]].
      apply list_elem_of_In, Hcore in Hx.
      subst st1. cbn [constraint_db] in Hl. unfold store_all in Hl.
      simpl in Hl. rewrite I1, I2 in Hl.
      destruct Hx as [-> | ->].
      - rewrite lookup_insert_ne in Hl by discriminate.
        rewrite lookup_insert_eq in Hl. now injection Hl as <-.
      - rewrite lookup_insert_eq in Hl. now injection Hl as <-. }
    unfold bind. rewrite F.
    eexists _, st2, core. split; [reflexivity|].
    repeat split; try reflexivity; apply Hcore.
Qed.

Lemma validate_consistency_contradiction_witness :
  let c1 := bare "c1" ["X"] "X == True" in
  let c2 := bare "c2" ["X"] "X == False" in
  solver_contract ref_check
  /\ (id c1 = "c1" /\ variables c1 = ["X"]
      /\ In (logic_form c1) ["X == True"; "X==True"] /\ is_hard c1 = true)
  /\ (id c2 = "c2" /\ variables c2 = ["X"]
      /\ In (logic_form c2) ["X == False"; "X==False"] /\ is_hard c2 = true)
  /\ (sourced c1 /\ sourced c2)
  /\ exists r st' core,
       validate_consistency ref_eval ref_check [c1; c2] false fresh
       = (Ok r, st')
       /\ satisfiable r = false
       /\ status r = unsat
       /\ unsat_core r = Some core
       /\ forall x, In x core <-> x = "c1" \/ x = "c2".
Proof.
  intros c1 c2.
  assert (L1 : In (logic_form c1) ["X == True"; "X==True"])
    by (left; reflexivity).
  assert (L2 : In (logic_form c2) ["X == False"; "X==False"])
    by (left; reflexivity).
  split; [exact ContractFacts.ref_check_contract|].
  split; [repeat split; try reflexivity; exact L1|].
  split; [repeat split; try reflexivity; exact L2|].
  split; [split; exact I|].
  exact (validate_consistency_contradiction ref_eval ref_check c1 c2 false
           fresh ContractFacts.ref_check_contract
           eq_refl eq_refl L1 eq_refl eq_refl eq_refl L2 eq_refl I I).
Defined.

(** ** Models *)

Lemma declare_keeps x y vars : In x vars -> In x (declare y vars).
Proof.
  unfold declare. destruct (bool_decide (y ∈ vars)); [auto|].
  intros H. apply in_or_app. now left.
Qed.

Lemma declare_declares y vars : In y (declare y vars).
Proof.
  unfold declare. destruct (bool_decide (y ∈ vars)) eqn:E.
  - apply bool_decide_eq_true in E. now apply list_elem_of_In.
  - apply in_or_app. right. now left.
Qed.

Lemma declare_list_keeps xs vars x :
  In x vars -> In x (fold_left (fun vs y => declare y vs) xs vars).
Proof.
  revert vars. induction xs as [|y xs IH]; intros vars H; simpl; [assumption|].
  apply IH. now apply declare_keeps.
Qed.

Lemma declare_list_declares xs vars x :
  In x xs -> In x (fold_left (fun vs y => declare y vs) xs vars).
Proof.
  revert vars. induction xs as [|y xs IH]; intros vars; simpl; [intros []|].
  intros [<-|H]; [|now apply IH].
  apply declare_list_keeps, declare_declares.
Qed.

(** Every variable listed by a constraint is declared. *)
Lemma declare_all_declares active c x :
  In c active -> In x (variables c) -> In x (declare_all active).
Proof.
  unfold declare_all. generalize (@nil string) as vars.
  induction active as [|c0 active IH]; intros vars; simpl; [intros []|].
  intros [<-|Hc] Hx.
  - assert (K : forall l (vs : list string), In x vs ->
              In x (fold_left (fun z3_vars c =>
                      fold_left (fun vs y => declare y vs) (variables c) z3_vars)
                    l vs)).
    { induction l as [|c1 l IHl]; intros vs Hv; simpl; [assumption|].
      apply IHl. now apply declare_list_keeps. }
    apply K. now apply declare_list_declares.
  - now apply IH.
Qed.

Section Parsing.
Variable py_eval : string -> list string -> eval_outcome.

(** The parser only adds to the variable table. *)
Lemma parse_keeps lf vars x :
  In x vars -> In x (snd (_parse_logic_to_z3 py_eval lf vars)).
Proof.
  intros H. unfold _parse_logic_to_z3.
  destruct (negb (Text.truthy lf)); [assumption|].
  repeat (destruct (Re.re_match _ _ lf);
          [simpl; repeat apply declare_keeps; assumption|]).
  destruct (py_eval lf vars); assumption.
Qed.


Lemma parses_keeps active vars x :
  In x vars -> In x (snd (parses py_eval active vars)).
Proof.
  revert vars. induction active as [|c active IH]; intros vars H; simpl;
    [assumption|].
  pose proof (parse_keeps (logic_form c) vars x H) as K.
  destruct (_parse_logic_to_z3 py_eval (logic_form c) vars) as [v vars1].
  specialize (IH vars1 K).
  destruct (parses py_eval active vars1) as [l vf]. exact IH.
Qed.


End Parsing.




(** ** Logic forms that are not Boolean expressions *)

(** A constraint for which the parser returns [None] is left out of what
    is asserted. *)
Lemma assert_all_drops py_eval c active vars vars' tracked :
  _parse_logic_to_z3 py_eval (logic_form c) vars = (VNone, vars') ->
  assert_all py_eval (c :: active) vars tracked
  = assert_all py_eval active vars' tracked.
Proof. intros E. simpl. now rewrite E. Qed.

(** Whatever the solver and [eval] are: when the parser hands back a value
    that is neither [None] nor a Z3 expression, validation raises. *)
Lemma validate_consistency_raises py_eval z3_check c st :
  is_hard c = true ->
  (forall vars, fst (_parse_logic_to_z3 py_eval (logic_form c) vars) = VOther) ->
  fst (validate_consistency py_eval z3_check [c] false st) = Raise Z3Exception.
Proof.
  intros Hh Hp. unfold validate_consistency, List.filter. rewrite Hh.
  cbn [orb]. unfold validate_active, assert_all.
  specialize (Hp (declare_all [c])).
  destruct (_parse_logic_to_z3 py_eval (logic_form c) (declare_all [c]))
    as [v vars']. simpl in Hp. subst v. reflexivity.
Qed.

(** C4, as the code behaves: for the logic forms 1 and True no pattern of
    the parser matches, eval returns a value that is neither None nor a Z3
    expression, and validate_consistency raises Z3Exception on a set that
    holds such a constraint, although the rest of the set validates. *)
Theorem validate_consistency_raises_on_non_boolean :
  Forall (fun lf =>
    let good := bare "c1" ["X"] "X == True" in
    let bad := bare "c2" [] lf in
    fst (_parse_logic_to_z3 ref_eval lf ["X"]) = VOther
    /\ fst (validate_consistency ref_eval ref_check [good; bad] false fresh)
       = Raise Z3Exception
    /\ exists r,
         fst (validate_consistency ref_eval ref_check [good] false fresh)
         = Ok r
         /\ satisfiable r = true)
    ["1"; "True"].
Proof.
  repeat constructor; try (vm_compute; reflexivity);
    eexists; (split; [vm_compute; reflexivity|reflexivity]).
Qed.

(** ** Batches of the pattern fallback *)

Import TextFacts ExtractorFacts.

Lemma run_above lo ks cs hi kb :
  fallback_run lo ks cs hi -> In kb ks -> lo < fst kb.
Proof.
  induction 1 as [|lo k b c ks cs hi Hk Hs R IH]; [intros []|].
  intros [<-|H]; [assumption|]. specialize (IH H). lia.
Qed.

Lemma run_numbers lo ks cs hi :
  fallback_run lo ks cs hi -> List.NoDup (map fst ks).
Proof.
  induction 1 as [|lo k b c ks cs hi Hk Hs R IH]; simpl; constructor;
    [|assumption].
  intros H. apply in_map_iff in H as [kb [E H]].
  apply (run_above _ _ _ _ _ R) in H. simpl in E. lia.
Qed.

Lemma number_once (ks : list (nat * bool)) k b b' :
  List.NoDup (map fst ks) -> In (k, b) ks -> In (k, b') ks -> b = b'.
Proof.
  induction ks as [|kb ks IH]; simpl; [intros _ []|].
  intros N. inversion N as [|? ? Hn N']; subst.
  intros [->|H] [E|H'].
  - now injection E.
  - exfalso. apply Hn. simpl. now apply (in_map fst _ (k, b')).
  - exfalso. subst kb. apply Hn. simpl. now apply (in_map fst _ (k, b)).
  - now apply IH.
Qed.

Lemma run_labels lo ks cs hi :
  fallback_run lo ks cs hi -> List.NoDup (map fst (map fallback_tracked ks)).
Proof.
  induction 1 as [|lo k b c ks cs hi Hk Hs R IH]; simpl; constructor;
    [|assumption].
  rewrite map_map. intros H. apply in_map_iff in H as [kb [E H]].
  apply (run_above _ _ _ _ _ R) in H. simpl in E.
  apply fallback_id_inj in E. lia.
Qed.

(** The variables of a run are pairwise distinct: no variable occurs in
    two constraints. *)
Lemma run_variables lo ks cs hi :
  fallback_run lo ks cs hi ->
  List.NoDup (flat_map variables cs)
  /\ forall x, In x (flat_map variables cs) ->
               exists kb, In kb ks /\ x = fallback_var (fst kb).
Proof.
  induction 1 as [|lo k b c ks cs hi Hk [_ [Hv _]] R [IH1 IH2]]; simpl.
  - split; [constructor|intros ? []].
  - rewrite Hv. simpl. split.
    + constructor; [|assumption]. intros H.
      apply IH2 in H as [kb [Hin E]]. apply fallback_var_inj in E.
      apply (run_above _ _ _ _ _ R) in Hin. lia.
    + intros x [<-|H]; [exists (k, b); split; [now left|reflexivity]|].
      apply IH2 in H as [kb [Hin E]]. exists kb. split; [now right|assumption].
Qed.

Lemma run_hard lo ks cs hi include_soft :
  fallback_run lo ks cs hi -> active_of include_soft cs = cs.
Proof.
  unfold active_of.
  induction 1 as [|lo k b c ks cs hi Hk [_ [_ [_ Hh]]] R IH]; [reflexivity|].
  change (List.filter ?f (c :: cs))
    with (if f c then c :: List.filter f cs else List.filter f cs).
  cbv beta. rewrite Hh, orb_true_r. now rewrite IH.
Qed.

Lemma parse_fallback py_eval k b c vars :
  fallback_shape k b c ->
  _parse_logic_to_z3 py_eval (logic_form c) vars
  = (VExpr (snd (fallback_tracked (k, b))), declare (fallback_var k) vars).
Proof.
  intros [_ [_ [-> _]]]. unfold _parse_logic_to_z3.
  change (Text.truthy (fallback_var k +:+ " == " +:+ truth_text b)) with true.
  cbv beta iota.
  destruct (eq_pattern_matches (fallback_var k) b (fallback_var_word k))
    as [g0 E].
  change (negb true) with false. cbv iota. rewrite E.
  unfold Re.grp. simpl. destruct b; reflexivity.
Qed.

Lemma assert_all_fallback py_eval lo ks cs hi :
  fallback_run lo ks cs hi ->
  forall vars tracked,
  exists vars',
    assert_all py_eval cs vars tracked
    = Ok (tracked ++ map fallback_tracked ks, vars').
Proof.
  induction 1 as [|lo k b c ks cs hi Hk Hs R IH]; intros vars tracked; simpl.
  - exists vars. now rewrite app_nil_r.
  - rewrite (parse_fallback py_eval k b c vars Hs).
    destruct (IH (declare (fallback_var k) vars)
                 (tracked ++ [(id c, snd (fallback_tracked (k, b)))]))
      as [vars' E].
    exists vars'. rewrite E. rewrite <- app_assoc. simpl.
    destruct Hs as [-> _]. reflexivity.
Qed.

Lemma fallback_model_label ks kb :
  In kb ks -> fallback_model ks (fallback_id (fst kb)) = true.
Proof.
  intros H. unfold fallback_model. apply orb_true_iff. left.
  apply existsb_exists. exists kb. split; [assumption|apply String.eqb_refl].
Qed.

Lemma fallback_model_var ks k b :
  List.NoDup (map fst ks) -> In (k, b) ks ->
  fallback_model ks (fallback_var k) = b.
Proof.
  intros N H. unfold fallback_model.
  assert (E1 : existsb (fun kb => String.eqb (fallback_var k)
                                    (fallback_id (fst kb))) ks = false).
  { match goal with |- ?e = false => destruct e eqn:E end; [|reflexivity].
    apply existsb_exists in E as [kb [_ E]].
    apply String.eqb_eq in E. now apply fallback_var_not_id in E. }
  rewrite E1, orb_false_l. destruct b.
  - apply existsb_exists. exists (k, true). split; [assumption|].
    cbn [fst snd andb]. apply String.eqb_refl.
  - match goal with |- ?e = false => destruct e eqn:E end; [|reflexivity].
    apply existsb_exists in E as [[j bj] [Hj E]]. cbn [fst snd] in E.
    apply andb_true_iff in E as [-> E].
    apply String.eqb_eq, fallback_var_inj in E. subst j.
    symmetry. now apply (number_once ks k false true N H).
Qed.

(** The tracked assertions of a run have a model, whatever is assumed. *)
Lemma fallback_model_satisfies lo ks cs hi core :
  fallback_run lo ks cs hi ->
  (forall p, In p core -> In p (map fst (map fallback_tracked ks))) ->
  satisfies core (map fallback_tracked ks) (fallback_model ks) = true.
Proof.
  intros R Hc. pose proof (run_numbers _ _ _ _ R) as N.
  unfold satisfies. apply andb_true_iff. split; apply forallb_forall.
  - intros p Hp. apply Hc in Hp. rewrite map_map in Hp.
    apply in_map_iff in Hp as [kb [<- Hk]]. now apply fallback_model_label.
  - intros t Ht. apply in_map_iff in Ht as [[k b] [<- Hk]].
    unfold fallback_tracked. cbn [fst snd].
    pose proof (fallback_model_label ks (k, b) Hk) as L. cbn [fst] in L.
    rewrite L. destruct b; cbn [interp implb];
      now rewrite (fallback_model_var ks k _ N Hk).
Qed.

(** A run of fallback constraints validates as satisfiable. *)
Lemma validate_consistency_run py_eval z3_check lo ks cs hi include_soft st :
  solver_contract z3_check ->
  fallback_run lo ks cs hi ->
  exists r st',
    validate_consistency py_eval z3_check cs include_soft st = (Ok r, st')
    /\ satisfiable r = true.
Proof.
  intros Hs R. unfold validate_consistency.
  fold (active_of include_soft cs). rewrite (run_hard _ _ _ _ _ R).
  destruct cs as [|c cs]; [unfold ret; eauto|].
  unfold validate_active.
  destruct (assert_all_fallback py_eval _ _ _ _ R
              (declare_all (c :: cs)) []) as [vars' A].
  rewrite A. simpl app.
  destruct (decides z3_check Hs (map fallback_tracked ks)
              (run_labels _ _ _ _ R)) as [[m E]|[core E]]; rewrite E.
  - eauto.
  - exfalso. destruct (unsat_sound z3_check Hs _ _ E) as [Hsub Hun].
    specialize (Hun (fallback_model ks)).
    rewrite (fallback_model_satisfies _ _ _ _ _ R Hsub) in Hun.
    discriminate.
Qed.

(** C9: a batch that extract_constraints produces while the completion
    service yields nothing consists of fallback constraints with strictly
    increasing numbers N, each with the single variable fact_N and the
    logic form fact_N == True or fact_N == False; no variable occurs in two
    constraints of the batch; and validate_consistency on the batch returns
    satisfiable = true.  The solver is any that meets the contract. *)
Theorem fallback_batch_satisfiable
    py_eval z3_check findings w include_soft st :
  solver_contract z3_check ->
  Forall barren (service w) ->
  let batch := fst (extract_constraints findings w) in
  let w' := snd (extract_constraints findings w) in
  (exists ks, fallback_run (constraint_counter w) ks batch
                           (constraint_counter w'))
  /\ List.NoDup (flat_map variables batch)
  /\ exists r st',
       validate_consistency py_eval z3_check batch include_soft st
       = (Ok r, st')
       /\ satisfiable r = true.
Proof.
  intros Hs B batch w'.
  destruct (extract_constraints_fallback findings w B) as [ks R].
  split; [eauto|]. split.
  - now apply (run_variables _ _ _ _ R).
  - eapply validate_consistency_run; eassumption.
Qed.

Lemma fallback_batch_satisfiable_witness :
  let findings := [interview_finding; interview_finding] in
  let batch := fst (extract_constraints findings failing_service) in
  let w' := snd (extract_constraints findings failing_service) in
  solver_contract ref_check
  /\ Forall barren (service failing_service)
  /\ (exists ks, fallback_run (constraint_counter failing_service) ks batch
                              (constraint_counter w'))
  /\ List.NoDup (flat_map variables batch)
  /\ exists r st',
       validate_consistency ref_eval ref_check batch false fresh = (Ok r, st')
       /\ satisfiable r = true.
Proof.
  intros findings batch w'.
  assert (B : Forall barren (service failing_service)).
  { constructor; [exact I|]. constructor; [|constructor].
    intros prov n. reflexivity. }
  split; [exact ContractFacts.ref_check_contract|]. split; [exact B|].
  exact (fallback_batch_satisfiable ref_eval ref_check findings
           failing_service false fresh ContractFacts.ref_check_contract B).
Defined.

End ValidatorFacts.

(* ===================================================================== *)
(** * Further properties of the authority model *)
(* ===================================================================== *)

Module AuthorityMore.
Import Authority Spec AuthorityFacts.

(** ** Errors of detect_authority *)

(** X1: detect_authority raises exactly when one of the four text entries of
    the source is None; the exception is AttributeError and the cache is left
    as it was.  In every other case it returns. *)
Theorem detect_authority_raises_iff s c :
  (~ well_typed s <-> fst (detect_authority s c) = Raise AttributeError)
  /\ (well_typed s <-> exists i, fst (detect_authority s c) = Ok i)
  /\ (~ well_typed s -> snd (detect_authority s c) = c).
Proof.
  destruct (detect_authority_outcome s c) as [[E N]|[k [K [W E]]]].
  - rewrite E. simpl. split; [tauto|]. split; [|reflexivity].
    split; [contradiction|]. intros [i Hi]. discriminate.
  - assert (R : exists i, fst (detect_authority s c) = Ok i).
    { destruct (c !! k); [|destruct E as [i E]]; rewrite E; eauto. }
    split; [|split; [tauto|contradiction]].
    split; [contradiction|]. destruct R as [i R]. rewrite R. discriminate.
Qed.

(** ** What the cache holds *)

Lemma detect_uncached_sound t ct q ty : sound_info (detect_uncached t ct q ty).
Proof.
  unfold detect_uncached.
  match goal with
  | |- sound_info {| level := if level_eqb ?l UNKNOWN then _ else _;
                     court_name := _; jurisdiction := _; date := _;
                     binding := _; overruled := _ |} =>
      generalize l
  end.
  intros l. unfold sound_info. cbn [level binding overruled date].
  destruct (level_eqb l UNKNOWN) eqn:E.
  - repeat split; discriminate.
  - repeat split. intros ->. discriminate.
Qed.

Lemma detect_authority_sound_step s c :
  (forall k i, c !! k = Some i -> sound_info i) ->
  forall k i, snd (detect_authority s c) !! k = Some i -> sound_info i.
Proof.
  intros H. destruct s as [t ct q ty d]; destruct t, ct, q, ty;
    unfold detect_authority, bind, lift;
    cbn -[detect_uncached String.append lookup insert];
    try exact H;
    match goal with |- context [c !! ?k0] => destruct (c !! k0) eqn:L end;
    cbn -[detect_uncached String.append lookup insert]; try exact H;
    intros k i; rewrite lookup_insert;
    (case_decide; [intros [= <-]; apply detect_uncached_sound|apply H]).
Qed.

Lemma later_sound c c' :
  later c c' ->
  (forall k i, c !! k = Some i -> sound_info i) ->
  forall k i, c' !! k = Some i -> sound_info i.
Proof.
  induction 1 as [|c c' src L IH]; intros Hc; [assumption|].
  apply detect_authority_sound_step. exact (IH Hc).
Qed.

(** X2: on a ranker that started with an empty cache, whatever was asked of
    it before, detect_authority never returns the level UNKNOWN, and the
    result is binding exactly when its level is DISTRICT_COURT or higher
    (value at most 3); it is never overruled and carries no date. *)
Theorem detect_authority_sound s c i c' :
  later ∅ c ->
  detect_authority s c = (Ok i, c') ->
  sound_info i.
Proof.
  intros L D.
  pose proof (later_call ∅ c s L) as L'. rewrite D in L'. simpl in L'.
  apply detect_authority_stores in D as [_ [k [_ S]]].
  apply (later_sound ∅ c' L') with (k := k); [|assumption].
  intros k0 i0 E. rewrite lookup_empty in E. discriminate.
Qed.

Lemma detect_authority_sound_witness :
  exists i c',
    later ∅ (snd (detect_authority (court_only "9th circuit") ∅))
    /\ detect_authority smith_v_jones
         (snd (detect_authority (court_only "9th circuit") ∅)) = (Ok i, c')
    /\ sound_info i.
Proof.
  assert (L : later ∅ (snd (detect_authority (court_only "9th circuit") ∅)))
    by apply later_call, later_now.
  destruct (detect_authority_returns smith_v_jones
              (snd (detect_authority (court_only "9th circuit") ∅)))
    as [i [c' [D _]]]; [repeat split; discriminate|].
  exists i, c'. split; [exact L|]. split; [exact D|].
  exact (detect_authority_sound smith_v_jones _ i c' L D).
Defined.

(** ** Strings *)

Lemma append_cons c a b : String c a +:+ b = String c (a +:+ b).
Proof. reflexivity. Qed.

Lemma append_nil_l b : "" +:+ b = b.
Proof. reflexivity. Qed.

Lemma append_assoc a b c : (a +:+ b) +:+ c = a +:+ (b +:+ c).
Proof.
  induction a as [|x a IH]; [reflexivity|].
  rewrite !append_cons. now rewrite IH.
Qed.

Lemma lower_append a b : Text.lower (a +:+ b) = Text.lower a +:+ Text.lower b.
Proof.
  induction a as [|x a IH]; [reflexivity|].
  rewrite append_cons. cbn [Text.lower]. rewrite append_cons. now rewrite IH.
Qed.

(** ** The cache key *)

(** X3: the cache is keyed by the text doc_title:court, not by the pair:
    for ASCII texts t, x and c (which str.lower lowers character by
    character, so that lowering commutes with concatenation), a source with
    title t:x and court c and a source with title t and court x:c share one
    entry, so the second is answered with what was detected for the first,
    whatever its own court says. *)
Theorem cache_key_is_concatenation t x ct q1 ty1 q2 ty2 cache :
  AuthoritySpec.ascii_text t = true ->
  AuthoritySpec.ascii_text x = true ->
  AuthoritySpec.ascii_text ct = true ->
  let s1 := source_of_texts (t +:+ ":" +:+ x) ct q1 ty1 in
  let s2 := source_of_texts t (x +:+ ":" +:+ ct) q2 ty2 in
  exists i c1,
    detect_authority s1 cache = (Ok i, c1)
    /\ detect_authority s2 c1 = (Ok i, c1).
Proof.
  intros _ _ _ s1 s2.
  assert (W1 : well_typed s1) by (repeat split; discriminate).
  assert (W2 : well_typed s2) by (repeat split; discriminate).
  destruct (detect_authority_returns s1 cache W1) as [i [c1 [D [_ [k [K S]]]]]].
  exists i, c1. split; [assumption|].
  apply (detect_authority_hit s2 c1 k); [assumption| |assumption].
  rewrite <- K. unfold cache_key, s1, s2, source_of_texts. cbn [get_lower
    Authority.doc_title Authority.court].
  f_equal. rewrite !lower_append, !append_assoc. reflexivity.
Qed.

Lemma cache_key_is_concatenation_witness :
  AuthoritySpec.ascii_text "In re Doe" = true
  /\ AuthoritySpec.ascii_text "Supreme Court" = true
  /\ AuthoritySpec.ascii_text "Family Court" = true
  /\ let s1 := source_of_texts ("In re Doe" +:+ ":" +:+ "Supreme Court")
                  "Family Court" "the petition is granted" "order" in
     let s2 := source_of_texts "In re Doe"
                  ("Supreme Court" +:+ ":" +:+ "Family Court")
                  "certiorari is denied" "opinion" in
     exists i c1,
       detect_authority s1 ∅ = (Ok i, c1)
       /\ detect_authority s2 c1 = (Ok i, c1).
Proof.
  split; [reflexivity|]. split; [reflexivity|]. split; [reflexivity|].
  exact (cache_key_is_concatenation "In re Doe" "Supreme Court" "Family Court"
           "the petition is granted" "order" "certiorari is denied" "opinion"
           ∅ eq_refl eq_refl eq_refl).
Defined.

(** ** explain_authority *)

(** X4: explain_authority raises when detect_authority does; otherwise its
    text is one of eight sentences, followed by the source when the court name
    is not empty.  The sentences written for CIRCUIT_COURT, DISTRICT_COURT and
    WITNESS_STATEMENT are not among them (the entries of their aliases replace
    them in the dict display), nor is the default of the lookup. *)
Theorem explain_authority_text s c :
  match detect_authority s c with
  | (Ok auth, c') =>
      exists base,
        In base explanations
        /\ explain_authority s c
           = (Ok (if Text.truthy (court_name auth)
                  then base +:+ ". Source: " +:+ court_name auth
                  else base), c')
  | (Raise e, c') => explain_authority s c = (Raise e, c')
  end.
Proof.
  unfold explain_authority, bind.
  destruct (detect_authority s c) as [[auth|e] c']; [|reflexivity].
  exists (dict_get (dict_display level_explanations_display) (level auth)
            "Unknown authority level").
  split.
  - destruct (level auth); vm_compute; tauto.
  - destruct (Text.truthy (court_name auth)); reflexivity.
Qed.

(** ** Jurisdictions *)

Lemma prefix_splits p s : String.prefix p s = true -> exists r, s = p +:+ r.
Proof.
  revert s. induction p as [|a p IH]; intros s.
  - exists s. reflexivity.
  - destruct s as [|b s]; simpl; [intros [=]|].
    destruct (ascii_dec a b) as [->|]; [|intros [=]].
    intros H. apply IH in H as [r ->]. exists r. reflexivity.
Qed.

Lemma prefix_append p r : String.prefix p (p +:+ r) = true.
Proof.
  induction p as [|a p IH]; [destruct r; reflexivity|].
  rewrite append_cons. simpl. destruct (ascii_dec a a); [assumption|contradiction].
Qed.

Lemma contains_unfold needle hay :
  Text.contains needle hay =
    if String.prefix needle hay then true
    else match hay with
         | EmptyString => false
         | String _ hay' => Text.contains needle hay'
         end.
Proof. destruct hay; reflexivity. Qed.

Lemma contains_after a b r : Text.contains b (a +:+ b +:+ r) = true.
Proof.
  induction a as [|c a IH].
  - rewrite append_nil_l, contains_unfold, prefix_append. reflexivity.
  - rewrite append_cons, contains_unfold, IH.
    destruct (String.prefix b _); reflexivity.
Qed.

(** A text that contains [a ++ b] contains [b]. *)
Lemma contains_tail a b hay :
  Text.contains (a +:+ b) hay = true -> Text.contains b hay = true.
Proof.
  induction hay as [|c hay IH]; rewrite (contains_unfold (a +:+ b));
    destruct (String.prefix (a +:+ b) _) eqn:P.
  - intros _. apply prefix_splits in P as [r E].
    rewrite E, append_assoc. apply contains_after.
  - intros [=].
  - intros _. apply prefix_splits in P as [r E].
    rewrite E, append_assoc. apply contains_after.
  - intros H. apply IH in H. rewrite contains_unfold, H.
    destruct (String.prefix b (String c hay)); reflexivity.
Qed.

Lemma find_in_front {A} (f : A -> bool) l1 l2 x y :
  List.find f (l1 ++ l2) = Some x -> In y l1 -> f y = true -> In x l1.
Proof.
  induction l1 as [|z l1 IH]; simpl; [intros _ []|].
  destruct (f z) eqn:E; [intros [= <-]; now left|].
  intros H [->|Hy] Hf; [congruence|]. right. eauto.
Qed.

Lemma circuit_is_not_a_state d : d +:+ "th Circuit" <> "West Virginia".
Proof.
  intros H. pose proof (f_equal String.length H) as L.
  rewrite TextFacts.length_append in L.
  destruct d as [|a [|b [|c [|e d]]]]; simpl in L; try lia.
  vm_compute in H. discriminate H.
Qed.

(** X5: the state names are tried in the order of the list and the first one
    the text contains wins, so a text that names West Virginia is attributed
    to an earlier state (Virginia, if no other): _detect_jurisdiction returns
    West Virginia for no text. *)
Theorem jurisdiction_never_west_virginia text :
  _detect_jurisdiction text <> Some "West Virginia".
Proof.
  unfold _detect_jurisdiction.
  destruct (Re.re_search _ _ text) as [m|].
  - intros [= E]. now apply circuit_is_not_a_state in E.
  - set (f := fun state => Text.contains state (Text.lower text)).
    destruct (List.find f states) as [x|] eqn:F; [|discriminate].
    intros [= E].
    assert (T : forallb (fun y => String.eqb y "west virginia"
                                  || negb (String.eqb (Text.title y)
                                                      "West Virginia"))
                        states = true) by (vm_compute; reflexivity).
    pose proof (find_some _ _ F) as [Hin Hx].
    rewrite forallb_forall in T. specialize (T x Hin).
    rewrite E, String.eqb_refl, orb_false_r in T.
    apply String.eqb_eq in T. subst x.
    assert (V : f "virginia" = true).
    { unfold f in *. apply (contains_tail "west " "virginia"). exact Hx. }
    change states with (firstn 46 states ++ skipn 46 states) in F.
    apply (find_in_front f _ _ _ "virginia") in F; [| |exact V].
    + revert F. vm_compute. intuition discriminate.
    + vm_compute. tauto.
Qed.

(** ** The order of the sort keys *)

Lemma string_compare_trans a b c :
  String.compare a b <> Gt -> String.compare b c <> Gt ->
  String.compare a c <> Gt.
Proof.
  revert b c. induction a as [|x a IH]; intros [|y b] [|z c]; simpl;
    try congruence.
  unfold Ascii.compare.
  destruct (N.compare_spec (N_of_ascii x) (N_of_ascii y)) as [E1|L1|G1];
    destruct (N.compare_spec (N_of_ascii y) (N_of_ascii z)) as [E2|L2|G2];
    try congruence.
  - rewrite E1, E2, N.compare_refl. apply IH.
  - intros _ _. rewrite E1. apply N.compare_lt_iff in L2. rewrite L2. discriminate.
  - intros _ _. rewrite <- E2. apply N.compare_lt_iff in L1. rewrite L1. discriminate.
  - intros _ _. assert (L : (N_of_ascii x < N_of_ascii z)%N) by lia.
    apply N.compare_lt_iff in L. rewrite L. discriminate.
Qed.

Lemma string_compare_refl a : String.compare a a = Eq.
Proof.
  induction a as [|x a IH]; simpl; [reflexivity|].
  unfold Ascii.compare. now rewrite N.compare_refl.
Qed.

Lemma string_ltb_false a b : String.ltb a b = false <-> String.compare b a <> Gt.
Proof.
  unfold String.ltb. rewrite (String.compare_antisym a b).
  destruct (String.compare b a); simpl; split; congruence.
Qed.

Lemma bool_lt_false a b : bool_lt a b = false <-> (a = b \/ (a = true /\ b = false)).
Proof. destruct a, b; cbv; intuition congruence. Qed.

(** [a <= b]: the first component that differs is smaller in [a]. *)
Lemma key_le_spec (a b : sort_key) :
  key_le a b <->
  let '(la, na, da) := a in
  let '(lb, nb, db) := b in
  (la < lb)%Z
  \/ (la = lb /\ ((na = false /\ nb = true)
                  \/ (na = nb /\ String.compare da db <> Gt))).
Proof.
  destruct a as [[la na] da], b as [[lb nb] db]. unfold key_le, key_lt.
  destruct (Z.ltb_spec lb la); [split; [discriminate|lia]|].
  destruct (Z.ltb_spec la lb); [split; [auto|reflexivity]|].
  assert (la = lb) by lia. subst.
  destruct na, nb; simpl; rewrite ?string_ltb_false;
    split; try discriminate; try tauto; try lia;
    intuition (try congruence; try lia).
Qed.

Lemma key_le_trans a b c : key_le a b -> key_le b c -> key_le a c.
Proof.
  rewrite !key_le_spec.
  destruct a as [[la na] da], b as [[lb nb] db], c as [[lc nc] dc].
  intros [H1|[-> [[-> ->]|[-> H1]]]] [H2|[-> [[E ->]|[-> H2]]]];
    try lia; try discriminate; auto.
  right. split; [reflexivity|]. right. split; [reflexivity|].
  eapply string_compare_trans; eassumption.
Qed.

Lemma key_lt_le a b : key_lt a b = true -> key_le a b.
Proof.
  intros H. apply key_le_spec.
  destruct a as [[la na] da], b as [[lb nb] db]. unfold key_lt in H.
  destruct (Z.ltb_spec la lb); [auto|].
  destruct (Z.ltb_spec lb la); [discriminate|].
  right. split; [lia|].
  destruct na, nb; simpl in H; try discriminate; auto.
  - right. split; [reflexivity|]. unfold String.ltb in H.
    destruct (String.compare da db); congruence.
  - right. split; [reflexivity|]. unfold String.ltb in H.
    destruct (String.compare da db); congruence.
Qed.

Lemma key_eqb_eq a b : key_eqb a b = true <-> a = b.
Proof.
  destruct a as [[la na] da], b as [[lb nb] db]. unfold key_eqb. simpl.
  rewrite !andb_true_iff, Z.eqb_eq, Bool.eqb_true_iff, String.eqb_eq.
  split; [intros [[-> ->] ->]; reflexivity|intros [= -> -> ->]; auto].
Qed.

(** ** Stable sorting *)

Section StableSort.
Context {A : Type}.
Implicit Types (l : list (sort_key * A)) (x : sort_key * A).

Lemma insert_by_key_ordered x l :
  StronglySorted by_key l -> StronglySorted by_key (insert_by_key x l).
Proof.
  induction 1 as [|y l Hl IH Hy]; simpl.
  - constructor; constructor.
  - destruct (key_lt (fst x) (fst y)) eqn:E.
    + apply key_lt_le in E. constructor; [now constructor|].
      constructor; [assumption|].
      eapply List.Forall_impl; [|exact Hy].
      intros z Hz. eapply key_le_trans; eassumption.
    + constructor; [assumption|].
      eapply Permutation_Forall; [apply insert_by_key_perm|].
      constructor; assumption.
Qed.

Lemma sort_from_ordered l acc :
  StronglySorted by_key acc ->
  StronglySorted by_key (fold_left (fun acc x => insert_by_key x acc) l acc).
Proof.
  revert acc. induction l as [|x l IH]; intros acc H; simpl; [assumption|].
  apply IH. now apply insert_by_key_ordered.
Qed.

Lemma sort_by_key_ordered l : StronglySorted by_key (sort_by_key l).
Proof. apply sort_from_ordered. constructor. Qed.

Lemma keyed_with_cons k x l :
  keyed_with k (x :: l)
  = if key_eqb (fst x) k then x :: keyed_with k l else keyed_with k l.
Proof. reflexivity. Qed.

Lemma keyed_with_app k l1 l2 :
  keyed_with k (l1 ++ l2) = keyed_with k l1 ++ keyed_with k l2.
Proof.
  induction l1 as [|x l1 IH]; [reflexivity|].
  rewrite <- app_comm_cons, !keyed_with_cons, IH.
  destruct (key_eqb (fst x) k); reflexivity.
Qed.

(** An element goes behind the elements of its key that are already there. *)
Lemma insert_by_key_stable k x l :
  StronglySorted by_key l ->
  keyed_with k (insert_by_key x l) = keyed_with k (l ++ [x]).
Proof.
  induction 1 as [|y l Hl IH Hy].
  - reflexivity.
  - simpl insert_by_key. destruct (key_lt (fst x) (fst y)) eqn:E.
    + rewrite keyed_with_app.
      rewrite (keyed_with_cons k x (y :: l)).
      change (keyed_with k [x])
        with (if key_eqb (fst x) k then [x] else []).
      destruct (key_eqb (fst x) k) eqn:Ex.
      * apply key_eqb_eq in Ex.
        assert (N : keyed_with k (y :: l) = []).
        { assert (F : Forall (fun z => key_eqb (fst z) k = false) (y :: l)).
          { constructor.
            - destruct (key_eqb (fst y) k) eqn:Ey; [|reflexivity].
              apply key_eqb_eq in Ey. rewrite Ex, <- Ey in E.
              destruct (fst y) as [[ly ny] dy]. unfold key_lt in E.
              rewrite Z.ltb_irrefl in E. destruct ny; simpl in E;
                unfold String.ltb in E;
                rewrite string_compare_refl in E; discriminate.
            - eapply List.Forall_impl; [|exact Hy]. intros z Hz.
              destruct (key_eqb (fst z) k) eqn:Ez; [|reflexivity].
              apply key_eqb_eq in Ez. unfold by_key, key_le in Hz.
              rewrite Ez, <- Ex in Hz. congruence. }
          clear -F. induction F as [|z l0 Hz _ IH0]; [reflexivity|].
          rewrite keyed_with_cons, Hz. exact IH0. }
        rewrite N. reflexivity.
      * now rewrite app_nil_r.
    + rewrite <- app_comm_cons, !keyed_with_cons, IH. reflexivity.
Qed.

Lemma sort_from_stable k l acc :
  StronglySorted by_key acc ->
  keyed_with k (fold_left (fun acc x => insert_by_key x acc) l acc)
  = keyed_with k (acc ++ l).
Proof.
  revert acc. induction l as [|x l IH]; intros acc H; simpl.
  - now rewrite app_nil_r.
  - rewrite IH by now apply insert_by_key_ordered.
    rewrite keyed_with_app, insert_by_key_stable by assumption.
    rewrite <- keyed_with_app, <- app_assoc. reflexivity.
Qed.

Lemma sort_by_key_stable k l : keyed_with k (sort_by_key l) = keyed_with k l.
Proof. apply (sort_from_stable k l []). constructor. Qed.

End StableSort.

(** ** rank_constraints is a stable sort *)

Lemma final_key_later c c' x i :
  later c c' -> cached_info c x = Some i -> final_key c' x = final_key c x.
Proof.
  intros L H. unfold final_key.
  now rewrite (cached_info_later c c' x i L H), H.
Qed.

Lemma keyed_constraint_final x c :
  well_typed (get_source x) ->
  exists i c1,
    keyed_constraint x c = (Ok (final_key c1 x, x), c1)
    /\ later c c1 /\ cached_info c1 x = Some i.
Proof.
  intros W. destruct (detect_authority_returns _ c W)
    as [i [c1 [D [L [k [K S]]]]]].
  assert (Ci : cached_info c1 x = Some i)
    by (unfold cached_info; now rewrite K).
  exists i, c1. unfold keyed_constraint, get_authority_key, bind, ret.
  rewrite D. unfold final_key. rewrite Ci. auto.
Qed.

Lemma keys_final cs c :
  Forall (fun x => well_typed (get_source x)) cs ->
  exists c',
    for_each keyed_constraint cs c
    = (Ok (map (fun x => (final_key c' x, x)) cs), c')
    /\ later c c'.
Proof.
  intros H. revert c. induction H as [|x cs Hx _ IH]; intros c.
  - exists c. split; [reflexivity|constructor].
  - destruct (keyed_constraint_final x c Hx) as [i [c1 [E [L Ci]]]].
    destruct (IH c1) as [c' [F L']].
    exists c'. split; [|eapply later_trans; eassumption].
    simpl. unfold bind at 1. rewrite E. unfold bind at 1. rewrite F.
    unfold ret. now rewrite (final_key_later c1 c' x i L' Ci).
Qed.

Lemma ranked_of_keyed c (l : list (sort_key * cdict)) :
  Forall (fun kx => fst kx = final_key c (snd kx)) l ->
  StronglySorted by_key l ->
  StronglySorted (fun a b => key_le (final_key c a) (final_key c b))
                 (map snd l).
Proof.
  intros F S. induction S as [|kx l S IH Hx]; simpl; [constructor|].
  inversion F as [|? ? Ek F']; subst.
  constructor; [now apply IH|].
  rewrite List.Forall_forall in *. intros y Hy.
  apply in_map_iff in Hy as [ky [<- Hy]].
  specialize (Hx _ Hy). unfold by_key in Hx.
  now rewrite Ek, (F' _ Hy) in Hx.
Qed.

Lemma with_key_of_keyed c k (l : list (sort_key * cdict)) :
  Forall (fun kx => fst kx = final_key c (snd kx)) l ->
  with_key c k (map snd l) = map snd (keyed_with k l).
Proof.
  induction 1 as [|kx l Ek _ IH]; [reflexivity|].
  unfold with_key, keyed_with in *. simpl map.
  change (List.filter ?f (?a :: ?r))
    with (if f a then a :: List.filter f r else List.filter f r).
  cbv beta. rewrite <- Ek. destruct (key_eqb (fst kx) k); simpl; now rewrite IH.
Qed.

(** X6: rank_constraints is a stable sort by the key (level, not binding,
    date, missing dates counting as 9999): on constraints whose sources have
    string entries it returns a permutation of its input in which the keys
    never decrease, and constraints with the same key keep the order they had
    in the input.  Dates are compared as strings. *)
Theorem rank_constraints_stable_sort cs c :
  Forall (fun x => well_typed (get_source x)) cs ->
  exists ranked c',
    rank_constraints cs c = (Ok ranked, c')
    /\ Permutation cs ranked
    /\ StronglySorted (fun a b => key_le (final_key c' a) (final_key c' b))
                      ranked
    /\ forall k, with_key c' k ranked = with_key c' k cs.
Proof.
  intros W. destruct (keys_final cs c W) as [c' [E L]].
  set (keyed := map (fun x => (final_key c' x, x)) cs) in *.
  exists (map snd (sort_by_key keyed)), c'.
  assert (Hs : map snd keyed = cs).
  { unfold keyed. rewrite map_map. apply map_id. }
  assert (Fk : Forall (fun kx => fst kx = final_key c' (snd kx)) keyed).
  { unfold keyed. apply List.Forall_forall. intros kx Hk.
    apply in_map_iff in Hk as [x [<- _]]. reflexivity. }
  assert (Fs : Forall (fun kx => fst kx = final_key c' (snd kx))
                      (sort_by_key keyed)).
  { eapply Permutation_Forall; [apply sort_by_key_perm|exact Fk]. }
  split; [|split; [|split]].
  - unfold rank_constraints, bind, ret. now rewrite E.
  - rewrite <- Hs at 1. apply Permutation_map, sort_by_key_perm.
  - apply ranked_of_keyed; [exact Fs|apply sort_by_key_ordered].
  - intros k. rewrite (with_key_of_keyed c' k _ Fs), sort_by_key_stable.
    rewrite <- (with_key_of_keyed c' k _ Fk). now rewrite Hs.
Qed.

Lemma rank_constraints_stable_sort_witness :
  Forall (fun x => well_typed (get_source x))
         [trial_filing; supreme_ruling; fbi_interview; trial_filing]
  /\ exists ranked c',
       rank_constraints
         [trial_filing; supreme_ruling; fbi_interview; trial_filing] ∅
       = (Ok ranked, c')
       /\ Permutation
            [trial_filing; supreme_ruling; fbi_interview; trial_filing] ranked
       /\ StronglySorted
            (fun a b => key_le (final_key c' a) (final_key c' b)) ranked
       /\ forall k,
            with_key c' k ranked
            = with_key c' k
                [trial_filing; supreme_ruling; fbi_interview; trial_filing].
Proof.
  assert (W : Forall (fun x => well_typed (get_source x))
                [trial_filing; supreme_ruling; fbi_interview; trial_filing])
    by (repeat constructor; discriminate).
  split; [exact W|].
  exact (rank_constraints_stable_sort _ ∅ W).
Defined.

End AuthorityMore.

(* ===================================================================== *)
(** * Further properties of the extractor *)
(* ===================================================================== *)

Module ExtractorMore.
Import Extractor Spec ExtractorSpec TextFacts ExtractorFacts.

(** ** Numbering *)

Lemma numbered_bounds lo ks cs hi : numbered lo ks cs hi -> lo <= hi.
Proof. induction 1; lia. Qed.

Lemma numbered_lower lo lo' ks cs hi :
  lo' <= lo -> numbered lo ks cs hi -> numbered lo' ks cs hi.
Proof.
  intros L H. destruct H.
  - constructor. lia.
  - econstructor; eauto. lia.
Qed.

Lemma numbered_upper lo ks cs hi hi' :
  hi <= hi' -> numbered lo ks cs hi -> numbered lo ks cs hi'.
Proof.
  intros L H. induction H.
  - constructor. lia.
  - econstructor; eauto.
Qed.

Lemma numbered_app lo ks1 cs1 mid ks2 cs2 hi :
  numbered lo ks1 cs1 mid -> numbered mid ks2 cs2 hi ->
  numbered lo (ks1 ++ ks2) (cs1 ++ cs2) hi.
Proof.
  intros H1 H2. induction H1; simpl.
  - eapply numbered_lower; eauto.
  - econstructor; eauto.
Qed.

Lemma numbered_sublist lo ks cs hi cs' :
  cs' `sublist_of` cs -> numbered lo ks cs hi ->
  exists ks', numbered lo ks' cs' hi.
Proof.
  intros S. revert lo ks. induction S as [|c cs' cs S IH|c cs' cs S IH];
    intros lo ks R.
  - exists []. constructor. now apply numbered_bounds in R.
  - inversion R; subst.
    destruct (IH _ _ ltac:(eassumption)) as [ks' R'].
    eexists (_ :: ks'). econstructor; eassumption.
  - inversion R; subst.
    destruct (IH _ _ ltac:(eassumption)) as [ks' R'].
    exists ks'. eapply numbered_lower; [|exact R']. lia.
Qed.

Lemma numbered_ids lo ks cs hi :
  numbered lo ks cs hi ->
  map id cs = map fallback_id ks
  /\ StronglySorted lt (lo :: ks)
  /\ Forall (fun k => k <= hi) ks.
Proof.
  induction 1 as [lo hi L|lo k c ks cs hi L E H [IH1 [IH2 IH3]]].
  - repeat split; repeat constructor.
  - split; [simpl; now rewrite E, IH1|].
    assert (B := numbered_bounds _ _ _ _ H).
    split.
    + constructor; [exact IH2|].
      constructor; [exact L|].
      inversion IH2 as [|? ? _ F]; subst.
      eapply List.Forall_impl; [|exact F]. simpl. intros; lia.
    + constructor; [lia|exact IH3].
Qed.

Lemma fallback_run_numbered lo ks cs hi :
  fallback_run lo ks cs hi -> numbered lo (map fst ks) cs hi.
Proof.
  induction 1 as [|lo k b c ks cs hi L [E _] _ IH]; simpl.
  - now constructor.
  - econstructor; eauto.
Qed.

Lemma llm_loop_numbered items prov lo ks acc n :
  numbered lo ks acc n ->
  exists ks',
    numbered lo ks' (fst (llm_loop items prov n acc))
             (snd (llm_loop items prov n acc)).
Proof.
  revert ks acc n. induction items as [|cd items IH]; intros ks acc n R; simpl.
  - eauto.
  - assert (B := numbered_bounds _ _ _ _ R).
    destruct cd as [o|]; [|exists []; constructor; simpl; lia].
    destruct (type_of_value _) as [ty|]; [|exists []; constructor; simpl; lia].
    eapply IH. eapply numbered_app; [exact R|].
    apply (numbered_cons n (S n)); [lia|reflexivity|constructor; lia].
Qed.

Lemma _llm_extract_numbered quote significance entities prov w :
  let out := _llm_extract quote significance entities prov w in
  (exists ks, numbered (constraint_counter w) ks (fst out)
                       (constraint_counter (snd out)))
  /\ service (snd out) = List.tl (service w).
Proof.
  unfold _llm_extract, next_reply. destruct w as [n sv]. simpl.
  destruct sv as [|r rs]; simpl.
  - split; [exists []; constructor; simpl; lia|reflexivity].
  - destruct r as [|items]; simpl.
    + split; [exists []; constructor; simpl; lia|reflexivity].
    + destruct (llm_loop_numbered items prov n [] [] n) as [ks R];
        [constructor; lia|].
      destruct (llm_loop items prov n []) as [cs m]. simpl in *. eauto.
Qed.

Lemma _extract_from_finding_numbered f w :
  let out := _extract_from_finding f w in
  (exists ks, numbered (constraint_counter w) ks (fst out)
                       (constraint_counter (snd out)))
  /\ service (snd out)
     = if has_quote f then List.tl (service w) else service w.
Proof.
  unfold _extract_from_finding, has_quote, quote_of.
  destruct (Text.truthy _); simpl.
  - match goal with |- context [_llm_extract ?q ?sg ?en ?pv w] =>
      destruct (_llm_extract_numbered q sg en pv w) as [[ks R] Sv];
      destruct (_llm_extract q sg en pv w) as [cs w'] eqn:E
    end.
    simpl in R, Sv. destruct cs as [|c cs].
    + match goal with |- context [_pattern_extract ?q ?en ?pv w'] =>
        destruct (_pattern_extract_run q en pv w') as [ks' [R' Sv']]
      end.
      split; [|congruence].
      exists (map fst ks'). apply fallback_run_numbered in R'.
      eapply numbered_lower; [|exact R'].
      now apply numbered_bounds in R.
    + simpl. eauto.
  - split; [exists []; constructor; lia|reflexivity].
Qed.

Lemma extract_all_numbered findings lo ks acc w :
  numbered lo ks acc (constraint_counter w) ->
  exists ks',
    numbered lo ks' (fst (extract_all findings acc w))
             (constraint_counter (snd (extract_all findings acc w))).
Proof.
  revert ks acc w. induction findings as [|f findings IH];
    intros ks acc w R; simpl; [eauto|].
  destruct (_extract_from_finding_numbered f w) as [[ks1 R1] _].
  destruct (_extract_from_finding f w) as [cs w']. simpl in *.
  eapply IH. eapply numbered_app; eassumption.
Qed.

Lemma sorted_lt_NoDup (l : list nat) : StronglySorted lt l -> List.NoDup l.
Proof.
  induction 1 as [|x l _ IH F]; constructor; [|exact IH].
  intros I. rewrite List.Forall_forall in F. specialize (F _ I). lia.
Qed.

(** X7: whatever the completion service replies, the constraints a call of
    extract_constraints returns have the ids c_k with strictly increasing
    numbers k, all above the counter the call started with and none above
    the counter it leaves; in particular the ids are pairwise distinct and
    the counter never goes down. *)
Theorem extract_constraints_ids findings w :
  let out := extract_constraints findings w in
  exists ks,
    map id (fst out) = map fallback_id ks
    /\ StronglySorted lt (constraint_counter w :: ks)
    /\ Forall (fun k => k <= constraint_counter (snd out)) ks
    /\ constraint_counter w <= constraint_counter (snd out)
    /\ List.NoDup (map id (fst out)).
Proof.
  unfold extract_constraints.
  destruct (extract_all_numbered findings (constraint_counter w) [] [] w)
    as [ks R]; [constructor; lia|].
  destruct (extract_all findings [] w) as [cs w']. simpl in *.
  destruct (numbered_sublist _ _ _ _ _ (dedup_sublist cs ∅) R) as [ks' R'].
  destruct (numbered_ids _ _ _ _ R') as [E [S F]].
  exists ks'. repeat split; try assumption.
  - now apply numbered_bounds in R.
  - rewrite E. inversion S as [|? ? S' _]; subst.
    apply sorted_lt_NoDup in S'.
    clear -S'. induction S' as [|k ks' N _ IH]; simpl; constructor; [|exact IH].
    intros I. apply in_map_iff in I as [k' [E I]].
    apply fallback_id_inj in E. now subst.
Qed.

(** ** Findings without a quote, and the requests made *)

Lemma _extract_from_finding_quoteless f w :
  has_quote f = false -> _extract_from_finding f w = ([], w).
Proof.
  unfold has_quote, quote_of, _extract_from_finding. now intros ->.
Qed.

Lemma extract_all_quoteless findings acc w :
  extract_all (List.filter has_quote findings) acc w
  = extract_all findings acc w.
Proof.
  revert acc w. induction findings as [|f findings IH]; intros acc w;
    [reflexivity|].
  change (List.filter has_quote (f :: findings))
    with (if has_quote f then f :: List.filter has_quote findings
          else List.filter has_quote findings).
  destruct (has_quote f) eqn:Q.
  - simpl. destruct (_extract_from_finding f w). apply IH.
  - simpl. rewrite (_extract_from_finding_quoteless f w Q).
    rewrite app_nil_r. apply IH.
Qed.

(** X8: findings whose quote is empty or absent have no effect at all: a
    batch gives the same constraints, the same counter and the same use of
    the completion service as the batch without them.  The quote is read
    under the key quote first: a finding with an empty quote and a non-empty
    Quote counts as having none. *)
Theorem extract_constraints_skips_quoteless findings w :
  extract_constraints (List.filter has_quote findings) w
  = extract_constraints findings w.
Proof.
  unfold extract_constraints. now rewrite extract_all_quoteless.
Qed.

Lemma tl_skipn {A} n (l : list A) : List.tl (skipn n l) = skipn (S n) l.
Proof.
  revert l. induction n as [|n IH]; intros [|x l]; simpl; try reflexivity.
  - apply (IH l).
Qed.

Lemma extract_all_service findings acc w :
  service (snd (extract_all findings acc w))
  = skipn (length (List.filter has_quote findings)) (service w).
Proof.
  revert acc w. induction findings as [|f findings IH]; intros acc w;
    [reflexivity|].
  change (List.filter has_quote (f :: findings))
    with (if has_quote f then f :: List.filter has_quote findings
          else List.filter has_quote findings).
  simpl extract_all.
  destruct (_extract_from_finding_numbered f w) as [_ Sv].
  destruct (_extract_from_finding f w) as [cs w']. simpl in Sv.
  rewrite IH, Sv. destruct (has_quote f); [|reflexivity].
  simpl length. destruct (service w); [now rewrite !skipn_nil|reflexivity].
Qed.

(** X9: extract_constraints makes exactly one request to the completion
    service for each finding that has a quote, in order, whatever the
    replies are: of the replies to come, the call uses up as many as there
    are such findings. *)
Theorem extract_constraints_requests findings w :
  service (snd (extract_constraints findings w))
  = skipn (length (List.filter has_quote findings)) (service w).
Proof.
  unfold extract_constraints.
  pose proof (extract_all_service findings [] w) as E.
  destruct (extract_all findings [] w) as [cs w']. exact E.
Qed.

(** ** Provenance *)

Lemma llm_loop_provenance items prov n acc :
  Forall (fun c => provenance c = Some prov) acc ->
  Forall (fun c => provenance c = Some prov) (fst (llm_loop items prov n acc)).
Proof.
  revert n acc. induction items as [|cd items IH]; intros n acc F; simpl.
  - exact F.
  - destruct cd as [o|]; [|constructor].
    destruct (type_of_value _) as [ty|]; [|constructor].
    apply IH. apply Forall_app. split; [exact F|]. now repeat constructor.
Qed.

Lemma pattern_loop_provenance ctype truth conf patterns ql prov n acc :
  Forall (fun c => provenance c = Some prov) acc ->
  Forall (fun c => provenance c = Some prov)
         (fst (pattern_loop ctype truth conf patterns ql prov n acc)).
Proof.
  revert n acc. induction patterns as [|p patterns IH]; intros n acc F; simpl.
  - exact F.
  - destruct (Re.re_search false (Re.pat p) ql) as [m|]; apply IH; [|exact F].
    apply Forall_app. split; [exact F|]. now repeat constructor.
Qed.

Lemma _extract_from_finding_provenance f w :
  Forall (fun c => provenance c = Some (provenance_of f) /\ has_quote f = true)
         (fst (_extract_from_finding f w)).
Proof.
  unfold _extract_from_finding, has_quote.
  fold (quote_of f). destruct (Text.truthy (quote_of f)) eqn:Q; simpl;
    [|constructor].
  fold (provenance_of f).
  match goal with |- context [_llm_extract ?q ?sg ?en ?pv w] =>
    assert (P : Forall (fun c => provenance c = Some pv)
                       (fst (_llm_extract q sg en pv w)));
    [|destruct (_llm_extract q sg en pv w) as [cs w']]
  end.
  { unfold _llm_extract, next_reply. destruct (service w) as [|r rs];
      [constructor|].
    destruct r as [|items]; [constructor|]. simpl.
    pose proof (llm_loop_provenance items (provenance_of f)
                  (constraint_counter w) [] (List.Forall_nil _)) as P.
    destruct (llm_loop items _ _ []). exact P. }
  simpl in P. destruct cs as [|c cs].
  - unfold _pattern_extract.
    pose proof (pattern_loop_provenance NEGATION "False" (6 # 10)
                  negation_patterns (Text.lower (quote_of f))
                  (provenance_of f) (constraint_counter w') []
                  (List.Forall_nil _)) as P1.
    destruct (pattern_loop NEGATION _ _ _ _ _ _ _) as [cs1 n1]. simpl in P1.
    pose proof (pattern_loop_provenance ASSERTION "True" (5 # 10)
                  assertion_patterns (Text.lower (quote_of f))
                  (provenance_of f) n1 cs1 P1) as P2.
    destruct (pattern_loop ASSERTION _ _ _ _ _ _ _) as [cs2 n2]. simpl in *.
    eapply List.Forall_impl; [|exact P2]. simpl. auto.
  - simpl. eapply List.Forall_impl; [|exact P]. simpl. auto.
Qed.

Lemma extract_all_provenance (P : finding -> Prop) findings acc w :
  (forall f, In f findings -> P f) ->
  Forall (fun c => exists f, P f /\ has_quote f = true
                             /\ provenance c = Some (provenance_of f)) acc ->
  Forall (fun c => exists f, P f /\ has_quote f = true
                             /\ provenance c = Some (provenance_of f))
         (fst (extract_all findings acc w)).
Proof.
  revert acc w. induction findings as [|f findings IH]; intros acc w I F; simpl.
  - exact F.
  - pose proof (_extract_from_finding_provenance f w) as Q.
    destruct (_extract_from_finding f w) as [cs w']. simpl in Q.
    apply IH; [intros; apply I; now right|].
    apply Forall_app. split; [exact F|].
    eapply List.Forall_impl; [|exact Q]. simpl.
    intros c [E H]. exists f. split; [apply I; now left|auto].
Qed.

Lemma take_length n s : String.length (Text.take n s) <= n.
Proof.
  unfold Text.take. revert s. induction n as [|n IH]; intros [|c s]; simpl;
    try lia.
  specialize (IH s). lia.
Qed.

(** X10: whatever the completion service replies, every constraint
    extract_constraints returns carries the provenance of a finding of the
    batch that has a quote: the document, the ids and the court, date and
    document type of that finding (None where the finding has none), and as
    its quote the first 500 characters of the finding's quote. *)
Theorem extract_constraints_provenance findings w :
  Forall (fun c =>
    exists f p,
      In f findings /\ has_quote f = true /\ provenance c = Some p
      /\ quote p = Text.take 500 (quote_of f)
      /\ String.length (quote p) <= 500
      /\ doc_title p = get2 (f_document f) (f_Document f) "Unknown"
      /\ doc_id p = get1 (f_doc_id f) ""
      /\ court p = f_court f /\ doc_type p = f_doc_type f
      /\ date p = f_date f
      /\ paragraph p = f_paragraph f /\ page p = f_page f)
    (fst (extract_constraints findings w)).
Proof.
  unfold extract_constraints.
  pose proof (extract_all_provenance (fun f => In f findings) findings [] w
                (fun f I => I) (List.Forall_nil _)) as F.
  destruct (extract_all findings [] w) as [cs w']. simpl in *.
  apply List.Forall_forall. intros c I.
  apply dedup_unseen in I as [_ I].
  rewrite List.Forall_forall in F. destruct (F c I) as [f [If [Q E]]].
  exists f, (provenance_of f). repeat split; try assumption.
  apply take_length.
Qed.

(** ** The pattern fallback *)

Section Results.
Context {A : Type}.
Implicit Types (k : @Re.cont A) (g : Re.caps).

Lemma star_loop_result body k n s g x :
  (forall s0 g0 k0 x0,
     body s0 g0 k0 = Some x0 -> exists s1 g1, k0 s1 g1 = Some x0) ->
  Re.star_loop body k n s g = Some x -> exists s' g', k s' g' = Some x.
Proof.
  intros B. revert s g. induction n as [|n IH]; intros s g; simpl.
  - eauto.
  - destruct (body s g _) as [x0|] eqn:E.
    + intros [= ->]. apply B in E as [s1 [g1 E1]].
      destruct (Nat.ltb _ _); [|discriminate E1]. eapply IH; exact E1.
    + eauto.
Qed.

(** A match is what the continuation made of some rest of the text. *)
Lemma rmatch_result ic r s g k x :
  Re.rmatch ic r s g k = Some x -> exists s' g', k s' g' = Some x.
Proof.
  revert s g k x.
  induction r as [| |c|cl|r1 IH1 r2 IH2|r1 IH1 r2 IH2|r1 IH1|i r1 IH1];
    intros s g k x; simpl.
  - discriminate.
  - eauto.
  - destruct s as [|c' s']; [discriminate|].
    destruct (Re.char_eq ic c c'); [eauto|discriminate].
  - destruct s as [|c' s']; [discriminate|].
    destruct (Re.in_class cl c'); [eauto|discriminate].
  - intros H. apply IH1 in H as [s1 [g1 H]]. now apply IH2 in H.
  - destruct (Re.rmatch ic r1 s g k) as [x0|] eqn:E.
    + intros [= ->]. eapply IH1; exact E.
    + apply IH2.
  - apply star_loop_result. intros s0 g0 k0 x0. apply IH1.
  - intros H. apply IH1 in H as [s1 [g1 H]]. eauto.
Qed.

End Results.

Lemma substring_splits n s :
  exists after, s = String.substring 0 n s +:+ after.
Proof.
  revert s. induction n as [|n IH]; intros s.
  - exists s. now destruct s.
  - destruct s as [|c s]; [now exists ""|].
    destruct (IH s) as [after E]. exists after. simpl.
    change (String c ?a +:+ ?b) with (String c (a +:+ b)). now rewrite <- E.
Qed.

Lemma re_match_group0 ic r s m :
  Re.re_match ic r s = Some m -> exists after, s = Re.group0 m +:+ after.
Proof.
  unfold Re.re_match. intros H.
  apply rmatch_result in H as [s' [g' [= <-]]]. simpl.
  apply substring_splits.
Qed.

(** What [re.search] finds is a piece of the text. *)
Lemma re_search_group0 ic r s m :
  Re.re_search ic r s = Some m -> occurs_in (Re.group0 m) s.
Proof.
  induction s as [|c s IH]; simpl.
  - destruct (Re.re_match ic r "") as [m0|] eqn:E; [|discriminate].
    intros [= ->]. apply re_match_group0 in E as [after E1].
    exists "", after. exact E1.
  - destruct (Re.re_match ic r (String c s)) as [m0|] eqn:E.
    + intros [= ->]. apply re_match_group0 in E as [after E1].
      exists "", after. exact E1.
    + intros H. destruct (IH H) as [before [after E1]].
      exists (String c before), after.
      change (String c before +:+ ?b) with (String c (before +:+ b)).
      now rewrite <- E1.
Qed.

Lemma pattern_loop_shape ctype truth conf patterns ql prov n acc :
  exists new,
    pattern_loop ctype truth conf patterns ql prov n acc
    = (acc ++ new, n + length new)
    /\ length new <= length patterns
    /\ Forall (fun c =>
         constraint_type c = ctype /\ confidence c = conf
         /\ predicate c = None /\ is_hard c = true
         /\ natural_language c = subject c
         /\ occurs_in (subject c) ql) new.
Proof.
  revert n acc. induction patterns as [|p patterns IH]; intros n acc; simpl.
  - exists []. rewrite app_nil_r, Nat.add_0_r. repeat split; auto.
  - destruct (Re.re_search false (Re.pat p) ql) as [m|] eqn:E.
    + match goal with |- context [pattern_loop _ _ _ _ _ _ _ (acc ++ [?c])] =>
        destruct (IH (S n) (acc ++ [c])) as [new [L [B F]]]; exists (c :: new)
      end.
      rewrite L, <- app_assoc. simpl. split; [f_equal; lia|].
      split; [lia|]. constructor; [|exact F]. simpl.
      repeat split. now apply re_search_group0 in E.
    + destruct (IH n acc) as [new [L [B F]]]. exists new.
      rewrite L. repeat split; auto.
Qed.

(** X11: the pattern fallback returns at most five negations followed by at
    most four assertions, with confidence 0.6 and 0.5, all hard; the counter
    advances by exactly the number of constraints returned; and the subject
    of each constraint, which is also its natural-language text, is a piece
    of the lower-cased quote. *)
Theorem _pattern_extract_shape quote entities prov w :
  let out := _pattern_extract quote entities prov w in
  exists negations assertions,
    fst out = negations ++ assertions
    /\ length negations <= 5 /\ length assertions <= 4
    /\ constraint_counter (snd out)
       = constraint_counter w + length (fst out)
    /\ Forall (fun c =>
         constraint_type c = NEGATION /\ confidence c = 6 # 10
         /\ predicate c = None /\ is_hard c = true
         /\ natural_language c = subject c
         /\ occurs_in (subject c) (Text.lower quote)) negations
    /\ Forall (fun c =>
         constraint_type c = ASSERTION /\ confidence c = 5 # 10
         /\ predicate c = None /\ is_hard c = true
         /\ natural_language c = subject c
         /\ occurs_in (subject c) (Text.lower quote)) assertions.
Proof.
  unfold _pattern_extract.
  destruct (pattern_loop_shape NEGATION "False" (6 # 10) negation_patterns
              (Text.lower quote) prov (constraint_counter w) [])
    as [negs [E1 [B1 F1]]].
  rewrite E1.
  destruct (pattern_loop_shape ASSERTION "True" (5 # 10) assertion_patterns
              (Text.lower quote) prov
              (constraint_counter w + length negs) ([] ++ negs))
    as [asserts [E2 [B2 F2]]].
  rewrite E2. simpl. exists negs, asserts.
  repeat split; try assumption. rewrite length_app. lia.
Qed.

(** ** The completion service: all or nothing *)

Lemma llm_loop_all_or_nothing items prov n acc :
  if forallb usable items then
    exists new,
      llm_loop items prov n acc = (acc ++ new, n + length items)
      /\ Forall2 built_from items new
      /\ map id new = map fallback_id (seq (S n) (length items))
  else
    llm_loop items prov n acc = ([], n + S (usable_prefix items)).
Proof.
  revert n acc. induction items as [|cd items IH]; intros n acc.
  - exists []. simpl. rewrite app_nil_r, Nat.add_0_r. repeat split. constructor.
  - simpl forallb. simpl usable_prefix. unfold usable at 1 3.
    destruct cd as [o|]; simpl; [|f_equal; lia].
    destruct (type_of_value (get1 (r_type o) "assertion")) as [ty|] eqn:T;
      simpl; [|f_equal; lia].
    match goal with |- context [llm_loop _ _ _ (acc ++ [?c])] =>
      specialize (IH (S n) (acc ++ [c])); set (c0 := c) in *
    end.
    destruct (forallb usable items).
    + destruct IH as [new [E [F I]]]. exists (c0 :: new).
      rewrite E, <- app_assoc. simpl. split; [f_equal; lia|].
      split; [|now rewrite I].
      constructor; [|exact F]. exists o. subst c0. simpl. repeat split.
      exact T.
    + rewrite IH. f_equal. lia.
Qed.

(** X12: a reply of the completion service is used entirely or not at all.
    If every element of the parsed array is an object with a known type,
    _llm_extract returns one constraint per element, in order, numbered from
    the counter on, with the finding's provenance.  If some element is not,
    it returns nothing, and the counter has still advanced once for each
    element up to and including the first such one: those numbers are never
    given to a constraint. *)
Theorem _llm_extract_all_or_nothing
    quote significance entities prov n items rest :
  let w := {| constraint_counter := n; service := Items items :: rest |} in
  let out := _llm_extract quote significance entities prov w in
  service (snd out) = rest
  /\ if forallb usable items then
       Forall2 built_from items (fst out)
       /\ map id (fst out) = map fallback_id (seq (S n) (length items))
       /\ Forall (fun c => provenance c = Some prov) (fst out)
       /\ constraint_counter (snd out) = n + length items
     else
       fst out = []
       /\ constraint_counter (snd out) = n + S (usable_prefix items).
Proof.
  unfold _llm_extract, next_reply. simpl.
  pose proof (llm_loop_all_or_nothing items prov n []) as H.
  pose proof (llm_loop_provenance items prov n [] (List.Forall_nil _)) as P.
  destruct (forallb usable items).
  - destruct H as [new [E [F I]]]. rewrite E in *. simpl in *. auto.
  - rewrite H. simpl. auto.
Qed.

(** ** Deduplication of fallback batches *)

Lemma dedup_distinct cs seen :
  List.NoDup (map logic_form cs) ->
  Forall (fun c => logic_form c ∉ seen) cs ->
  dedup cs seen [] = cs.
Proof.
  revert seen. induction cs as [|c cs IH]; intros seen N F; [reflexivity|].
  inversion N as [|? ? Nc Ncs]; subst. inversion F as [|? ? Fc Fcs]; subst.
  rewrite dedup_cons. destruct (decide (logic_form c ∈ seen)); [contradiction|].
  f_equal. apply IH; [exact Ncs|].
  apply List.Forall_forall. intros d I.
  rewrite List.Forall_forall in Fcs. specialize (Fcs d I).
  intros [E|E]%elem_of_union; [|contradiction].
  apply elem_of_singleton in E. apply Nc. rewrite <- E. now apply in_map.
Qed.

Lemma run_member lo ks cs hi c :
  fallback_run lo ks cs hi -> In c cs ->
  exists k b, lo < k /\ fallback_shape k b c.
Proof.
  induction 1 as [|lo k b c0 ks cs hi L Sh R IH]; intros I; [destruct I|].
  destruct I as [<-|I]; [eauto|].
  destruct (IH I) as [k' [b' [L' Sh']]]. exists k', b'. split; [lia|exact Sh'].
Qed.

Lemma fallback_shape_number k b k' b' c c' :
  fallback_shape k b c -> fallback_shape k' b' c' ->
  logic_form c = logic_form c' -> k = k'.
Proof.
  intros Sh Sh' E.
  pose proof (ValidatorFacts.parse_fallback
                (fun _ _ => Validator.EvalRaises) k b c [] Sh) as P.
  pose proof (ValidatorFacts.parse_fallback
                (fun _ _ => Validator.EvalRaises) k' b' c' [] Sh') as P'.
  rewrite E, P' in P. apply fallback_var_inj.
  unfold fallback_tracked in P. cbn [fst snd] in P.
  destruct b, b'; congruence.
Qed.

Lemma run_logic_forms lo ks cs hi :
  fallback_run lo ks cs hi -> List.NoDup (map logic_form cs).
Proof.
  induction 1 as [|lo k b c ks cs hi L Sh R IH]; simpl; constructor;
    [|exact IH].
  intros I. apply in_map_iff in I as [c' [E I]].
  destruct (run_member _ _ _ _ _ R I) as [k' [b' [L' Sh']]].
  pose proof (fallback_shape_number _ _ _ _ _ _ Sh' Sh E). lia.
Qed.

(** X13: when the completion service yields no constraint, deduplication
    drops nothing: extract_constraints returns every constraint the pattern
    fallback produced, in the order of production. *)
Theorem fallback_batch_keeps_all findings w :
  Forall barren (service w) ->
  fst (extract_constraints findings w) = fst (extract_all findings [] w).
Proof.
  intros B. unfold extract_constraints.
  destruct (extract_all_run findings (constraint_counter w) [] [] w B)
    as [ks R]; [constructor; lia|].
  destruct (extract_all findings [] w) as [cs w']. simpl in *.
  apply dedup_distinct; [eapply run_logic_forms; exact R|].
  apply List.Forall_forall. intros c _. apply not_elem_of_empty.
Qed.

Lemma fallback_batch_keeps_all_witness :
  Forall barren (service failing_service)
  /\ fst (extract_constraints [interview_finding; interview_finding]
                              failing_service)
     = fst (extract_all [interview_finding; interview_finding] []
                        failing_service).
Proof.
  assert (B : Forall barren (service failing_service)).
  { repeat constructor. }
  split; [exact B|].
  exact (fallback_batch_keeps_all [interview_finding; interview_finding]
           failing_service B).
Defined.

End ExtractorMore.

(* ===================================================================== *)
(** * The parser on the forms of its grammar *)
(* ===================================================================== *)

Module GrammarFacts.
Import Extractor Validator Spec Grammar TextFacts.

Lemma append_step c a b : String c a +:+ b = String c (a +:+ b).
Proof. reflexivity. Qed.

Lemma append_empty a : "" +:+ a = a.
Proof. reflexivity. Qed.

Lemma space_not_word c : Text.is_space c = true -> Text.is_word c = false.
Proof.
  destruct c as [[] [] [] [] [] [] [] []]; vm_compute; congruence.
Qed.

Lemma word_not_space c : Text.is_word c = true -> Text.is_space c = false.
Proof.
  intros W. destruct (Text.is_space c) eqn:S; [|reflexivity].
  apply space_not_word in S. congruence.
Qed.

Lemma starts_with_app p a b :
  starts_with p (a +:+ b)
  = match a with EmptyString => starts_with p b | String c _ => p c end.
Proof. now destruct a. Qed.

Section Stars.
Context {A : Type}.
Implicit Types (k : @Re.cont A) (g : Re.caps).

(** A starred class in front of a run of its characters that something
    else follows takes the whole run first. *)
Lemma star_class_run ic cl run rest g k n x :
  all_chars (Re.in_class cl) run = true ->
  starts_with (Re.in_class cl) rest = false ->
  String.length run <= n ->
  k rest g = Some x ->
  Re.star_loop (fun s0 g0 k0 => Re.rmatch ic (Re.Cls cl) s0 g0 k0)
               k n (run +:+ rest) g = Some x.
Proof.
  intros Hw Hr. revert n. induction run as [|c w IH]; intros n Hn Hk.
  - simpl. destruct n as [|n]; simpl; [assumption|].
    destruct rest as [|c r]; [assumption|].
    simpl in Hr. simpl. now rewrite Hr.
  - simpl in Hw. apply andb_true_iff in Hw as [Hc Hw].
    destruct n as [|n]; [simpl in Hn; lia|].
    simpl. rewrite Hc.
    assert (L : Nat.ltb (String.length (w +:+ rest))
                        (S (String.length (w +:+ rest))) = true)
      by (apply Nat.ltb_lt; lia).
    rewrite L. rewrite IH; [reflexivity|assumption|simpl in Hn; lia|assumption].
Qed.

Lemma star_then ic cl (r : Re.regex) run rest g k x :
  all_chars (Re.in_class cl) run = true ->
  starts_with (Re.in_class cl) rest = false ->
  Re.rmatch ic r rest g k = Some x ->
  Re.rmatch ic (Re.Seq (Re.Star (Re.Cls cl)) r) (run +:+ rest) g k = Some x.
Proof.
  intros Hw Hr Hk.
  change (Re.star_loop (fun s0 g0 k0 => Re.rmatch ic (Re.Cls cl) s0 g0 k0)
            (fun s' g' => Re.rmatch ic r s' g' k)
            (String.length (run +:+ rest)) (run +:+ rest) g = Some x).
  apply star_class_run; try assumption. rewrite length_append. lia.
Qed.

(** It fails when what follows fails after every part of the run. *)
Lemma star_class_none ic cl run rest g k n :
  all_chars (Re.in_class cl) run = true ->
  starts_with (Re.in_class cl) rest = false ->
  (forall r1 r2, run = r1 +:+ r2 -> k (r2 +:+ rest) g = None) ->
  Re.star_loop (fun s0 g0 k0 => Re.rmatch ic (Re.Cls cl) s0 g0 k0)
               k n (run +:+ rest) g = None.
Proof.
  intros Hw Hr. revert n. induction run as [|c w IH]; intros n Hk.
  - pose proof (Hk "" "" eq_refl) as K. simpl in *.
    destruct n as [|n]; simpl; [assumption|].
    destruct rest as [|c r]; [assumption|].
    simpl in Hr. simpl. now rewrite Hr.
  - simpl in Hw. apply andb_true_iff in Hw as [Hc Hw].
    pose proof (Hk "" (String c w) eq_refl) as K. simpl in K.
    destruct n as [|n]; simpl; [assumption|].
    rewrite Hc.
    destruct (Nat.ltb _ _).
    + rewrite IH; [assumption|assumption|].
      intros r1 r2 E. apply (Hk (String c r1) r2). simpl. now rewrite E.
    + assumption.
Qed.

Lemma star_then_none ic cl (r : Re.regex) run rest g k :
  all_chars (Re.in_class cl) run = true ->
  starts_with (Re.in_class cl) rest = false ->
  (forall r1 r2, run = r1 +:+ r2 -> Re.rmatch ic r (r2 +:+ rest) g k = None) ->
  Re.rmatch ic (Re.Seq (Re.Star (Re.Cls cl)) r) (run +:+ rest) g k = None.
Proof.
  intros Hw Hr Hk.
  change (Re.star_loop (fun s0 g0 k0 => Re.rmatch ic (Re.Cls cl) s0 g0 k0)
            (fun s' g' => Re.rmatch ic r s' g' k)
            (String.length (run +:+ rest)) (run +:+ rest) g = None).
  now apply star_class_none.
Qed.

Lemma lit_none (r : Re.regex) c s g k :
  starts_with (Ascii.eqb c) s = false ->
  Re.rmatch false (Re.Seq (Re.Lit c) r) s g k = None.
Proof.
  destruct s as [|c' s]; [reflexivity|]. simpl. now intros ->.
Qed.

Lemma lit_then ic (r : Re.regex) c s g k :
  Re.rmatch ic (Re.Seq (Re.Lit c) r) (String c s) g k = Re.rmatch ic r s g k.
Proof.
  simpl. unfold Re.char_eq. destruct ic; now rewrite Ascii.eqb_refl.
Qed.

Lemma group_plus_unfold ic i cl (r : Re.regex) c s g k :
  Re.rmatch ic (Re.Seq (Re.Grp i (Re.plus (Re.Cls cl))) r) (String c s) g k
  = if Re.in_class cl c
    then Re.star_loop (fun s0 g0 k0 => Re.rmatch ic (Re.Cls cl) s0 g0 k0)
           (fun s' g' =>
              Re.rmatch ic r s' ((i, Re.consumed (String c s) s') :: g') k)
           (String.length s) s g
    else None.
Proof. reflexivity. Qed.

(** [(\w+)\s*c...] on a text whose leading word and white space are not
    followed by [c]. *)
Lemma word_spaces_lit_none i c (r : Re.regex) w sp rest g k :
  Text.is_word c = false -> Text.is_space c = false ->
  all_chars Text.is_word w = true ->
  all_chars Text.is_space sp = true ->
  starts_with Text.is_space rest = false ->
  starts_with (Ascii.eqb c) rest = false ->
  starts_with Text.is_word (sp +:+ rest) = false ->
  Re.rmatch false
    (Re.Seq (Re.Grp i (Re.plus (Re.Cls Re.Word)))
            (Re.Seq (Re.Star (Re.Cls Re.Space)) (Re.Seq (Re.Lit c) r)))
    (w +:+ sp +:+ rest) g k = None.
Proof.
  intros Cw Cs Hw Hsp Hr Hc Hm.
  assert (T : forall r2 g',
            all_chars Text.is_word r2 = true ->
            Re.rmatch false
              (Re.Seq (Re.Star (Re.Cls Re.Space)) (Re.Seq (Re.Lit c) r))
              (r2 +:+ sp +:+ rest) g' k = None).
  { intros r2 g' H2. destruct r2 as [|c2 r2].
    - rewrite append_empty. apply star_then_none; try assumption.
      intros s1 s2 E. apply lit_none. rewrite starts_with_app.
      destruct s2 as [|c' s2]; [assumption|].
      assert (Sc : Text.is_space c' = true).
      { rewrite E, all_chars_app in Hsp. apply andb_true_iff in Hsp as [_ Hsp].
        simpl in Hsp. now apply andb_true_iff in Hsp as [Hsp _]. }
      destruct (Ascii.eqb_spec c c') as [->|]; [congruence|reflexivity].
    - simpl in H2. apply andb_true_iff in H2 as [H2 _].
      rewrite <- (append_empty (String c2 r2 +:+ sp +:+ rest)).
      apply star_then_none; [reflexivity| |].
      + simpl. now apply word_not_space.
      + intros s1 s2 E. destruct s1; [|discriminate E]. rewrite append_empty in E. subst s2.
        rewrite append_empty. apply lit_none. simpl.
        destruct (Ascii.eqb_spec c c2) as [->|]; [congruence|reflexivity]. }
  destruct w as [|c1 w].
  - rewrite append_empty. simpl Re.rmatch.
    destruct (sp +:+ rest) as [|c' s']; [reflexivity|].
    simpl in Hm. simpl. now rewrite Hm.
  - simpl in Hw. apply andb_true_iff in Hw as [Hc1 Hw].
    rewrite append_step, group_plus_unfold. simpl Re.in_class. rewrite Hc1.
    apply star_class_none; try assumption.
    intros r1 r2 E. apply T.
    rewrite E, all_chars_app in Hw. now apply andb_true_iff in Hw as [_ Hw].
Qed.

Lemma lit_last ic c s g k :
  Re.rmatch ic (Re.Lit c) (String c s) g k = k s g.
Proof.
  simpl. unfold Re.char_eq. destruct ic; now rewrite Ascii.eqb_refl.
Qed.

Lemma group_unfold ic i (r : Re.regex) s g k :
  Re.rmatch ic (Re.Grp i r) s g k
  = Re.rmatch ic r s g (fun s' g' => k s' ((i, Re.consumed s s') :: g')).
Proof. reflexivity. Qed.

Lemma alt_unfold ic (r1 r2 : Re.regex) s g k :
  Re.rmatch ic (Re.Alt r1 r2) s g k
  = match Re.rmatch ic r1 s g k with
    | Some x => Some x
    | None => Re.rmatch ic r2 s g k
    end.
Proof. reflexivity. Qed.

(** The group [(True|False)] in front of one of the two words. *)
Lemma truth_group i b rest g k :
  Re.rmatch false
    (Re.Grp i
       (Re.Alt
          (Re.Seq (Re.Lit "T")
             (Re.Seq (Re.Lit "r") (Re.Seq (Re.Lit "u") (Re.Lit "e"))))
          (Re.Seq (Re.Lit "F")
             (Re.Seq (Re.Lit "a")
                (Re.Seq (Re.Lit "l") (Re.Seq (Re.Lit "s") (Re.Lit "e")))))))
    (truth_text b +:+ rest) g k
  = k rest ((i, truth_text b) :: g).
Proof.
  destruct b; simpl truth_text.
  - pose proof (consumed_app "True" rest) as C.
    rewrite !append_step, append_empty in *.
    rewrite group_unfold, alt_unfold, !lit_then, lit_last, C.
    rewrite lit_none by reflexivity. now destruct (k rest _).
  - pose proof (consumed_app "False" rest) as C.
    rewrite !append_step, append_empty in *.
    rewrite group_unfold, alt_unfold, (lit_none _ "T") by reflexivity.
    now rewrite !lit_then, lit_last, C.
Qed.

End Stars.

Lemma spaces_then_no_word sp x :
  all_chars Text.is_space sp = true ->
  starts_with Text.is_word x = false ->
  starts_with Text.is_word (sp +:+ x) = false.
Proof.
  intros S X. rewrite starts_with_app. destruct sp as [|c sp]; [exact X|].
  simpl in S. apply andb_true_iff in S as [S _]. now apply space_not_word.
Qed.

Lemma word_then_no_space w x :
  is_word_run w = true -> starts_with Text.is_space (w +:+ x) = false.
Proof.
  unfold is_word_run. intros W. rewrite starts_with_app.
  destruct w as [|c w]; [discriminate W|]. simpl in W.
  apply andb_true_iff in W as [W _]. now apply word_not_space.
Qed.

Lemma word_run_chars w : is_word_run w = true -> all_chars Text.is_word w = true.
Proof. unfold is_word_run. now intros [_ W]%andb_true_iff. Qed.

Lemma truth_no_space b x :
  starts_with Text.is_space (truth_text b +:+ x) = false.
Proof. now destruct b. Qed.

Ltac compiled :=
  match goal with
  | |- context [Re.pat ?p] =>
      let r := eval vm_compute in (Re.pat p) in change (Re.pat p) with r
  end.

Ltac spell := rewrite ?append_step, ?append_empty.

(** ** The six patterns on the forms *)

Section Patterns.
Variables (sp1 sp2 rest : string).
Hypothesis spaces1 : all_chars Text.is_space sp1 = true.
Hypothesis spaces2 : all_chars Text.is_space sp2 = true.

Ltac comparison W :=
  eexists; split;
  [ unfold Re.re_match; compiled; spell;
    apply group_word_run;
    [ exact W
    | apply spaces_then_no_word; [exact spaces1|reflexivity]
    | apply star_then; [exact spaces1|reflexivity|];
      rewrite !lit_then;
      apply star_then; [exact spaces2|apply truth_no_space|];
      rewrite truth_group; reflexivity ]
  | split; reflexivity ].

Lemma equality_matches w b :
  is_word_run w = true ->
  exists m,
    Re.re_match false (Re.pat "(\w+)\s*==\s*(True|False)")
                (text_of (Equals w b) sp1 sp2 rest) = Some m
    /\ Re.grp 1 m = w /\ Re.grp 2 m = truth_text b.
Proof. intros W. unfold text_of. comparison W. Qed.

Lemma inequality_matches w b :
  is_word_run w = true ->
  exists m,
    Re.re_match false (Re.pat "(\w+)\s*!=\s*(True|False)")
                (text_of (Differs w b) sp1 sp2 rest) = Some m
    /\ Re.grp 1 m = w /\ Re.grp 2 m = truth_text b.
Proof. intros W. unfold text_of. comparison W. Qed.

Lemma equality_fails f :
  well_named f ->
  match f with Equals _ _ => False | _ => True end ->
  Re.re_match false (Re.pat "(\w+)\s*==\s*(True|False)")
              (text_of f sp1 sp2 rest) = None.
Proof.
  intros N F. destruct f as [w b|w b|w|a b|a b|a b]; try contradiction;
    unfold text_of.
  - inversion N as [|? ? W _]; subst.
    unfold Re.re_match. compiled. spell.
    apply word_spaces_lit_none;
      [reflexivity|reflexivity|now apply word_run_chars|exact spaces1
      |reflexivity|reflexivity|].
    apply spaces_then_no_word; [exact spaces1|reflexivity].
  - change ("Not(" +:+ ?x) with ("Not" +:+ "" +:+ String "(" x).
    unfold Re.re_match. compiled. apply word_spaces_lit_none; reflexivity.
  - change ("And(" +:+ ?x) with ("And" +:+ "" +:+ String "(" x).
    unfold Re.re_match. compiled. apply word_spaces_lit_none; reflexivity.
  - change ("Or(" +:+ ?x) with ("Or" +:+ "" +:+ String "(" x).
    unfold Re.re_match. compiled. apply word_spaces_lit_none; reflexivity.
  - change ("Implies(" +:+ ?x) with ("Implies" +:+ "" +:+ String "(" x).
    unfold Re.re_match. compiled. apply word_spaces_lit_none; reflexivity.
Qed.

Lemma inequality_fails f :
  call f = true ->
  Re.re_match false (Re.pat "(\w+)\s*!=\s*(True|False)")
              (text_of f sp1 sp2 rest) = None.
Proof.
  intros F. destruct f as [w b|w b|w|a b|a b|a b]; try discriminate F;
    unfold text_of.
  - change ("Not(" +:+ ?x) with ("Not" +:+ "" +:+ String "(" x).
    unfold Re.re_match. compiled. apply word_spaces_lit_none; reflexivity.
  - change ("And(" +:+ ?x) with ("And" +:+ "" +:+ String "(" x).
    unfold Re.re_match. compiled. apply word_spaces_lit_none; reflexivity.
  - change ("Or(" +:+ ?x) with ("Or" +:+ "" +:+ String "(" x).
    unfold Re.re_match. compiled. apply word_spaces_lit_none; reflexivity.
  - change ("Implies(" +:+ ?x) with ("Implies" +:+ "" +:+ String "(" x).
    unfold Re.re_match. compiled. apply word_spaces_lit_none; reflexivity.
Qed.

Lemma negation_matches w :
  is_word_run w = true ->
  exists m,
    Re.re_match false (Re.pat "Not\((\w+)\)")
                (text_of (Negated w) sp1 sp2 rest) = Some m
    /\ Re.grp 1 m = w.
Proof.
  intros W. unfold text_of. eexists. split.
  - unfold Re.re_match. compiled. spell. rewrite !lit_then.
    apply group_word_run; [exact W|reflexivity|].
    rewrite lit_last. reflexivity.
  - reflexivity.
Qed.

Ltac junction A B :=
  eexists; split;
  [ unfold Re.re_match; compiled; spell; rewrite !lit_then;
    apply group_word_run; [exact A|reflexivity|];
    rewrite lit_then;
    apply star_then; [exact spaces1|now apply word_then_no_space|];
    apply group_word_run; [exact B|reflexivity|];
    rewrite lit_last; reflexivity
  | split; reflexivity ].

Lemma conjunction_matches a b :
  is_word_run a = true -> is_word_run b = true ->
  exists m,
    Re.re_match false (Re.pat "And\((\w+),\s*(\w+)\)")
                (text_of (Both a b) sp1 sp2 rest) = Some m
    /\ Re.grp 1 m = a /\ Re.grp 2 m = b.
Proof. intros A B. unfold text_of. junction A B. Qed.

Lemma disjunction_matches a b :
  is_word_run a = true -> is_word_run b = true ->
  exists m,
    Re.re_match false (Re.pat "Or\((\w+),\s*(\w+)\)")
                (text_of (Either a b) sp1 sp2 rest) = Some m
    /\ Re.grp 1 m = a /\ Re.grp 2 m = b.
Proof. intros A B. unfold text_of. junction A B. Qed.

Lemma implication_matches a b :
  is_word_run a = true -> is_word_run b = true ->
  exists m,
    Re.re_match false (Re.pat "Implies\((\w+),\s*(\w+)\)")
                (text_of (Entails a b) sp1 sp2 rest) = Some m
    /\ Re.grp 1 m = a /\ Re.grp 2 m = b.
Proof. intros A B. unfold text_of. junction A B. Qed.

(** A pattern that starts with another connective fails at once. *)
Ltac other_name :=
  unfold text_of, Re.re_match; compiled; spell; apply lit_none; reflexivity.

Lemma negation_fails a b :
  Forall (fun f =>
    Re.re_match false (Re.pat "Not\((\w+)\)") (text_of f sp1 sp2 rest) = None)
    [Both a b; Either a b; Entails a b].
Proof. repeat constructor; other_name. Qed.

Lemma conjunction_fails a b :
  Forall (fun f =>
    Re.re_match false (Re.pat "And\((\w+),\s*(\w+)\)")
                (text_of f sp1 sp2 rest) = None)
    [Either a b; Entails a b].
Proof. repeat constructor; other_name. Qed.

Lemma disjunction_fails a b :
  Re.re_match false (Re.pat "Or\((\w+),\s*(\w+)\)")
              (text_of (Entails a b) sp1 sp2 rest) = None.
Proof. other_name. Qed.

End Patterns.

Lemma text_truthy f sp1 sp2 rest :
  well_named f -> Text.truthy (text_of f sp1 sp2 rest) = true.
Proof.
  intros N. destruct f as [w b|w b|w|a b|a b|a b]; try reflexivity;
    inversion N as [|? ? W _]; subst; unfold is_word_run in W;
    destruct w; [discriminate W|reflexivity|discriminate W|reflexivity].
Qed.

Section Forms.
Variable py_eval : string -> list string -> eval_outcome.
Variables (sp1 sp2 rest : string) (vars : list string).
Hypothesis spaces1 : all_chars Text.is_space sp1 = true.
Hypothesis spaces2 : all_chars Text.is_space sp2 = true.

Ltac start N :=
  unfold _parse_logic_to_z3;
  rewrite (text_truthy _ sp1 sp2 rest N); cbv beta iota delta [negb].

Lemma parse_equals w b :
  is_word_run w = true ->
  _parse_logic_to_z3 py_eval (text_of (Equals w b) sp1 sp2 rest) vars
  = (VExpr (expr_of (Equals w b)), declare w vars).
Proof.
  intros W. assert (N : well_named (Equals w b)) by (repeat constructor; exact W).
  start N.
  destruct (equality_matches sp1 sp2 rest spaces1 spaces2 w b W)
    as [m [E [G1 G2]]].
  rewrite E, G1, G2. destruct b; reflexivity.
Qed.

Lemma parse_differs w b :
  is_word_run w = true ->
  _parse_logic_to_z3 py_eval (text_of (Differs w b) sp1 sp2 rest) vars
  = (VExpr (expr_of (Differs w b)), declare w vars).
Proof.
  intros W. assert (N : well_named (Differs w b)) by (repeat constructor; exact W).
  start N.
  rewrite (equality_fails sp1 sp2 rest spaces1 (Differs w b) N I).
  destruct (inequality_matches sp1 sp2 rest spaces1 spaces2 w b W)
    as [m [E [G1 G2]]].
  rewrite E, G1, G2. destruct b; reflexivity.
Qed.

Lemma parse_negated w :
  is_word_run w = true ->
  _parse_logic_to_z3 py_eval (text_of (Negated w) sp1 sp2 rest) vars
  = (VExpr (expr_of (Negated w)), declare w vars).
Proof.
  intros W. assert (N : well_named (Negated w)) by (repeat constructor; exact W).
  start N.
  rewrite (equality_fails sp1 sp2 rest spaces1 (Negated w) N I).
  rewrite (inequality_fails sp1 sp2 rest (Negated w) eq_refl).
  destruct (negation_matches sp1 sp2 rest w W) as [m [E G1]].
  rewrite E, G1. reflexivity.
Qed.

Lemma parse_both a b :
  is_word_run a = true -> is_word_run b = true ->
  _parse_logic_to_z3 py_eval (text_of (Both a b) sp1 sp2 rest) vars
  = (VExpr (expr_of (Both a b)), declare b (declare a vars)).
Proof.
  intros A B.
  assert (N : well_named (Both a b)) by (repeat constructor; assumption).
  start N.
  rewrite (equality_fails sp1 sp2 rest spaces1 (Both a b) N I).
  rewrite (inequality_fails sp1 sp2 rest (Both a b) eq_refl).
  pose proof (negation_fails sp1 sp2 rest a b) as F.
  inversion F as [|? ? F1 _]; subst. rewrite F1.
  destruct (conjunction_matches sp1 sp2 rest spaces1 a b A B)
    as [m [E [G1 G2]]].
  rewrite E, G1, G2. reflexivity.
Qed.

Lemma parse_either a b :
  is_word_run a = true -> is_word_run b = true ->
  _parse_logic_to_z3 py_eval (text_of (Either a b) sp1 sp2 rest) vars
  = (VExpr (expr_of (Either a b)), declare b (declare a vars)).
Proof.
  intros A B.
  assert (N : well_named (Either a b)) by (repeat constructor; assumption).
  start N.
  rewrite (equality_fails sp1 sp2 rest spaces1 (Either a b) N I).
  rewrite (inequality_fails sp1 sp2 rest (Either a b) eq_refl).
  pose proof (negation_fails sp1 sp2 rest a b) as F.
  inversion F as [|? ? _ F']; subst. inversion F' as [|? ? F2 _]; subst.
  rewrite F2.
  pose proof (conjunction_fails sp1 sp2 rest a b) as F0.
  inversion F0 as [|? ? F3 _]; subst. rewrite F3.
  destruct (disjunction_matches sp1 sp2 rest spaces1 a b A B)
    as [m [E [G1 G2]]].
  rewrite E, G1, G2. reflexivity.
Qed.

Lemma parse_entails a b :
  is_word_run a = true -> is_word_run b = true ->
  _parse_logic_to_z3 py_eval (text_of (Entails a b) sp1 sp2 rest) vars
  = (VExpr (expr_of (Entails a b)), declare b (declare a vars)).
Proof.
  intros A B.
  assert (N : well_named (Entails a b)) by (repeat constructor; assumption).
  start N.
  rewrite (equality_fails sp1 sp2 rest spaces1 (Entails a b) N I).
  rewrite (inequality_fails sp1 sp2 rest (Entails a b) eq_refl).
  pose proof (negation_fails sp1 sp2 rest a b) as F.
  inversion F as [|? ? _ F']; subst. inversion F' as [|? ? _ F'']; subst.
  inversion F'' as [|? ? F2 _]; subst. rewrite F2.
  pose proof (conjunction_fails sp1 sp2 rest a b) as F0.
  inversion F0 as [|? ? _ F0']; subst. inversion F0' as [|? ? F3 _]; subst.
  rewrite F3.
  rewrite (disjunction_fails sp1 sp2 rest a b).
  destruct (implication_matches sp1 sp2 rest spaces1 a b A B)
    as [m [E [G1 G2]]].
  rewrite E, G1, G2. reflexivity.
Qed.

End Forms.

(** X18: the parser reads the six forms of its grammar, and the inequality,
    without consulting eval: [w == True], [w != False] become the variable w,
    [w == False], [w != True] and [Not(w)] its negation, [And(a, b)],
    [Or(a, b)] and [Implies(a, b)] the connective of the two variables; any
    amount of white space is allowed around [==] and [!=] and after the
    comma; the names are declared, in order, if they are new.  The patterns
    are matched at the start of the text only, so whatever follows the form
    is ignored. *)
Theorem _parse_logic_to_z3_grammar py_eval f sp1 sp2 rest vars :
  well_named f ->
  all_chars Text.is_space sp1 = true ->
  all_chars Text.is_space sp2 = true ->
  _parse_logic_to_z3 py_eval (text_of f sp1 sp2 rest) vars
  = (VExpr (expr_of f), fold_left (fun vs x => declare x vs) (names f) vars).
Proof.
  intros N S1 S2. destruct f as [w b|w b|w|a b|a b|a b].
  - inversion N as [|? ? W _]; subst. now apply parse_equals.
  - inversion N as [|? ? W _]; subst. now apply parse_differs.
  - inversion N as [|? ? W _]; subst. now apply parse_negated.
  - inversion N as [|? ? A N']; subst. inversion N' as [|? ? B _]; subst.
    now apply parse_both.
  - inversion N as [|? ? A N']; subst. inversion N' as [|? ? B _]; subst.
    now apply parse_either.
  - inversion N as [|? ? A N']; subst. inversion N' as [|? ? B _]; subst.
    now apply parse_entails.
Qed.

Lemma _parse_logic_to_z3_grammar_witness :
  well_named (Entails "rain" "wet_ground")
  /\ all_chars Text.is_space "  " = true
  /\ all_chars Text.is_space "" = true
  /\ _parse_logic_to_z3 Contract.ref_eval
       (text_of (Entails "rain" "wet_ground") "  " "" " and more") ["rain"]
     = (VExpr (expr_of (Entails "rain" "wet_ground")),
        fold_left (fun vs x => declare x vs)
                  (names (Entails "rain" "wet_ground")) ["rain"]).
Proof.
  assert (N : well_named (Entails "rain" "wet_ground"))
    by (repeat constructor).
  split; [exact N|]. split; [reflexivity|]. split; [reflexivity|].
  exact (_parse_logic_to_z3_grammar Contract.ref_eval
           (Entails "rain" "wet_ground") "  " "" " and more" ["rain"]
           N eq_refl eq_refl).
Defined.

End GrammarFacts.

(* ===================================================================== *)
(** * Further properties of the validator *)
(* ===================================================================== *)

Module ValidatorMore.
Import Authority Extractor Validator Contract Spec ValidatorSpec.
Import AuthorityFacts TextFacts ExtractorFacts ValidatorFacts.
Import ExtractorSpec Grammar.

(** ** What a call leaves in the validator *)

Lemma _explain_conflicts_db core st :
  constraint_db (snd (_explain_conflicts core st)) = constraint_db st.
Proof.
  unfold _explain_conflicts. destruct (omap _ core) as [|c [|c' l]];
    try reflexivity.
  unfold with_ranker. destruct (for_each _ _ _). reflexivity.
Qed.

Section Calls.
Variable py_eval : string -> list string -> eval_outcome.
Variable z3_check : list (string * z3expr) -> check_result.

Lemma validate_consistency_active cs include_soft st :
  active_of include_soft cs <> [] ->
  validate_consistency py_eval z3_check cs include_soft st
  = validate_active py_eval z3_check (active_of include_soft cs) st.
Proof.
  unfold validate_consistency. fold (active_of include_soft cs).
  destruct cs as [|c cs]; [intros H; now contradiction H|].
  destruct (active_of include_soft (c :: cs)); [intros H; now contradiction H|].
  reflexivity.
Qed.

Lemma validate_consistency_idle cs include_soft st :
  active_of include_soft cs = [] ->
  exists text,
    validate_consistency py_eval z3_check cs include_soft st
    = (Ok {| satisfiable := true; status := sat; model := None;
             unsat_core := None; v_explanation := text;
             conflicts := None |}, st).
Proof.
  unfold validate_consistency. fold (active_of include_soft cs).
  intros E. destruct cs as [|c cs]; [eexists; reflexivity|].
  rewrite E. eexists; reflexivity.
Qed.

Lemma validate_active_db active st :
  constraint_db (snd (validate_active py_eval z3_check active st))
  = store_all active (constraint_db st).
Proof.
  unfold validate_active.
  destruct (assert_all py_eval active (declare_all active) [])
    as [[ts vf]|e]; [|reflexivity].
  destruct (z3_check ts) as [m|core| |]; try reflexivity.
  unfold bind.
  match goal with |- context [_explain_conflicts core ?s] =>
    pose proof (_explain_conflicts_db core s) as D;
    destruct (_explain_conflicts core s) as [[ces|e] st2]
  end; exact D.
Qed.

(** X14: whatever its outcome, validate_consistency leaves in the
    constraint database exactly the constraints it worked on, each under its
    id (a later one replacing an earlier one with the same id), on top of
    what the database held: soft constraints are stored only when they are
    included, and nothing is ever removed. *)
Theorem validate_consistency_stores cs include_soft st x :
  constraint_db (snd (validate_consistency py_eval z3_check cs include_soft st))
    !! x
  = match stored_as x (active_of include_soft cs) with
    | Some c => Some c
    | None => constraint_db st !! x
    end.
Proof.
  assert (S : forall l db,
            store_all l db !! x
            = match stored_as x l with Some c => Some c | None => db !! x end).
  { intros l. unfold stored_as, store_all.
    induction l as [|c l IH] using rev_ind; intros db; [reflexivity|].
    rewrite fold_left_app, rev_app_distr. simpl.
    destruct (String.eqb_spec (id c) x) as [->|N].
    - now rewrite lookup_insert_eq.
    - rewrite lookup_insert_ne by assumption. apply IH. }
  destruct (active_of include_soft cs) as [|c0 l0] eqn:E.
  - destruct (validate_consistency_idle cs include_soft st E) as [text ->].
    reflexivity.
  - rewrite validate_consistency_active by (rewrite E; discriminate).
    rewrite validate_active_db, E. apply S.
Qed.

(** ** The shape of a result *)

(** X15: a result of validate_consistency is of one of three shapes.  With
    status sat it is satisfiable and has no core and no conflicts, and it
    has a model unless there was no constraint to work on; with status unsat
    it is not satisfiable and has no model, and it has a core, the conflicts
    explained from that core and an explanation that gives the length of
    the core; with status unknown it is not satisfiable and has nothing
    else. *)
Theorem validate_consistency_result cs include_soft st r st' :
  validate_consistency py_eval z3_check cs include_soft st = (Ok r, st') ->
  let active := active_of include_soft cs in
  match status r with
  | sat =>
      satisfiable r = true /\ unsat_core r = None /\ conflicts r = None
      /\ (model r = None <-> active = [])
  | unsat =>
      satisfiable r = false /\ model r = None /\ active <> []
      /\ exists core ces st1,
           unsat_core r = Some core /\ conflicts r = Some ces
           /\ _explain_conflicts core st1 = (Ok ces, st')
           /\ constraint_db st1 = store_all active (constraint_db st)
           /\ court_cache st1 = court_cache st
           /\ v_explanation r
              = "Found " +:+ Text.str_of_nat (length core)
                +:+ " conflicting constraints"
  | unknown =>
      satisfiable r = false /\ model r = None /\ unsat_core r = None
      /\ conflicts r = None /\ active <> []
  end.
Proof.
  intros E active. subst active.
  destruct (active_of include_soft cs) as [|c0 l0] eqn:Ea.
  - destruct (validate_consistency_idle cs include_soft st Ea) as [text E'].
    rewrite E' in E. injection E as <- <-. simpl. tauto.
  - rewrite validate_consistency_active in E by (rewrite Ea; discriminate).
    rewrite Ea in E. unfold validate_active in E.
    destruct (assert_all py_eval (c0 :: l0) (declare_all (c0 :: l0)) [])
      as [[ts vf]|e]; [|discriminate E].
    destruct (z3_check ts) as [m|core| |]; [| | |discriminate E].
    + injection E as <- <-. simpl. repeat split; try discriminate.
    + unfold bind in E.
      match type of E with context [_explain_conflicts core ?s] =>
        destruct (_explain_conflicts core s) as [[ces|e] st2] eqn:X;
          [|discriminate E]; set (st1 := s) in *
      end.
      injection E as <- <-. simpl.
      split; [reflexivity|]. split; [reflexivity|]. split; [discriminate|].
      exists core, ces, st1. repeat split. exact X.
    + injection E as <- <-. simpl. repeat split; discriminate.
Qed.

End Calls.

Lemma validate_consistency_result_witness :
  exists r st',
    validate_consistency ref_eval ref_check
      [bare "c1" ["X"] "X == True"; bare "c2" ["X"] "Not(X)"] false fresh
    = (Ok r, st')
    /\ let active :=
         active_of false
           [bare "c1" ["X"] "X == True"; bare "c2" ["X"] "Not(X)"] in
       match status r with
       | sat =>
           satisfiable r = true /\ unsat_core r = None /\ conflicts r = None
           /\ (model r = None <-> active = [])
       | unsat =>
           satisfiable r = false /\ model r = None /\ active <> []
           /\ exists core ces st1,
                unsat_core r = Some core /\ conflicts r = Some ces
                /\ _explain_conflicts core st1 = (Ok ces, st')
                /\ constraint_db st1 = store_all active (constraint_db fresh)
                /\ court_cache st1 = court_cache fresh
                /\ v_explanation r
                   = "Found " +:+ Text.str_of_nat (length core)
                     +:+ " conflicting constraints"
       | unknown =>
           satisfiable r = false /\ model r = None /\ unsat_core r = None
           /\ conflicts r = None /\ active <> []
       end.
Proof.
  remember (validate_consistency ref_eval ref_check
              [bare "c1" ["X"] "X == True"; bare "c2" ["X"] "Not(X)"] false
              fresh) as out eqn:E.
  assert (B : match fst out with Ok _ => true | Raise _ => false end = true)
    by (rewrite E; vm_compute; reflexivity).
  destruct out as [[r|e] st']; simpl in B; [|discriminate B].
  exists r, st'. split; [reflexivity|].
  exact (validate_consistency_result ref_eval ref_check _ false fresh r st'
           (eq_sym E)).
Defined.

(** ** Soundness of a core, completeness on consistent constraints *)

Lemma assert_all_exact py_eval active vars tracked :
  assert_all py_eval active vars tracked
  = if existsb unassertable (fst (parses py_eval active vars))
    then Raise Z3Exception
    else Ok (tracked ++ asserted (fst (parses py_eval active vars)),
             snd (parses py_eval active vars)).
Proof.
  revert vars tracked. induction active as [|c active IH];
    intros vars tracked; simpl.
  - now rewrite app_nil_r.
  - destruct (_parse_logic_to_z3 py_eval (logic_form c) vars) as [v vars1].
    specialize (IH vars1).
    destruct (parses py_eval active vars1) as [l vf]. simpl in *.
    destruct v as [|e|]; unfold unassertable at 1; simpl.
    + apply IH.
    + rewrite IH. destruct (existsb unassertable l); [reflexivity|].
      unfold asserted. simpl. now rewrite <- app_assoc.
    + reflexivity.
Qed.

Lemma asserted_in parsed t :
  In t (asserted parsed) <->
  exists c, In (c, VExpr (snd t)) parsed /\ id c = fst t.
Proof.
  unfold asserted. rewrite <- list_elem_of_In, list_elem_of_omap. split.
  - intros [[c v] [I E]]. simpl in E. destruct v as [|e|]; try discriminate.
    injection E as <-. exists c. simpl. split; [|reflexivity].
    now apply list_elem_of_In.
  - intros [c [I E]]. exists (c, VExpr (snd t)). split.
    + now apply list_elem_of_In.
    + simpl. rewrite E. now destruct t.
Qed.

Lemma forallb_false {A} (f : A -> bool) l :
  forallb f l = false -> exists x, In x l /\ f x = false.
Proof.
  induction l as [|x l IH]; [discriminate|]. simpl.
  intros [F|F]%andb_false_iff.
  - exists x. split; [now left|exact F].
  - destruct (IH F) as [y [I E]]. exists y. split; [now right|exact E].
Qed.

(** A core names assertions that no assignment of the variables satisfies
    together, when no tracking constant is a variable of an assertion. *)
Lemma core_refuted z3_check ts core m :
  solver_contract z3_check ->
  z3_check ts = Unsat core ->
  (forall t t', In t ts -> In t' ts -> ~ In (fst t) (vars_of (snd t'))) ->
  exists t, In t ts /\ In (fst t) core /\ interp m (snd t) = false.
Proof.
  intros Hs C D.
  destruct (unsat_sound z3_check Hs ts core C) as [Sub Un].
  set (m' := fun x => if mem x core then true
                      else if mem x (map fst ts) then false else m x).
  assert (Mem : forall x l, mem x l = true <-> In x l).
  { intros x l. unfold mem. rewrite existsb_exists. split.
    - intros [y [I E]]. apply String.eqb_eq in E. now subst.
    - intros I. exists x. split; [exact I|apply String.eqb_refl]. }
  assert (L : forall t, In t ts -> interp m' (snd t) = interp m (snd t)).
  { intros t I. apply ContractFacts.interp_ext. intros x Hx. unfold m'.
    assert (N : ~ In x (map fst ts)).
    { intros J. apply in_map_iff in J as [t0 [<- J]]. exact (D t0 t J I Hx). }
    destruct (mem x core) eqn:E1.
    - apply Mem in E1. exfalso. apply N. now apply Sub.
    - destruct (mem x (map fst ts)) eqn:E2; [|reflexivity].
      apply Mem in E2. contradiction. }
  specialize (Un m'). unfold satisfies in Un.
  assert (A : forallb m' core = true).
  { apply forallb_forall. intros x I. unfold m'.
    apply Mem in I. now rewrite I. }
  rewrite A in Un. simpl in Un.
  destruct (forallb _ ts) eqn:F; [discriminate|]. clear Un.
  assert (X : exists t, In t ts
                /\ implb (m' (fst t)) (interp m' (snd t)) = false).
  { apply forallb_false in F. exact F. }
  destruct X as [t [I E]]. exists t. split; [exact I|].
  rewrite (L t I) in E.
  destruct (m' (fst t)) eqn:P; [|discriminate].
  simpl in E. split; [|exact E].
  unfold m' in P. destruct (mem (fst t) core) eqn:E1; [now apply Mem|].
  assert (E2 : mem (fst t) (map fst ts) = true)
    by (apply Mem; now apply in_map).
  rewrite E2 in P. discriminate.
Qed.

Section Semantics.
Variable py_eval : string -> list string -> eval_outcome.
Variable z3_check : list (string * z3expr) -> check_result.
Hypothesis contract : solver_contract z3_check.

(** X16: an unsat core is sound.  When validate_consistency returns a
    core, every id in it is the id of a constraint whose logic form was
    parsed and asserted; and if no id of an asserted constraint is also a
    variable of an asserted expression, no assignment of the variables makes
    the expressions of the constraints named by the core all true. *)
Theorem unsat_core_sound cs include_soft st r st' core :
  validate_consistency py_eval z3_check cs include_soft st = (Ok r, st') ->
  unsat_core r = Some core ->
  let active := active_of include_soft cs in
  let parsed := fst (parses py_eval active (declare_all active)) in
  (forall x, In x core -> exists c e, In (c, VExpr e) parsed /\ id c = x)
  /\ ((forall c e c' e', In (c, VExpr e) parsed -> In (c', VExpr e') parsed ->
                         ~ In (id c) (vars_of e')) ->
      forall m, exists c e,
        In (c, VExpr e) parsed /\ In (id c) core /\ interp m e = false).
Proof.
  intros E U. cbv zeta.
  destruct (active_of include_soft cs) as [|c0 l0] eqn:Ea.
  { destruct (validate_consistency_idle py_eval z3_check cs include_soft st Ea)
      as [text E'].
    rewrite E' in E. injection E as <- <-. simpl in U. discriminate U. }
  rewrite validate_consistency_active in E by (rewrite Ea; discriminate).
  rewrite Ea in E. set (active := c0 :: l0) in *.
  unfold validate_active in E. rewrite assert_all_exact in E.
  set (parsed := fst (parses py_eval active (declare_all active))) in *.
  destruct (existsb unassertable parsed); [discriminate E|].
  simpl app in E.
  destruct (z3_check (asserted parsed)) as [m0|core0| |] eqn:C;
    [| | |discriminate E].
  - injection E as <- <-. simpl in U. discriminate U.
  - unfold bind in E.
    destruct (_explain_conflicts core0 _) as [[ces|e] st2]; [|discriminate E].
    injection E as <- <-. injection U as <-.
    destruct (unsat_sound z3_check contract _ _ C) as [Sub _].
    split.
    + intros x I. apply Sub, in_map_iff in I as [t [<- I]].
      apply asserted_in in I as [c [I Ec]]. eauto.
    + intros D m.
      destruct (core_refuted z3_check (asserted parsed) core0 m contract C)
        as [t [I [J F]]].
      { intros t t' I I'. apply asserted_in in I as [c [I Ec]].
        apply asserted_in in I' as [c' [I' Ec']]. rewrite <- Ec.
        eapply D; eassumption. }
      apply asserted_in in I as [c [I Ec]]. exists c, (snd t).
      rewrite Ec. auto.
  - injection E as <- <-. simpl in U. discriminate U.
Qed.

(** X17: consistent constraints are reported consistent.  If the parser
    returns an expression or None for every constraint worked on, the ids of
    the asserted constraints are pairwise distinct and none is a variable of
    an asserted expression, and some assignment makes every asserted
    expression true, then validate_consistency returns satisfiable = true
    with status sat. *)
Theorem consistent_constraints_sat cs include_soft st m :
  let active := active_of include_soft cs in
  let parsed := fst (parses py_eval active (declare_all active)) in
  existsb unassertable parsed = false ->
  List.NoDup (map fst (asserted parsed)) ->
  (forall c e c' e', In (c, VExpr e) parsed -> In (c', VExpr e') parsed ->
                     ~ In (id c) (vars_of e')) ->
  (forall c e, In (c, VExpr e) parsed -> interp m e = true) ->
  exists r st',
    validate_consistency py_eval z3_check cs include_soft st = (Ok r, st')
    /\ satisfiable r = true /\ status r = sat.
Proof.
  cbv zeta.
  destruct (active_of include_soft cs) as [|c0 l0] eqn:Ea; intros A N D T.
  { destruct (validate_consistency_idle py_eval z3_check cs include_soft st Ea)
      as [text E'].
    rewrite E'. eauto. }
  rewrite validate_consistency_active by (rewrite Ea; discriminate).
  rewrite Ea. set (active := c0 :: l0) in *. unfold validate_active.
  rewrite assert_all_exact.
  set (parsed := fst (parses py_eval active (declare_all active))) in *.
  rewrite A. simpl app.
  destruct (decides z3_check contract (asserted parsed) N)
    as [[m0 C]|[core C]]; rewrite C.
  - eauto.
  - exfalso.
    destruct (core_refuted z3_check (asserted parsed) core m contract C)
      as [t [I [_ F]]].
    { intros t t' I I'. apply asserted_in in I as [c [I Ec]].
      apply asserted_in in I' as [c' [I' Ec']]. rewrite <- Ec.
      eapply D; eassumption. }
    apply asserted_in in I as [c [I _]]. rewrite (T _ _ I) in F.
    discriminate F.
Qed.

End Semantics.

Lemma unsat_core_sound_witness :
  exists r st' core,
    solver_contract ref_check
    /\ validate_consistency ref_eval ref_check
         [bare "c1" ["X"] "X == True"; bare "c2" ["X"] "Not(X)"] false fresh
       = (Ok r, st')
    /\ unsat_core r = Some core
    /\ let active :=
         active_of false
           [bare "c1" ["X"] "X == True"; bare "c2" ["X"] "Not(X)"] in
       let parsed := fst (parses ref_eval active (declare_all active)) in
       (forall x, In x core -> exists c e, In (c, VExpr e) parsed /\ id c = x)
       /\ ((forall c e c' e',
              In (c, VExpr e) parsed -> In (c', VExpr e') parsed ->
              ~ In (id c) (vars_of e')) ->
           forall m, exists c e,
             In (c, VExpr e) parsed /\ In (id c) core /\ interp m e = false).
Proof.
  remember (validate_consistency ref_eval ref_check
              [bare "c1" ["X"] "X == True"; bare "c2" ["X"] "Not(X)"] false
              fresh) as out eqn:E.
  assert (B : match fst out with
              | Ok r => match unsat_core r with Some _ => true | None => false end
              | Raise _ => false
              end = true) by (rewrite E; vm_compute; reflexivity).
  destruct out as [[r|e] st']; simpl in B; [|discriminate B].
  destruct (unsat_core r) as [core|] eqn:U; [|discriminate B].
  exists r, st', core.
  split; [exact ContractFacts.ref_check_contract|].
  split; [reflexivity|]. split; [exact U|].
  exact (unsat_core_sound ref_eval ref_check ContractFacts.ref_check_contract
           _ false fresh r st' core (eq_sym E) U).
Defined.

Lemma consistent_constraints_sat_witness :
  let m := fun _ : string => true in
  let active := active_of false three_constraints in
  let parsed := fst (parses ref_eval active (declare_all active)) in
  solver_contract ref_check
  /\ existsb unassertable parsed = false
  /\ List.NoDup (map fst (asserted parsed))
  /\ (forall c e c' e', In (c, VExpr e) parsed -> In (c', VExpr e') parsed ->
                        ~ In (id c) (vars_of e'))
  /\ (forall c e, In (c, VExpr e) parsed -> interp m e = true)
  /\ exists r st',
       validate_consistency ref_eval ref_check three_constraints false fresh
       = (Ok r, st')
       /\ satisfiable r = true /\ status r = sat.
Proof.
  intros m active parsed.
  assert (P : parsed
              = [ (bare "a" ["P"] "Implies(P, Q)",
                   VExpr (ZImplies (ZVar "P") (ZVar "Q")));
                  (bare "b" [] "P == True", VExpr (ZVar "P"));
                  (bare "c" ["R"] "R", VExpr (ZVar "R")) ])
    by (vm_compute; reflexivity).
  assert (A : existsb unassertable parsed = false) by (rewrite P; reflexivity).
  assert (N : List.NoDup (map fst (asserted parsed))).
  { rewrite P. cbn. repeat constructor; simpl; intuition discriminate. }
  assert (D : forall c e c' e',
             In (c, VExpr e) parsed -> In (c', VExpr e') parsed ->
             ~ In (id c) (vars_of e')).
  { rewrite P. intros c e c' e' I I'. simpl in I, I'.
    destruct I as [I|[I|[I|[]]]]; injection I as <- <-;
      destruct I' as [I'|[I'|[I'|[]]]]; injection I' as <- <-;
      simpl; intuition discriminate. }
  assert (T : forall c e, In (c, VExpr e) parsed -> interp m e = true).
  { rewrite P. intros c e I. simpl in I.
    destruct I as [I|[I|[I|[]]]]; injection I as <- <-; reflexivity. }
  split; [exact ContractFacts.ref_check_contract|].
  split; [exact A|]. split; [exact N|]. split; [exact D|]. split; [exact T|].
  exact (consistent_constraints_sat ref_eval ref_check
           ContractFacts.ref_check_contract three_constraints false fresh m
           A N D T).
Defined.

(** ** Explaining a pair *)

Lemma sourced_source p :
  well_typed (source_of p) <-> court p <> None /\ doc_type p <> None.
Proof.
  unfold well_typed, source_of. simpl. split.
  - intros [_ [C [_ D]]]. split; intros E; rewrite E in *; now simpl in *.
  - intros [C D]. destruct (court p), (doc_type p); try contradiction;
      repeat split; discriminate.
Qed.

(** What a call of [detect_authority] comes to: it raises on a source that
    is not well typed; otherwise it returns what the cache holds under the
    key of the source once the call is over, and a later call returns the
    same and leaves the cache as it is. *)
Lemma detect_authority_replay s c :
  (~ well_typed s /\ detect_authority s c = (Raise AttributeError, c))
  \/ (well_typed s
      /\ exists i c1,
           detect_authority s c = (Ok i, c1) /\ later c c1
           /\ forall c2, later c1 c2 -> detect_authority s c2 = (Ok i, c2)).
Proof.
  destruct (detect_authority_outcome s c) as [[E N]|[k [K [W H]]]].
  - left. auto.
  - right. split; [exact W|].
    assert (X : exists i c1, detect_authority s c = (Ok i, c1)).
    { destruct (c !! k) as [i|]; [eauto|]. destruct H as [i H]. eauto. }
    destruct X as [i [c1 D]]. exists i, c1. split; [exact D|].
    split.
    + replace c1 with (snd (detect_authority s c)) by now rewrite D.
      apply later_call, later_now.
    + intros c2 L. destruct (detect_authority_stores s c i c1 D)
        as [_ [k' [K' S]]].
      apply (detect_authority_hit s c2 k' i W K').
      eapply later_keeps; eassumption.
Qed.

Lemma _explain_pair_conflict_replay a b c :
  (~ explainable a b
   /\ exists c1,
        _explain_pair_conflict a b c = (Raise AttributeError, c1)
        /\ later c c1)
  \/ (explainable a b
      /\ exists ce c1,
           _explain_pair_conflict a b c = (Ok ce, c1) /\ later c c1
           /\ (forall c2, later c1 c2 ->
                 _explain_pair_conflict a b c2 = (Ok ce, c2))
           /\ constraint_a ce = to_dict a /\ constraint_b ce = to_dict b
           /\ conflict_type ce = classify a b
           /\ (resolution_available ce = true <-> authority_resolution ce <> None)).
Proof.
  unfold explainable, sourced, _explain_pair_conflict.
  destruct (provenance a) as [pa|].
  2:{ right. split; [now left|]. unfold bind, ret.
      eexists _, c. split; [reflexivity|]. split; [apply later_now|].
      split; [reflexivity|]. simpl.
      repeat split; try discriminate. intros H. now contradiction H. }
  destruct (provenance b) as [pb|].
  2:{ right. split; [now right; left|]. unfold bind, ret.
      eexists _, c. split; [reflexivity|]. split; [apply later_now|].
      split; [reflexivity|]. simpl.
      repeat split; try discriminate. intros H. now contradiction H. }
  destruct (detect_authority_replay (source_of pa) c)
    as [[Na Da]|[Wa [ia [ca [Da [La Ra]]]]]].
  { left. split.
    - intros [E|[E|[[C D] _]]]; try discriminate. apply Na.
      now apply sourced_source.
    - exists c. split; [|apply later_now].
      unfold bind at 1. unfold bind at 1. now rewrite Da. }
  destruct (detect_authority_replay (source_of pb) ca)
    as [[Nb Db]|[Wb [ib [cb [Db [Lb Rb]]]]]].
  { left. split.
    - intros [E|[E|[_ [C D]]]]; try discriminate. apply Nb.
      now apply sourced_source.
    - exists ca. split; [|exact La].
      unfold bind at 1. unfold bind at 1. rewrite Da.
      unfold bind at 1. now rewrite Db. }
  right. split.
  { right; right. split; now apply sourced_source. }
  assert (Lab : later c cb) by (eapply later_trans; eassumption).
  unfold bind at 1. unfold bind at 1. rewrite Da.
  unfold bind at 1. rewrite Db.
  destruct (negb (level_eqb (level ia) (level ib))) eqn:Lv; unfold ret.
  - eexists _, cb. split; [reflexivity|]. split; [exact Lab|]. split.
    + intros c2 L2.
      unfold bind at 1. unfold bind at 1.
      rewrite (Ra c2) by (eapply later_trans; eassumption).
      unfold bind at 1. rewrite (Rb c2 L2). rewrite Lv. reflexivity.
    + simpl. repeat split; discriminate.
  - eexists _, cb. split; [reflexivity|]. split; [exact Lab|]. split.
    + intros c2 L2.
      unfold bind at 1. unfold bind at 1.
      rewrite (Ra c2) by (eapply later_trans; eassumption).
      unfold bind at 1. rewrite (Rb c2 L2). rewrite Lv. reflexivity.
    + simpl. repeat split; try discriminate. intros H. now contradiction H.
Qed.

(** X19: _explain_pair_conflict raises AttributeError exactly when both
    constraints have a provenance and one of the two provenances has no
    court or no document type (None goes to detect_authority, which calls
    lower on it); otherwise it returns an explanation whose sides are the
    two constraints, whose type depends on their types only, and which has
    an authority resolution exactly when it says one is available. *)
Theorem _explain_pair_conflict_outcome a b cache :
  match fst (_explain_pair_conflict a b cache) with
  | Raise e => e = AttributeError /\ ~ explainable a b
  | Ok ce =>
      explainable a b
      /\ constraint_a ce = to_dict a /\ constraint_b ce = to_dict b
      /\ conflict_type ce = classify a b
      /\ (resolution_available ce = true <-> authority_resolution ce <> None)
  end.
Proof.
  destruct (_explain_pair_conflict_replay a b cache)
    as [[N [c1 [R _]]]|[X [ce [c1 [E [_ [_ H]]]]]]].
  - rewrite R. simpl. auto.
  - rewrite E. simpl. auto.
Qed.

(** ** Explaining a core *)

Lemma explain_pairs_replay (l : list (Constraint * Constraint)) c ces c1 :
  for_each (fun ab => _explain_pair_conflict (fst ab) (snd ab)) l c
  = (Ok ces, c1) ->
  later c c1
  /\ (forall c2, later c1 c2 ->
        for_each (fun ab => _explain_pair_conflict (fst ab) (snd ab)) l c2
        = (Ok ces, c2))
  /\ Forall2 (fun ab ce =>
        constraint_a ce = to_dict (fst ab)
        /\ constraint_b ce = to_dict (snd ab)
        /\ conflict_type ce = classify (fst ab) (snd ab)
        /\ (resolution_available ce = true <-> authority_resolution ce <> None))
       l ces.
Proof.
  revert c ces c1. induction l as [|ab l IH]; intros c ces c1; simpl.
  - intros [= <- <-]. split; [constructor|]. split; [reflexivity|constructor].
  - unfold bind at 1.
    destruct (_explain_pair_conflict_replay (fst ab) (snd ab) c)
      as [[_ [c0 [R _]]]|[_ [ce [ca [E [La [Ra Ha]]]]]]].
    { rewrite R. discriminate. }
    rewrite E. unfold bind at 1.
    destruct (for_each _ l ca) as [[ces0|e] cb] eqn:F; [|discriminate].
    unfold ret. intros [= <- <-].
    destruct (IH _ _ _ F) as [Lb [Rb Hb]].
    split; [eapply later_trans; eassumption|]. split.
    + intros c2 L2. unfold bind at 1.
      rewrite (Ra c2) by (eapply later_trans; eassumption).
      unfold bind at 1. now rewrite (Rb c2 L2).
    + constructor; assumption.
Qed.

Lemma _explain_conflicts_replay core st ces st' :
  _explain_conflicts core st = (Ok ces, st') ->
  constraint_db st' = constraint_db st
  /\ later (court_cache st) (court_cache st')
  /\ _explain_conflicts core st' = (Ok ces, st').
Proof.
  intros E. pose proof (_explain_conflicts_db core st) as D.
  rewrite E in D. simpl in D. split; [exact D|].
  unfold _explain_conflicts in *. rewrite D.
  destruct (omap _ core) as [|c [|c' l]].
  - injection E as <- <-. split; [constructor|reflexivity].
  - injection E as <- <-. split; [constructor|reflexivity].
  - unfold with_ranker in *.
    destruct (for_each _ _ (court_cache st)) as [[ces0|e] c1] eqn:F;
      [|discriminate E].
    injection E as <- <-. cbn [court_cache constraint_db].
    destruct (explain_pairs_replay _ _ _ _ F) as [L [R _]].
    split; [exact L|]. now rewrite (R c1 (later_now c1)).
Qed.

Lemma store_all_lookup l db x :
  store_all l db !! x
  = match stored_as x l with Some c => Some c | None => db !! x end.
Proof.
  unfold stored_as, store_all. revert db.
  induction l as [|c l IH] using rev_ind; intros db; [reflexivity|].
  rewrite fold_left_app, rev_app_distr. simpl.
  destruct (String.eqb_spec (id c) x) as [->|N].
  - now rewrite lookup_insert_eq.
  - rewrite lookup_insert_ne by assumption. apply IH.
Qed.

Lemma store_all_again l db : store_all l (store_all l db) = store_all l db.
Proof.
  apply map_eq. intros x. rewrite !store_all_lookup.
  now destruct (stored_as x l).
Qed.

(** X20: explaining again gives the same.  When validate_consistency has
    returned a core and its conflicts, a call of explain_conflict with that
    core and the constraints that were worked on returns the same
    explanations and leaves the validator as it is: the database already
    holds the constraints, and the authority model answers from its cache. *)
Theorem explain_conflict_again
    py_eval z3_check cs include_soft st r st' core :
  validate_consistency py_eval z3_check cs include_soft st = (Ok r, st') ->
  unsat_core r = Some core ->
  exists ces,
    conflicts r = Some ces
    /\ explain_conflict core (active_of include_soft cs) st' = (Ok ces, st').
Proof.
  intros E U.
  destruct (active_of include_soft cs) as [|c0 l0] eqn:Ea.
  { destruct (validate_consistency_idle py_eval z3_check cs include_soft st Ea)
      as [text E'].
    rewrite E' in E. injection E as <- <-. simpl in U. discriminate U. }
  rewrite validate_consistency_active in E by (rewrite Ea; discriminate).
  rewrite Ea in E. set (active := c0 :: l0) in *.
  unfold validate_active in E.
  destruct (assert_all py_eval active (declare_all active) [])
    as [[ts vf]|e]; [|discriminate E].
  destruct (z3_check ts) as [m|core0| |]; [| | |discriminate E].
  - injection E as <- <-. simpl in U. discriminate U.
  - unfold bind in E.
    destruct (_explain_conflicts core0 _) as [[ces|e] st2] eqn:X;
      [|discriminate E].
    injection E as <- <-. injection U as <-.
    exists ces. split; [reflexivity|].
    apply _explain_conflicts_replay in X as [D [_ X]].
    cbn [constraint_db] in D.
    unfold explain_conflict. rewrite D, store_all_again, <- D.
    destruct st2 as [db2 cache2]. exact X.
  - injection E as <- <-. simpl in U. discriminate U.
Qed.

Lemma explain_conflict_again_witness :
  exists r st' core,
    validate_consistency ref_eval ref_check
      [bare "c1" ["X"] "X == True"; bare "c2" ["X"] "Not(X)"] false fresh
    = (Ok r, st')
    /\ unsat_core r = Some core
    /\ exists ces,
         conflicts r = Some ces
         /\ explain_conflict core
              (active_of false
                 [bare "c1" ["X"] "X == True"; bare "c2" ["X"] "Not(X)"]) st'
            = (Ok ces, st').
Proof.
  remember (validate_consistency ref_eval ref_check
              [bare "c1" ["X"] "X == True"; bare "c2" ["X"] "Not(X)"] false
              fresh) as out eqn:E.
  assert (B : match fst out with
              | Ok r => match unsat_core r with Some _ => true | None => false end
              | Raise _ => false
              end = true) by (rewrite E; vm_compute; reflexivity).
  destruct out as [[r|e] st']; simpl in B; [|discriminate B].
  destruct (unsat_core r) as [core|] eqn:U; [|discriminate B].
  exists r, st', core. split; [reflexivity|]. split; [exact U|].
  exact (explain_conflict_again ref_eval ref_check _ false fresh r st' core
           (eq_sym E) U).
Defined.

Lemma pairs_length {A} (l : list A) :
  2 * length (pairs l) = length l * (length l - 1).
Proof.
  induction l as [|x l IH]; [reflexivity|].
  simpl pairs. rewrite length_app, length_map.
  destruct l as [|y l]; [reflexivity|].
  cbn [length] in *. nia.
Qed.

(** X21: a core that names no or several constraints of the database is
    explained pair by pair: the ids the database does not hold are skipped,
    and there is one explanation for each pair of the others, the earlier
    of the core as side a, in the order of the two loops; n constraints give
    n(n-1)/2 explanations.  The database is left as it is. *)
Theorem _explain_conflicts_pairs core st ces st' :
  _explain_conflicts core st = (Ok ces, st') ->
  let found := known core (constraint_db st) in
  length found <> 1 ->
  map sides ces = map (fun ab => (to_dict (fst ab), to_dict (snd ab)))
                      (pairs found)
  /\ map conflict_type ces
     = map (fun ab => classify (fst ab) (snd ab)) (pairs found)
  /\ 2 * length ces = length found * (length found - 1)
  /\ constraint_db st' = constraint_db st.
Proof.
  intros E found N.
  pose proof (_explain_conflicts_db core st) as D.
  rewrite E in D. simpl in D.
  unfold _explain_conflicts in E. fold (known core (constraint_db st)) in E.
  fold found in E.
  assert (F : exists c1,
            for_each (fun ab => _explain_pair_conflict (fst ab) (snd ab))
                     (pairs found) (court_cache st) = (Ok ces, c1)).
  { destruct found as [|c [|c' l]].
    - injection E as <- <-. simpl. eauto.
    - now contradiction N.
    - unfold with_ranker in E.
      destruct (for_each _ _ (court_cache st)) as [[ces0|e] c1];
        [|discriminate E].
      injection E as <- <-. eauto. }
  destruct F as [c1 F].
  destruct (explain_pairs_replay _ _ _ _ F) as [_ [_ H]].
  rewrite <- pairs_length.
  clear -H D. repeat split; try exact D.
  - induction H as [|ab ce l ces [Ha [Hb _]] _ IH]; [reflexivity|].
    simpl. unfold sides at 1. now rewrite Ha, Hb, IH.
  - induction H as [|ab ce l ces [_ [_ [Hc _]]] _ IH]; [reflexivity|].
    simpl. now rewrite Hc, IH.
  - f_equal. induction H; simpl; auto.
Qed.

Lemma _explain_conflicts_pairs_witness :
  let st :=
    {| constraint_db :=
         store_all [bare "c1" ["X"] "X == True"; bare "c2" ["X"] "Not(X)";
                    bare "c3" ["X"] "X != True"] ∅;
       court_cache := ∅ |} in
  let core := ["c3"; "c9"; "c1"; "c2"] in
  exists ces st',
    _explain_conflicts core st = (Ok ces, st')
    /\ let found := known core (constraint_db st) in
       length found <> 1
       /\ map sides ces
          = map (fun ab => (to_dict (fst ab), to_dict (snd ab))) (pairs found)
       /\ map conflict_type ces
          = map (fun ab => classify (fst ab) (snd ab)) (pairs found)
       /\ 2 * length ces = length found * (length found - 1)
       /\ constraint_db st' = constraint_db st.
Proof.
  intros st core.
  remember (_explain_conflicts core st) as out eqn:E.
  assert (B : match fst out with Ok _ => true | Raise _ => false end = true)
    by (rewrite E; vm_compute; reflexivity).
  destruct out as [[ces|e] st']; simpl in B; [|discriminate B].
  assert (N : length (known core (constraint_db st)) <> 1)
    by (vm_compute; discriminate).
  exists ces, st'. split; [reflexivity|]. split; [exact N|].
  exact (_explain_conflicts_pairs core st ces st' (eq_sym E) N).
Defined.

(** ** Constraints from findings that name no court *)

(** X22: the extractor copies court and document type from the finding,
    None when the finding has none.  If no finding of a batch has both, no
    two constraints extracted from the batch can be explained as a pair:
    _explain_pair_conflict raises AttributeError on each pair, whatever the
    completion service replied and whatever the cache holds. *)
Theorem extracted_pairs_raise findings w cache :
  Forall (fun f => f_court f = None \/ f_doc_type f = None) findings ->
  Forall (fun ab =>
            fst (_explain_pair_conflict (fst ab) (snd ab) cache)
            = Raise AttributeError)
         (pairs (fst (extract_constraints findings w))).
Proof.
  intros H.
  assert (P : Forall (fun c => exists p, provenance c = Some p
                        /\ (court p = None \/ doc_type p = None))
                     (fst (extract_constraints findings w))).
  { unfold extract_constraints.
    pose proof (ExtractorMore.extract_all_provenance
                  (fun f => f_court f = None \/ f_doc_type f = None)
                  findings [] w
                  (proj1 (List.Forall_forall _ _) H) (List.Forall_nil _)) as F.
    destruct (extract_all findings [] w) as [cs w']. simpl in *.
    apply List.Forall_forall. intros c I.
    apply dedup_unseen in I as [_ I].
    rewrite List.Forall_forall in F. destruct (F c I) as [f [N [_ E]]].
    exists (provenance_of f). split; [exact E|exact N]. }
  apply List.Forall_forall. intros [a b] I. apply pairs_in in I as [Ia Ib].
  rewrite List.Forall_forall in P.
  destruct (P a Ia) as [pa [Ea Na]]. destruct (P b Ib) as [pb [Eb Nb]].
  simpl.
  destruct (_explain_pair_conflict_replay a b cache)
    as [[_ [c1 [R _]]]|[X _]]; [now rewrite R|].
  exfalso. unfold explainable, sourced in X. rewrite Ea, Eb in X.
  destruct X as [X|[X|[[C D] _]]]; try discriminate.
  destruct Na; contradiction.
Qed.

Lemma extracted_pairs_raise_witness :
  Forall (fun f => f_court f = None \/ f_doc_type f = None)
         [interview_finding; interview_finding]
  /\ Forall (fun ab =>
               fst (_explain_pair_conflict (fst ab) (snd ab) ∅)
               = Raise AttributeError)
            (pairs (fst (extract_constraints
                           [interview_finding; interview_finding]
                           failing_service))).
Proof.
  assert (H : Forall (fun f => f_court f = None \/ f_doc_type f = None)
                     [interview_finding; interview_finding])
    by (repeat constructor; left; reflexivity).
  split; [exact H|].
  exact (extracted_pairs_raise [interview_finding; interview_finding]
           failing_service ∅ H).
Defined.

(** ** An id that is also a variable *)

Section Clash.
Variable py_eval : string -> list string -> eval_outcome.
Variable z3_check : list (string * z3expr) -> check_result.
Hypothesis contract : solver_contract z3_check.

(** X23: tracking constants and variables are constants of one name space.
    A single hard constraint whose logic form denies a variable (w == False,
    w != True or Not(w)) and whose id is the name of that variable is
    reported unsatisfiable, although its expression is satisfiable. *)
Theorem id_as_variable_unsat c f w sp1 sp2 rest include_soft st :
  well_named f ->
  all_chars Text.is_space sp1 = true ->
  all_chars Text.is_space sp2 = true ->
  expr_of f = ZNot (ZVar w) ->
  logic_form c = text_of f sp1 sp2 rest ->
  id c = w -> is_hard c = true -> sourced c ->
  (exists m, interp m (expr_of f) = true)
  /\ exists r st',
       validate_consistency py_eval z3_check [c] include_soft st = (Ok r, st')
       /\ satisfiable r = false /\ status r = unsat.
Proof.
  intros N S1 S2 X L I Hh Sc. split.
  { exists (fun _ => false). now rewrite X. }
  assert (Ea : active_of include_soft [c] = [c]).
  { unfold active_of, List.filter. now rewrite Hh, orb_true_r. }
  rewrite validate_consistency_active by (rewrite Ea; discriminate).
  rewrite Ea. unfold validate_active. rewrite assert_all_exact.
  assert (P : fst (parses py_eval [c] (declare_all [c]))
              = [(c, VExpr (ZNot (ZVar w)))]).
  { simpl parses. rewrite L.
    destruct f as [w0 b|w0 b|w0|a b|a b|a b]; simpl in X;
      try discriminate X; apply List.Forall_inv in N as W.
    - destruct b; [discriminate X|]. injection X as ->.
      now rewrite GrammarFacts.parse_equals by assumption.
    - destruct b; [|discriminate X]. injection X as ->.
      now rewrite GrammarFacts.parse_differs by assumption.
    - injection X as ->.
      now rewrite GrammarFacts.parse_negated by assumption. }
  rewrite P. simpl existsb. cbv iota. unfold asserted. simpl omap.
  rewrite I. simpl app.
  set (ts := [(w, ZNot (ZVar w))]).
  destruct (decides z3_check contract ts) as [[m C]|[core C]].
  { repeat constructor. intros []. }
  - exfalso. apply (sat_sound z3_check contract) in C.
    unfold satisfies in C. simpl in C. destruct (m w); discriminate C.
  - rewrite C.
    destruct (unsat_sound z3_check contract ts core C) as [Sub _].
    unfold bind.
    match goal with |- context [_explain_conflicts core ?s] =>
      destruct (_explain_conflicts_returns core s) as [ces [st2 [F _]]]
    end.
    { apply List.Forall_forall. intros c' Hc.
      apply list_elem_of_In, list_elem_of_omap in Hc as [x [Hx Hl]].
      apply list_elem_of_In, Sub in Hx. simpl in Hx.
      destruct Hx as [<-|[]].
      cbn [constraint_db] in Hl. unfold store_all in Hl. simpl in Hl.
      rewrite I, lookup_insert_eq in Hl. now injection Hl as <-. }
    rewrite F. eexists _, st2. split; [reflexivity|].
    split; reflexivity.
Qed.

End Clash.

Lemma id_as_variable_unsat_witness :
  let c := bare "X" ["X"] "X == False" in
  solver_contract ref_check
  /\ well_named (Equals "X" false)
  /\ all_chars Text.is_space " " = true
  /\ all_chars Text.is_space " " = true
  /\ expr_of (Equals "X" false) = ZNot (ZVar "X")
  /\ logic_form c = text_of (Equals "X" false) " " " " ""
  /\ id c = "X" /\ is_hard c = true /\ sourced c
  /\ (exists m, interp m (expr_of (Equals "X" false)) = true)
  /\ exists r st',
       validate_consistency ref_eval ref_check [c] false fresh = (Ok r, st')
       /\ satisfiable r = false /\ status r = unsat.
Proof.
  intros c.
  assert (N : well_named (Equals "X" false)) by (repeat constructor).
  split; [exact ContractFacts.ref_check_contract|].
  split; [exact N|]. do 6 (split; [reflexivity|]). split; [exact I|].
  exact (id_as_variable_unsat ref_eval ref_check
           ContractFacts.ref_check_contract c (Equals "X" false) "X"
           " " " " "" false fresh N eq_refl eq_refl eq_refl eq_refl eq_refl
           eq_refl I).
Defined.

End ValidatorMore.

(* ===================================================================== *)
(** * The levels the authority model assigns *)
(* ===================================================================== *)

Module AuthorityLevels.
Import Authority Spec AuthoritySpec AuthorityFacts.

Lemma first_level_keys items text :
  first_level items text = UNKNOWN
  \/ In (first_level items text) (map fst items).
Proof.
  induction items as [|[lvl patterns] items IH]; simpl; [now left|].
  destruct (existsb _ patterns); [right; now left|].
  destruct IH as [IH|IH]; [now left|right; now right].
Qed.

Lemma _detect_from_text_levels text :
  In (_detect_from_text text)
     [UNKNOWN; SUPREME_COURT; CIRCUIT_COURT; DISTRICT_COURT; TRIAL_COURT].
Proof.
  unfold _detect_from_text.
  destruct (first_level_keys COURT_PATTERNS (Text.lower text)) as [E|I].
  - rewrite E. now left.
  - right. revert I. generalize (first_level COURT_PATTERNS (Text.lower text)).
    intros l I. vm_compute in I. simpl. tauto.
Qed.

Lemma detect_uncached_levels t ct q ty :
  In (level (detect_uncached t ct q ty)) assigned.
Proof.
  unfold detect_uncached. cbn [level].
  pose proof (_detect_from_text_levels ct) as Hc.
  pose proof (_detect_from_text_levels t) as Ht.
  pose proof (_detect_from_text_levels q) as Hq.
  revert Hc Ht Hq.
  generalize (_detect_from_text ct), (_detect_from_text t),
             (_detect_from_text q).
  intros lc lt lq Hc Ht Hq.
  destruct (any_in ["fd-302"; "fbi"; "interview"; "statement"] ty),
           (any_in ["indictment"; "motion"; "filing"] ty),
           (any_in ["email"; "memo"; "document"] ty);
    simpl in Hc, Ht, Hq;
    repeat match goal with
           | H : _ \/ _ |- _ => destruct H as [<-|H]
           | H : False |- _ => destruct H
           end;
    vm_compute; tauto.
Qed.

Lemma detect_authority_levels_step s c :
  (forall k i, c !! k = Some i -> In (level i) assigned) ->
  forall k i, snd (detect_authority s c) !! k = Some i -> In (level i) assigned.
Proof.
  intros H. destruct s as [t ct q ty d]; destruct t, ct, q, ty;
    unfold detect_authority, bind, lift;
    cbn -[detect_uncached String.append lookup insert assigned];
    try exact H;
    match goal with |- context [c !! ?k0] => destruct (c !! k0) eqn:L end;
    cbn -[detect_uncached String.append lookup insert assigned]; try exact H;
    intros k i; rewrite lookup_insert;
    (case_decide; [intros [= <-]; apply detect_uncached_levels|apply H]).
Qed.

Lemma later_levels c c' :
  later c c' ->
  (forall k i, c !! k = Some i -> In (level i) assigned) ->
  forall k i, c' !! k = Some i -> In (level i) assigned.
Proof.
  induction 1 as [|c c' src L IH]; intros Hc; [assumption|].
  apply detect_authority_levels_step. exact (IH Hc).
Qed.

(** X24: on a ranker that started with an empty cache, detect_authority
    only ever returns five of the eight levels: SUPREME_COURT,
    CIRCUIT_COURT (which is also what a state supreme court gets),
    DISTRICT_COURT, TRIAL_COURT and WITNESS_STATEMENT (which is also
    DOCUMENT_EVIDENCE); never ADMINISTRATIVE, SECONDARY_SOURCE or UNKNOWN.
    The names that can appear in a resolution are the names of these
    five. *)
Theorem detect_authority_levels s c i c' :
  later ∅ c ->
  detect_authority s c = (Ok i, c') ->
  In (level i) assigned
  /\ In (name (level i))
        ["SUPREME_COURT"; "CIRCUIT_COURT"; "DISTRICT_COURT"; "TRIAL_COURT";
         "WITNESS_STATEMENT"].
Proof.
  intros L D.
  assert (A : In (level i) assigned).
  { pose proof (later_call ∅ c s L) as L'. rewrite D in L'. simpl in L'.
    apply detect_authority_stores in D as [_ [k [_ S]]].
    apply (later_levels ∅ c' L') with (k := k); [|assumption].
    intros k0 i0 E. rewrite lookup_empty in E. discriminate. }
  split; [exact A|].
  unfold assigned in A. simpl in A.
  repeat (destruct A as [<-|A]; [simpl; tauto|]). destruct A.
Qed.

Lemma detect_authority_levels_witness :
  exists i c',
    later ∅ (snd (detect_authority (court_only "9th circuit") ∅))
    /\ detect_authority smith_v_jones
         (snd (detect_authority (court_only "9th circuit") ∅)) = (Ok i, c')
    /\ In (level i) assigned
    /\ In (name (level i))
          ["SUPREME_COURT"; "CIRCUIT_COURT"; "DISTRICT_COURT"; "TRIAL_COURT";
           "WITNESS_STATEMENT"].
Proof.
  assert (L : later ∅ (snd (detect_authority (court_only "9th circuit") ∅)))
    by apply later_call, later_now.
  destruct (detect_authority_returns smith_v_jones
              (snd (detect_authority (court_only "9th circuit") ∅)))
    as [i [c' [D _]]]; [repeat split; discriminate|].
  exists i, c'. split; [exact L|]. split; [exact D|].
  exact (detect_authority_levels smith_v_jones _ i c' L D).
Defined.

End AuthorityLevels.

(* ===================================================================== *)
(** * The model as facts *)
(* ===================================================================== *)

Module ReportFacts.
Import Extractor Validator Contract Spec ValidatorSpec Report.
Import ValidatorFacts ValidatorMore.

Lemma declare_NoDup x vars : List.NoDup vars -> List.NoDup (declare x vars).
Proof.
  intros N. unfold declare. case_bool_decide as E; [exact N|].
  apply (Permutation_NoDup (Permutation_cons_append vars x)).
  constructor; [|exact N]. intros I. apply E. now apply list_elem_of_In.
Qed.

Lemma declare_list_NoDup xs vars :
  List.NoDup vars -> List.NoDup (fold_left (fun vs y => declare y vs) xs vars).
Proof.
  revert vars. induction xs as [|x xs IH]; intros vars N; simpl; [exact N|].
  apply IH. now apply declare_NoDup.
Qed.

Lemma declare_all_NoDup active : List.NoDup (declare_all active).
Proof.
  unfold declare_all.
  assert (G : forall vars, List.NoDup vars ->
            List.NoDup (fold_left
              (fun z3_vars c =>
                 fold_left (fun vs x => declare x vs) (variables c) z3_vars)
              active vars)).
  { induction active as [|c active IH]; intros vars N; simpl; [exact N|].
    apply IH. now apply declare_list_NoDup. }
  apply G. constructor.
Qed.

Section Tables.
Variable py_eval : string -> list string -> eval_outcome.

Lemma parse_NoDup lf vars :
  List.NoDup vars -> List.NoDup (snd (_parse_logic_to_z3 py_eval lf vars)).
Proof.
  intros H. unfold _parse_logic_to_z3.
  destruct (negb (Text.truthy lf)); [assumption|].
  repeat (destruct (Re.re_match _ _ lf);
          [simpl; repeat apply declare_NoDup; assumption|]).
  destruct (py_eval lf vars); assumption.
Qed.

Lemma parses_NoDup active vars :
  List.NoDup vars -> List.NoDup (snd (parses py_eval active vars)).
Proof.
  revert vars. induction active as [|c active IH]; intros vars H; simpl;
    [assumption|].
  pose proof (parse_NoDup (logic_form c) vars H) as K.
  destruct (_parse_logic_to_z3 py_eval (logic_form c) vars) as [v vars1].
  specialize (IH vars1 K).
  destruct (parses py_eval active vars1) as [l vf]. exact IH.
Qed.

(** The model of a result gives a value to each variable of the final
    table, in the order of the table. *)
Lemma validate_consistency_model_keys z3_check cs include_soft st r st' mv :
  validate_consistency py_eval z3_check cs include_soft st = (Ok r, st') ->
  model r = Some mv ->
  let active := active_of include_soft cs in
  map fst mv = snd (parses py_eval active (declare_all active)).
Proof.
  intros E U. cbv zeta.
  destruct (active_of include_soft cs) as [|c0 l0] eqn:Ea.
  { destruct (validate_consistency_idle py_eval z3_check cs include_soft st Ea)
      as [text E'].
    rewrite E' in E. injection E as <- <-. simpl in U. discriminate U. }
  rewrite validate_consistency_active in E by (rewrite Ea; discriminate).
  rewrite Ea in E. set (active := c0 :: l0) in *.
  unfold validate_active in E. rewrite assert_all_exact in E.
  destruct (existsb unassertable _); [discriminate E|].
  destruct (z3_check _) as [m|core| |]; [| | |discriminate E].
  - injection E as <- <-. simpl in U. injection U as <-.
    rewrite map_map. simpl. apply map_id.
  - unfold bind in E.
    destruct (_explain_conflicts core _) as [[ces|e] st2]; [|discriminate E].
    injection E as <- <-. simpl in U. discriminate U.
  - injection E as <- <-. simpl in U. discriminate U.
Qed.

End Tables.

Lemma uses_in x c : uses x c = true <-> In x (variables c).
Proof.
  unfold uses. rewrite existsb_exists. split.
  - intros [y [I E]]. apply String.eqb_eq in E. now subst.
  - intros I. exists x. split; [exact I|apply String.eqb_refl].
Qed.

Lemma fact_sources_in x cs s :
  In s (omap (fun c =>
                match provenance c with
                | Some p =>
                    Some {| fs_doc_title := doc_title p;
                            fs_quote := Text.take 200 (quote p);
                            fs_constraint := natural_language c |}
                | None => None
                end) (List.filter (uses x) cs))
  <-> exists c, In c cs /\ In x (variables c) /\ source_from c s.
Proof.
  rewrite <- list_elem_of_In, list_elem_of_omap. split.
  - intros [c [I E]]. apply list_elem_of_In, filter_In in I as [I U].
    exists c. split; [exact I|]. split; [now apply uses_in|].
    destruct (provenance c) as [p|] eqn:P; [|discriminate E].
    injection E as <-. exists p. auto.
  - intros [c [I [U [p [P [E1 [E2 E3]]]]]]]. exists c. split.
    + apply list_elem_of_In, filter_In. split; [exact I|now apply uses_in].
    + rewrite P. f_equal. destruct s. simpl in *. now subst.
Qed.

(** X25: get_model_as_facts on the model of a validation and the validated
    constraints returns one fact per variable of the final variable table,
    in its order and without repetition, worded [name is True] or
    [name is False]; the sources of a fact are exactly what the constraints
    that list the variable and have a provenance give (document title,
    first 200 characters of the quote, natural-language text), so every
    variable listed by a constraint that was worked on and has a provenance
    has that constraint among its sources, and a variable that only the
    parser introduced has none. *)
Theorem get_model_as_facts_of_validation
    py_eval z3_check cs include_soft st r st' mv :
  validate_consistency py_eval z3_check cs include_soft st = (Ok r, st') ->
  model r = Some mv ->
  let active := active_of include_soft cs in
  let facts := get_model_as_facts mv cs in
  map fact_variable facts = snd (parses py_eval active (declare_all active))
  /\ List.NoDup (map fact_variable facts)
  /\ Forall (fun f =>
       fact_natural_language f
       = fact_variable f +:+ " is " +:+ str_of_bool (fact_value f)
       /\ (forall s, In s (fact_sources f) <->
             exists c, In c cs /\ In (fact_variable f) (variables c)
                       /\ source_from c s)
       /\ Forall (fun s => String.length (fs_quote s) <= 200)
                 (fact_sources f)) facts
  /\ (forall c x, In c active -> In x (variables c) -> provenance c <> None ->
        exists f s, In f facts /\ fact_variable f = x
                    /\ In s (fact_sources f) /\ source_from c s).
Proof.
  intros E U active facts.
  pose proof (validate_consistency_model_keys py_eval z3_check cs include_soft
                st r st' mv E U) as K.
  fold active in K.
  assert (V : map fact_variable facts = map fst mv).
  { unfold facts, get_model_as_facts. rewrite map_map. reflexivity. }
  assert (F : Forall (fun f =>
       fact_natural_language f
       = fact_variable f +:+ " is " +:+ str_of_bool (fact_value f)
       /\ (forall s, In s (fact_sources f) <->
             exists c, In c cs /\ In (fact_variable f) (variables c)
                       /\ source_from c s)
       /\ Forall (fun s => String.length (fs_quote s) <= 200)
                 (fact_sources f)) facts).
  { apply List.Forall_forall. intros f I.
    apply in_map_iff in I as [[x b] [<- _]]. cbn [fact_natural_language
      fact_variable fact_value fact_sources fst snd].
    split; [reflexivity|]. split; [intros s; apply fact_sources_in|].
    apply List.Forall_forall. intros s Hs.
    apply fact_sources_in in Hs as [c [_ [_ [p [_ [_ [Q _]]]]]]].
    rewrite Q. apply ExtractorMore.take_length. }
  split; [now rewrite V|]. split.
  { rewrite V, K. apply parses_NoDup, declare_all_NoDup. }
  split; [exact F|].
  intros c x Ic Ix P.
  assert (Hx : In x (map fact_variable facts)).
  { rewrite V, K. apply parses_keeps.
    eapply declare_all_declares; eassumption. }
  apply in_map_iff in Hx as [f [Ef If]]. subst x.
  rewrite List.Forall_forall in F. destruct (F f If) as [_ [S _]].
  destruct (provenance c) as [p|] eqn:Ep; [|now contradiction P].
  set (s := {| fs_doc_title := doc_title p;
               fs_quote := Text.take 200 (quote p);
               fs_constraint := natural_language c |}).
  assert (Sf : source_from c s) by (exists p; repeat split; assumption).
  exists f, s. split; [exact If|]. split; [reflexivity|].
  split; [|exact Sf]. apply S. exists c. split; [|split; assumption].
  unfold active, active_of in Ic. now apply filter_In in Ic as [Ic _].
Qed.

Lemma get_model_as_facts_of_validation_witness :
  exists r st' mv,
    validate_consistency ref_eval ref_check three_constraints false fresh
    = (Ok r, st')
    /\ model r = Some mv
    /\ let active := active_of false three_constraints in
       let facts := get_model_as_facts mv three_constraints in
       map fact_variable facts
       = snd (parses ref_eval active (declare_all active))
       /\ List.NoDup (map fact_variable facts)
       /\ Forall (fun f =>
            fact_natural_language f
            = fact_variable f +:+ " is " +:+ str_of_bool (fact_value f)
            /\ (forall s, In s (fact_sources f) <->
                  exists c, In c three_constraints
                            /\ In (fact_variable f) (variables c)
                            /\ source_from c s)
            /\ Forall (fun s => String.length (fs_quote s) <= 200)
                      (fact_sources f)) facts
       /\ (forall c x, In c active -> In x (variables c) ->
             provenance c <> None ->
             exists f s, In f facts /\ fact_variable f = x
                         /\ In s (fact_sources f) /\ source_from c s).
Proof.
  remember (validate_consistency ref_eval ref_check three_constraints false
              fresh) as out eqn:E.
  assert (B : match fst out with
              | Ok r => match model r with Some _ => true | None => false end
              | Raise _ => false
              end = true) by (rewrite E; vm_compute; reflexivity).
  destruct out as [[r|e] st']; simpl in B; [|discriminate B].
  destruct (model r) as [mv|] eqn:U; [|discriminate B].
  exists r, st', mv. split; [reflexivity|]. split; [exact U|].
  exact (get_model_as_facts_of_validation ref_eval ref_check three_constraints
           false fresh r st' mv (eq_sym E) U).
Defined.

End ReportFacts.

(* ===================================================================== *)
(** * Constraint dicts and constraints *)
(* ===================================================================== *)

Module ServerFacts.
Import Extractor Spec Server.

Lemma type_of_value_value t : type_of_value (type_value t) = Some t.
Proof. now destruct t. Qed.

Lemma get_optional_to_entry {A} (o : option A) : get_optional (to_entry o) = o.
Proof. now destruct o. Qed.

Lemma rehydrate_to_wire default_id c :
  rehydrate default_id (to_wire (to_dict c)) = Some c.
Proof.
  unfold rehydrate, to_wire, to_dict. cbn [w_provenance w_constraint_type
    w_id w_subject w_predicate w_variables w_logic_form w_natural_language
    w_confidence w_is_hard d_id d_constraint_type d_subject d_predicate
    d_variables d_logic_form d_natural_language d_confidence d_provenance
    d_is_hard get1].
  rewrite type_of_value_value, get_optional_to_entry.
  destruct c as [i ty sb pr vs lf nl cf [p|] ih]; cbn; [|reflexivity].
  rewrite !get_optional_to_entry. now destruct p.
Qed.

Lemma convert_numbered_to_wire cs acc :
  convert_numbered (map (fun c => to_wire (to_dict c)) cs) acc
  = Some (acc ++ cs).
Proof.
  revert acc. induction cs as [|c cs IH]; intros acc; simpl.
  - now rewrite app_nil_r.
  - rewrite rehydrate_to_wire, IH, <- app_assoc. reflexivity.
Qed.

Lemma convert_plain_to_wire cs acc :
  convert_plain (map (fun c => to_wire (to_dict c)) cs) acc
  = Some (acc ++ cs).
Proof.
  revert acc. induction cs as [|c cs IH]; intros acc; simpl.
  - now rewrite app_nil_r.
  - rewrite rehydrate_to_wire, IH, <- app_assoc. reflexivity.
Qed.

(** X26: the constraint dicts that to_dict writes are read back exactly.
    The conversion loops of validate_consistency_tool and of
    explain_conflict_tool, given the dicts of a list of constraints (every
    key present, null for None), rebuild that list: same ids, types, logic
    forms and provenances, and no default is used. *)
Theorem convert_to_dict cs :
  convert_numbered (map (fun c => to_wire (to_dict c)) cs) [] = Some cs
  /\ convert_plain (map (fun c => to_wire (to_dict c)) cs) [] = Some cs.
Proof.
  split; [apply convert_numbered_to_wire|apply convert_plain_to_wire].
Qed.

Lemma convert_numbered_spec ws acc l :
  convert_numbered ws acc = Some l ->
  exists l',
    l = acc ++ l'
    /\ forall i w, nth_error ws i = Some w ->
         exists c, nth_error l' i = Some c
                   /\ rehydrate (fallback_id (length acc + i)) w = Some c.
Proof.
  revert acc l. induction ws as [|w0 ws IH]; intros acc l; simpl.
  - intros [= <-]. exists []. split; [now rewrite app_nil_r|].
    intros [|i] w; discriminate.
  - destruct (rehydrate _ w0) as [c0|] eqn:R; [|discriminate].
    intros E. destruct (IH _ _ E) as [l' [-> H]].
    exists (c0 :: l'). split; [now rewrite <- app_assoc|].
    intros [|i] w; simpl.
    + intros [= <-]. exists c0. split; [reflexivity|].
      unfold fallback_id. now rewrite Nat.add_0_r.
    + intros Hw. destruct (H i w Hw) as [c [Hc Rc]]. exists c.
      split; [exact Hc|].
      rewrite length_app in Rc. simpl in Rc.
      now replace (length acc + S i) with (length acc + 1 + i) by lia.
Qed.

Lemma convert_plain_spec ws acc l :
  convert_plain ws acc = Some l ->
  exists l',
    l = acc ++ l'
    /\ forall i w, nth_error ws i = Some w ->
         exists c, nth_error l' i = Some c /\ rehydrate "" w = Some c.
Proof.
  revert acc l. induction ws as [|w0 ws IH]; intros acc l; simpl.
  - intros [= <-]. exists []. split; [now rewrite app_nil_r|].
    intros [|i] w; discriminate.
  - destruct (rehydrate _ w0) as [c0|] eqn:R; [|discriminate].
    intros E. destruct (IH _ _ E) as [l' [-> H]].
    exists (c0 :: l'). split; [now rewrite <- app_assoc|].
    intros [|i] w; simpl.
    + intros [= <-]. exists c0. split; [reflexivity|exact R].
    + apply H.
Qed.

Lemma rehydrate_default_id default_id cd c :
  w_id cd = None -> rehydrate default_id cd = Some c -> id c = default_id.
Proof.
  unfold rehydrate. intros N. rewrite N.
  destruct (type_of_value _); [|discriminate]. now intros [= <-].
Qed.

Lemma rehydrate_typed default_id cd :
  typed cd = true -> exists c, rehydrate default_id cd = Some c.
Proof.
  unfold typed, rehydrate. destruct (type_of_value _); [eauto|discriminate].
Qed.

Lemma convert_numbered_returns ws acc :
  Forall (fun cd => typed cd = true) ws ->
  exists l, convert_numbered ws acc = Some l.
Proof.
  intros F. revert acc. induction F as [|cd ws T _ IH]; intros acc; simpl.
  - eauto.
  - destruct (rehydrate_typed (fallback_id (length acc)) cd T) as [c R].
    unfold fallback_id in R. rewrite R. apply IH.
Qed.

Lemma convert_plain_returns ws acc :
  Forall (fun cd => typed cd = true) ws ->
  exists l, convert_plain ws acc = Some l.
Proof.
  intros F. revert acc. induction F as [|cd ws T _ IH]; intros acc; simpl.
  - eauto.
  - destruct (rehydrate_typed "" cd T) as [c R]. rewrite R. apply IH.
Qed.

(** X27: a dict without an id gets a default that depends on the tool.  In
    validate_consistency_tool it is c_ and the number of dicts before it in
    the request, counted from 0, whatever ids those dicts have: it can
    coincide with the id of another constraint of the request.  In
    explain_conflict_tool it is the empty string.  (The conversions return
    when every type given is the value of a ConstraintType.) *)
Theorem default_ids before cd after :
  w_id cd = None ->
  Forall (fun w => typed w = true) (before ++ cd :: after) ->
  exists l l' c c',
    convert_numbered (before ++ cd :: after) [] = Some l
    /\ convert_plain (before ++ cd :: after) [] = Some l'
    /\ nth_error l (length before) = Some c
    /\ id c = fallback_id (length before)
    /\ nth_error l' (length before) = Some c'
    /\ id c' = "".
Proof.
  intros N T.
  assert (W : nth_error (before ++ cd :: after) (length before) = Some cd).
  { rewrite nth_error_app2 by lia. now rewrite Nat.sub_diag. }
  destruct (convert_numbered_returns _ [] T) as [l E].
  destruct (convert_plain_returns _ [] T) as [l' E'].
  exists l, l'.
  pose proof E as S. apply convert_numbered_spec in S as [l0 [-> H]].
  pose proof E' as S'. apply convert_plain_spec in S' as [l0' [-> H']].
  destruct (H _ _ W) as [c [Hc R]]. destruct (H' _ _ W) as [c' [Hc' R']].
  exists c, c'. repeat split; try assumption.
  - exact (rehydrate_default_id _ _ _ N R).
  - exact (rehydrate_default_id _ _ _ N R').
Qed.

Lemma default_ids_witness :
  let before := [to_wire (to_dict (bare "c_1" ["X"] "X == True"))] in
  w_id empty_dict = None
  /\ Forall (fun w => typed w = true) (before ++ empty_dict :: [])
  /\ exists l l' c c',
       convert_numbered (before ++ empty_dict :: []) [] = Some l
       /\ convert_plain (before ++ empty_dict :: []) [] = Some l'
       /\ nth_error l (length before) = Some c
       /\ id c = fallback_id (length before)
       /\ nth_error l' (length before) = Some c'
       /\ id c' = "".
Proof.
  intros before.
  assert (T : Forall (fun w => typed w = true) (before ++ empty_dict :: []))
    by (repeat constructor).
  split; [reflexivity|]. split; [exact T|].
  exact (default_ids before empty_dict [] eq_refl T).
Defined.

End ServerFacts.

(* ===================================================================== *)
(** * The constraints as a Z3 script *)
(* ===================================================================== *)

Module FormatterFacts.
Import Extractor Spec Formatter.

Lemma prefix_after a t :
  String.prefix a t = true -> t = a +:+ after (String.length a) t.
Proof.
  revert t. induction a as [|c a IH]; intros t.
  - reflexivity.
  - destruct t as [|c' t]; simpl; [intros [=]|].
    destruct (ascii_dec c c') as [->|]; [|intros [=]].
    intros P. change (String c' a +:+ ?x) with (String c' (a +:+ x)).
    now rewrite <- IH.
Qed.

(** Writing [old] for [old] changes nothing. *)
Lemma substitute_same occurs old prev skip s :
  (forall p t, occurs p t = true -> String.prefix old t = true) ->
  old <> "" ->
  substitute occurs old old prev skip s = after skip s.
Proof.
  intros P N. revert prev skip. induction s as [|c s IH]; intros prev skip.
  - now destruct skip.
  - simpl. destruct skip as [|k]; [|apply IH].
    destruct (occurs prev (String c s)) eqn:O.
    + apply P, prefix_after in O. rewrite IH.
      destruct old as [|c0 old]; [now contradiction N|].
      simpl in O. simpl. rewrite Nat.sub_0_r.
      change (String c0 old +:+ ?x) with (String c0 (old +:+ x)) in *.
      injection O as -> O. now rewrite <- O.
    + now rewrite IH.
Qed.

Lemma replace_same old s : old <> "" -> replace old old s = s.
Proof.
  intros N. unfold replace. rewrite substitute_same; auto.
Qed.

Lemma sub_word_same word s : word <> "" -> sub_word word word s = s.
Proof.
  intros N. unfold sub_word. rewrite substitute_same; auto.
  intros p t H. apply andb_true_iff in H as [H _].
  now apply andb_true_iff in H as [_ H].
Qed.

(** X28: _to_z3_expression returns its argument: each of its four
    substitutions writes what it finds. *)
Theorem _to_z3_expression_identity logic_form :
  _to_z3_expression logic_form = logic_form.
Proof.
  unfold _to_z3_expression.
  rewrite !sub_word_same by discriminate.
  now rewrite !replace_same by discriminate.
Qed.

(** ** The declarations *)

Lemma expression_kept logic_form : _to_z3_expression logic_form = logic_form.
Proof.
  unfold _to_z3_expression.
  rewrite !sub_word_same by discriminate.
  now rewrite !replace_same by discriminate.
Qed.

(** ** The declarations *)

Lemma compare_lt_gt a b : String.compare a b = Gt <-> String.compare b a = Lt.
Proof.
  rewrite (String.compare_antisym b a).
  destruct (String.compare a b); simpl; split; congruence.
Qed.

Lemma compare_lt_trans a b c :
  String.compare a b = Lt -> String.compare b c = Lt ->
  String.compare a c = Lt.
Proof.
  intros H1 H2.
  assert (N : String.compare a c <> Gt).
  { apply (AuthorityMore.string_compare_trans a b c); congruence. }
  destruct (String.compare a c) eqn:E; [|reflexivity|now contradiction N].
  apply String.compare_eq_iff in E. subst c.
  apply compare_lt_gt in H2. congruence.
Qed.

Lemma add_var_in x l y : In y (add_var x l) <-> y = x \/ In y l.
Proof.
  induction l as [|z l IH]; simpl; [intuition|].
  destruct (String.compare x z) eqn:E; simpl.
  - apply String.compare_eq_iff in E. subst z. intuition.
  - intuition.
  - rewrite IH. intuition.
Qed.

Lemma add_var_increasing x l : increasing l -> increasing (add_var x l).
Proof.
  unfold increasing. induction 1 as [|z l S IH F]; simpl.
  - repeat constructor.
  - destruct (String.compare x z) eqn:E.
    + now constructor.
    + constructor; [now constructor|]. constructor; [exact E|].
      eapply List.Forall_impl; [|exact F]. simpl. intros y Hy.
      eapply compare_lt_trans; eassumption.
    + constructor; [exact IH|].
      apply List.Forall_forall. intros y Hy.
      apply add_var_in in Hy as [->|Hy]; [now apply compare_lt_gt|].
      rewrite List.Forall_forall in F. now apply F.
Qed.

Lemma sorted_vars_spec cs :
  increasing (sorted_vars cs)
  /\ forall x, In x (sorted_vars cs) <->
               exists c, In c cs /\ In x (variables c).
Proof.
  unfold sorted_vars.
  assert (V : forall xs acc,
            increasing acc ->
            increasing (fold_left (fun vs x => add_var x vs) xs acc)
            /\ forall y, In y (fold_left (fun vs x => add_var x vs) xs acc)
                         <-> In y xs \/ In y acc).
  { induction xs as [|x xs IH]; intros acc A; simpl.
    - split; [exact A|]. intuition.
    - destruct (IH (add_var x acc) (add_var_increasing x acc A)) as [I M].
      split; [exact I|]. intros y. rewrite M, add_var_in. intuition. }
  assert (G : forall acc,
            increasing acc ->
            increasing
              (fold_left (fun all_vars c =>
                            fold_left (fun vs x => add_var x vs)
                                      (variables c) all_vars) cs acc)
            /\ forall y,
                 In y (fold_left (fun all_vars c =>
                                    fold_left (fun vs x => add_var x vs)
                                              (variables c) all_vars) cs acc)
                 <-> (exists c, In c cs /\ In y (variables c)) \/ In y acc).
  { induction cs as [|c cs IH]; intros acc A; simpl.
    - split; [exact A|]. intros y. split; [auto|].
      intros [[c [[] _]]|H]; exact H.
    - destruct (V (variables c) acc A) as [I M].
      destruct (IH _ I) as [I' M']. split; [exact I'|].
      intros y. rewrite M', M. split.
      + intros [[c' [Hc Hy]]|[Hy|Hy]]; eauto 6.
      + intros [[c' [[<-|Hc] Hy]]|Hy]; eauto 6. }
  destruct (G [] ltac:(constructor)) as [I M]. split; [exact I|].
  intros x. rewrite M. split; [intros [H|[]]; exact H|auto].
Qed.

(** ** The lines *)

Lemma constraint_lines_spec cs lines :
  (Exists (fun c => provenance c = None) cs
   /\ constraint_lines cs lines = Raise AttributeError)
  \/ (Forall (fun c => provenance c <> None) cs
      /\ exists new,
           constraint_lines cs lines = Ok (lines ++ new)
           /\ length new = 2 * length cs
           /\ forall c p, In c cs -> provenance c = Some p ->
                          In (add_line c (doc_title p)) new).
Proof.
  revert lines. induction cs as [|c cs IH]; intros lines; simpl.
  - right. split; [constructor|]. exists []. rewrite app_nil_r.
    repeat split. intros c p [].
  - rewrite expression_kept.
    destruct (provenance c) as [p|] eqn:P.
    + match goal with |- context [constraint_lines cs ?l] =>
        destruct (IH l) as [[X R]|[F [new [R [L H]]]]]
      end.
      * left. split; [now right|exact R].
      * right. split; [constructor; [congruence|exact F]|].
        eexists (_ :: _ :: new). rewrite R, <- !app_assoc. simpl.
        split; [reflexivity|]. split; [lia|].
        intros c' p' [<-|I] P'.
        -- right. left. unfold add_line. congruence.
        -- right. right. now apply H.
    + left. split; [now left|reflexivity].
Qed.

Lemma firstn_front {A B} (f : A -> B) l r :
  firstn (length l) (map f l ++ r) = map f l.
Proof. induction l as [|x l IH]; simpl; [reflexivity|now rewrite IH]. Qed.

(** X29: format_for_z3 raises AttributeError exactly when a constraint has
    no provenance.  Otherwise the script has 10 lines, one more for each
    distinct variable and two more for each constraint: after the three
    opening lines come the declarations, one per variable that a constraint
    lists, in strictly increasing order of the names; and for each
    constraint there is the line solver.add(...) with its logic form,
    unchanged, and the title of its document. *)
Theorem format_for_z3_outcome cs :
  match format_for_z3 cs with
  | Raise e => e = AttributeError /\ Exists (fun c => provenance c = None) cs
  | Ok text =>
      Forall (fun c => provenance c <> None) cs
      /\ exists lines,
           text = String.concat line_feed lines
           /\ length lines = 10 + length (sorted_vars cs) + 2 * length cs
           /\ firstn (length (sorted_vars cs)) (skipn 3 lines)
              = map declaration (sorted_vars cs)
           /\ increasing (sorted_vars cs)
           /\ (forall x, In x (sorted_vars cs) <->
                         exists c, In c cs /\ In x (variables c))
           /\ forall c p, In c cs -> provenance c = Some p ->
                          In (add_line c (doc_title p)) lines
  end.
Proof.
  unfold format_for_z3, format_lines.
  destruct (sorted_vars_spec cs) as [I M].
  match goal with |- context [constraint_lines cs ?l] =>
    destruct (constraint_lines_spec cs l) as [[X R]|[F [new [R [L H]]]]];
      rewrite R
  end.
  - auto.
  - split; [exact F|]. eexists. split; [reflexivity|].
    split; [|split; [|split; [exact I|split; [exact M|]]]].
    + rewrite !length_app, length_map, L. simpl. lia.
    + rewrite <- !app_assoc. simpl skipn. apply firstn_front.
    + intros c p Hc Hp. apply in_or_app. left. apply in_or_app. right.
      now apply (H c p).
Qed.

End FormatterFacts.

(* ===================================================================== *)
(** * None entries in a source, and the database of a used validator *)
(* ===================================================================== *)

Module CaseFacts.
Import Authority Extractor Validator Spec Cases.
Import AuthorityFacts ValidatorFacts.

(** ** Ranking and resolving with a None entry *)

Lemma keyed_constraint_raises x c :
  ~ well_typed (get_source x) ->
  keyed_constraint x c = (Raise AttributeError, c).
Proof.
  intros N. unfold keyed_constraint, get_authority_key, bind.
  destruct (detect_authority_outcome (get_source x) c) as [[E _]|[k [_ [W _]]]];
    [now rewrite E|contradiction].
Qed.

Lemma keyed_constraint_outcome x c :
  (~ well_typed (get_source x)
   /\ keyed_constraint x c = (Raise AttributeError, c))
  \/ (well_typed (get_source x)
      /\ exists kx c1, keyed_constraint x c = (Ok kx, c1)).
Proof.
  destruct (detect_authority_outcome (get_source x) c) as [[E N]|[k [_ [W _]]]].
  - left. split; [exact N|now apply keyed_constraint_raises].
  - right. split; [exact W|].
    destruct (keyed_constraint_returns x c W) as [key [i [c1 [E _]]]]. eauto.
Qed.

(** The keys are computed for every constraint before anything is sorted:
    one source with a None entry makes the ranking raise. *)
Lemma rank_constraints_raises cs c :
  Exists (fun x => ~ well_typed (get_source x)) cs ->
  fst (rank_constraints cs c) = Raise AttributeError.
Proof.
  intros X. unfold rank_constraints.
  assert (F : fst (for_each keyed_constraint cs c) = Raise AttributeError).
  { revert c. induction X as [x cs N|x cs _ IH]; intros c; simpl.
    - unfold bind at 1. now rewrite (keyed_constraint_raises x c N).
    - unfold bind at 1.
      destruct (keyed_constraint_outcome x c) as [[_ E]|[_ [kx [c1 E]]]];
        rewrite E; [reflexivity|].
      unfold bind at 1. specialize (IH c1).
      destruct (for_each keyed_constraint cs c1) as [[l|e] c2];
        [discriminate IH|exact IH]. }
  unfold bind. destruct (for_each keyed_constraint cs c) as [[l|e] c2];
    [discriminate F|].
  simpl in *. congruence.
Qed.

Lemma resolve_conflict_raises x y cs c :
  Exists (fun z => ~ well_typed (get_source z)) (x :: y :: cs) ->
  fst (resolve_conflict (x :: y :: cs) c) = Raise AttributeError.
Proof.
  intros X. pose proof (rank_constraints_raises _ c X) as R.
  unfold resolve_conflict. unfold bind at 1.
  destruct (rank_constraints (x :: y :: cs) c) as [[l|e] c2];
    [discriminate R|].
  simpl in *. congruence.
Qed.

Lemma court_none_ill_typed : ~ well_typed (get_source court_none).
Proof. intros [_ [C _]]. now apply C. Qed.

(** C5, as the code behaves: a source entry that is None, which the
    default of [source.get(key, '')] does not replace, makes resolve_conflict
    raise AttributeError on two or more constraints, wherever the constraint
    stands in the list, instead of ranking them and comparing the first and
    the last; the same constraint alone is returned as the winner. *)
Theorem resolve_conflict_raises_on_none_entry :
  Forall (fun cs => fst (resolve_conflict cs ∅) = Raise AttributeError)
         [ [court_none; supreme_ruling]; [supreme_ruling; court_none];
           [trial_filing; supreme_ruling; court_none] ]
  /\ (exists r,
        resolve_conflict [court_none] ∅ = (Ok r, ∅)
        /\ resolved r = true /\ winner r = Some court_none)
  /\ Authority.court (get_source court_none) = PyNone.
Proof.
  split; [|split; [eexists; split; [reflexivity|split; reflexivity]
                  |reflexivity]].
  repeat (apply List.Forall_cons; [apply resolve_conflict_raises|]);
    [| | |apply List.Forall_nil].
  - left. exact court_none_ill_typed.
  - right. left. exact court_none_ill_typed.
  - right. right. left. exact court_none_ill_typed.
Qed.

(** ** A second call with a None entry *)

(** C8, as the code behaves: detect_authority lowers quote and doc_type
    before it looks the key up, so a second call with the same doc_title and
    court (up to case) whose quote or doc_type is None raises AttributeError
    although the cache holds the AuthorityInfo of the first call (a
    district court) under its key. *)
Theorem detect_authority_second_call_raises :
  exists i c1,
    detect_authority smith_v_jones ∅ = (Ok i, c1)
    /\ level i = DISTRICT_COURT
    /\ c1 !! "smith v. jones:district court" = Some i
    /\ Forall (fun s2 =>
         get_lower (Authority.doc_title s2)
         = get_lower (Authority.doc_title smith_v_jones)
         /\ get_lower (Authority.court s2)
            = get_lower (Authority.court smith_v_jones)
         /\ cache_key s2 = Ok "smith v. jones:district court"
         /\ detect_authority s2 c1 = (Raise AttributeError, c1))
       [smith_v_jones_untyped; smith_v_jones_unquoted].
Proof.
  assert (W : well_typed smith_v_jones) by (repeat split; discriminate).
  destruct (detect_authority_returns smith_v_jones ∅ W)
    as [i [c1 [D [_ [k [K S]]]]]].
  assert (Ek : k = "smith v. jones:district court")
    by (vm_compute in K; now injection K as <-).
  subst k. exists i, c1. split; [exact D|].
  split.
  { assert (E : fst (detect_authority smith_v_jones ∅) = Ok i)
      by now rewrite D.
    vm_compute in E. injection E as <-. reflexivity. }
  split; [exact S|].
  repeat (apply List.Forall_cons;
          [split; [reflexivity|split; [reflexivity|split; [reflexivity|]]]|]);
    [| |apply List.Forall_nil].
  - destruct (detect_authority_outcome smith_v_jones_untyped c1)
      as [[E _]|[_ [_ [[_ [_ [_ T]]] _]]]]; [exact E|now contradiction T].
  - destruct (detect_authority_outcome smith_v_jones_unquoted c1)
      as [[E _]|[_ [_ [[_ [_ [Q _]]] _]]]]; [exact E|now contradiction Q].
Qed.

(** ** The core against the database of a used validator *)


End CaseFacts.
